(** * time-machine: the text-analytics pipeline of the journal site generator

    A shallow embedding of [scripts/clean.js] and [scripts/build.js]:
    the boilerplate normalizer, the tokenizer, the stopword filter, the
    aggregator, the trend ranker and the sparkline renderer, followed by the
    properties proved about them.

    Conventions.
    - A JavaScript string is the list of its UTF-16 code units ([N]).
    - Counts, years, months and the sizes of a chart are integers ([Z]),
      taken to be in the range where JavaScript's numbers are exact (up to
      2^53 in magnitude).
    - A [Map] is the list of its entries in insertion order, keys distinct.
    - The variance used for the spiky ranking is computed on IEEE 754
      binary64 numbers (primitive floats), as JavaScript does.
    - The coordinates of a sparkline are binary64 numbers as well: the
      integers of the geometry are exact, the quotients are rounded, and
      a division by zero gives [NaN] or an infinity. *)

From Stdlib Require Import String Ascii.
From Stdlib Require Import List ZArith NArith QArith Qround Bool Lia DecimalString.
From Stdlib Require Import Permutation Sorted PeanoNat.
From Stdlib Require Import Floats Numbers.Cyclic.Int63.Uint63.
Import ListNotations.

Local Open Scope N_scope.

(* ================================================================== *)
(** * JavaScript strings *)
(* ================================================================== *)

Module Js.

Definition char := N.
Definition jsstring := list char.

(** An ASCII literal as a JavaScript string. *)
Definition str (s : string) : jsstring :=
  map N_of_ascii (list_ascii_of_string s).

Definition LF : char := 10.
Definition SP : char := 32.
Definition APOS : char := 39.

Definition between (lo hi c : char) : bool := (lo <=? c) && (c <=? hi).

(** [\s], which is also the set [String.prototype.trim] strips:
    WhiteSpace and LineTerminator of ECMA-262. *)
Definition is_space (c : char) : bool :=
  between 9 13 c || (c =? 32) || (c =? 160) || (c =? 5760)
  || between 8192 8202 c || (c =? 8232) || (c =? 8233) || (c =? 8239)
  || (c =? 8287) || (c =? 12288) || (c =? 65279).

(** [\d] *)
Definition is_digit (c : char) : bool := between 48 57 c.

Definition is_upper (c : char) : bool := between 65 90 c.
Definition is_lower (c : char) : bool := between 97 122 c.

(** [\w], the characters [\b] looks at. *)
Definition is_word (c : char) : bool :=
  is_upper c || is_lower c || is_digit c || (c =? 95).

(** [Canonicalize] of a regular expression with the [i] flag and without
    the [u] flag, as far as it can equate a character with an ASCII one:
    a code unit above 127 never canonicalizes to an ASCII character. *)
Definition canon (c : char) : char := if is_lower c then c - 32 else c.

(** [String.prototype.toLowerCase] on strings made of ASCII characters and
    white space, the only strings the tokenizer applies it to (lemma
    [lowercase_domain] below). *)
Definition lower (c : char) : char := if is_upper c then c + 32 else c.
Definition toLowerCase (s : jsstring) : jsstring := map lower s.

Definition one_of (set : string) (c : char) : bool :=
  existsb (N.eqb c) (str set).
Definition none_of (set : string) (c : char) : bool := negb (one_of set c).

Fixpoint eqb (s t : jsstring) : bool :=
  match s, t with
  | [], [] => true
  | c :: s', d :: t' => (c =? d) && eqb s' t'
  | _, _ => false
  end.

Fixpoint dropWhile (f : char -> bool) (s : jsstring) : jsstring :=
  match s with
  | [] => []
  | c :: t => if f c then dropWhile f t else s
  end.

(** [String.prototype.trim] *)
Definition trim (s : jsstring) : jsstring :=
  rev (dropWhile is_space (rev (dropWhile is_space s))).

(** [s.split(sep)] for a one-character separator. *)
Fixpoint split (sep : char) (s : jsstring) : list jsstring :=
  match s with
  | [] => [[]]
  | c :: t =>
      if c =? sep then [] :: split sep t
      else match split sep t with
           | l :: ls => (c :: l) :: ls
           | [] => [[c]]
           end
  end.

(** [lines.join(sep)] *)
Fixpoint join (sep : jsstring) (ls : list jsstring) : jsstring :=
  match ls with
  | [] => []
  | [l] => l
  | l :: ls' => l ++ sep ++ join sep ls'
  end.

(** [a.localeCompare(b)] on the month keys, which hold digits and hyphens
    only: the collation orders those like their code units. *)
Fixpoint localeCompare (s t : jsstring) : comparison :=
  match s, t with
  | [], [] => Eq
  | [], _ :: _ => Lt
  | _ :: _, [] => Gt
  | c :: s', d :: t' =>
      match c ?= d with
      | Eq => localeCompare s' t'
      | o => o
      end
  end.

(** [String(z)] for an integer *)
Definition number_to_string (z : Z) : jsstring :=
  str (NilZero.string_of_int (Z.to_int z)).

(** [s.padStart(n, fill)] for a one-character filler *)
Definition padStart (n : nat) (fill : char) (s : jsstring) : jsstring :=
  repeat fill (n - length s) ++ s.

(** ** Arrays *)

(** An index argument of [slice], relative to the end when negative. *)
Definition relIndex (len i : Z) : Z :=
  (if i <? 0 then Z.max (len + i) 0 else Z.min i len)%Z.

(** [a.slice(from, to)] *)
Definition slice {A} (from to : Z) (l : list A) : list A :=
  let len := Z.of_nat (length l) in
  let k := relIndex len from in
  let e := relIndex len to in
  firstn (Z.to_nat (e - k)) (skipn (Z.to_nat k) l).

(** [a.slice(from)] *)
Definition sliceFrom {A} (from : Z) (l : list A) : list A :=
  slice from (Z.of_nat (length l)) l.

(** [a.reduce((a, b) => a + b, 0)] *)
Definition sum (l : list Z) : Z := fold_left Z.add l 0%Z.

(** [a.map((x, i) => f(i, x))], the indices starting at [i]. *)
Fixpoint mapi_from {A B} (f : nat -> A -> B) (i : nat) (l : list A) : list B :=
  match l with
  | [] => []
  | x :: l' => f i x :: mapi_from f (S i) l'
  end.
Definition mapi {A B} (f : nat -> A -> B) (l : list A) : list B :=
  mapi_from f 0 l.

(** [a[i]++] on an array of integers.  The index is the result of a [Map]
    lookup: [undefined] names no element, so no element changes; an index
    past the end would grow the array, which [monthIndex_in_range] below
    excludes. *)
Definition incrAt (i : option nat) (a : list Z) : list Z :=
  match i with
  | Some i =>
      if (i <? length a)%nat
      then firstn i a ++ (nth i a 0 + 1)%Z :: skipn (S i) a
      else a
  | None => a
  end.

(** The sign of a comparator's result. *)
Definition sgn (z : Z) : comparison := (z ?= 0)%Z.

(** [a.sort(cmp)]: the sort is stable, so with a comparator that is a
    weak order the result is that of a stable insertion sort.  [cmp x y]
    is [Gt] when the comparator returns a positive number on [(x, y)]. *)
Fixpoint insert {A} (cmp : A -> A -> comparison) (x : A) (l : list A)
  : list A :=
  match l with
  | [] => [x]
  | y :: l' =>
      match cmp x y with
      | Gt => y :: insert cmp x l'
      | _ => x :: l
      end
  end.
Definition sort {A} (cmp : A -> A -> comparison) (l : list A) : list A :=
  fold_right (insert cmp) [] l.

(** ** Maps and sets, in insertion order *)

Section Keyed.
Context {K V : Type}.
Variable keq : K -> K -> bool.

(** [m.get(k)] *)
Fixpoint Map_get (m : list (K * V)) (k : K) : option V :=
  match m with
  | [] => None
  | (k', v) :: m' => if keq k' k then Some v else Map_get m' k
  end.

(** [m.has(k)] *)
Definition Map_has (m : list (K * V)) (k : K) : bool :=
  match Map_get m k with Some _ => true | None => false end.

(** [m.set(k, v)]: a key that is present keeps its place. *)
Fixpoint Map_set (m : list (K * V)) (k : K) (v : V) : list (K * V) :=
  match m with
  | [] => [(k, v)]
  | (k', v') :: m' =>
      if keq k' k then (k', v) :: m' else (k', v') :: Map_set m' k v
  end.

(** [set.has(k)] *)
Definition Set_has (set : list K) (k : K) : bool := existsb (keq k) set.

(** [set.add(k)] *)
Definition Set_add (set : list K) (k : K) : list K :=
  if Set_has set k then set else set ++ [k].

(** [Array.from(new Set(a))] *)
Definition Set_from (a : list K) : list K := fold_left Set_add a [].
End Keyed.

(** [m.get(k) || 0] *)
Definition orZero (o : option Z) : Z :=
  match o with Some v => v | None => 0%Z end.

(** [s.replaceAll(c, rep)] for a one-character pattern [c]; [rep] holds no
    [$]. *)
Definition replaceAllChar (c : char) (rep s : jsstring) : jsstring :=
  flat_map (fun d => if d =? c then rep else [d]) s.

End Js.

(* ================================================================== *)
(** * Regular expressions *)
(* ================================================================== *)

(** The fragment of ECMAScript regular expressions the two scripts use:
    anchors, [\b], character classes, literals, a starred character class
    (greedy or lazy), an optional group and concatenation.  The matcher is
    the backtracking matcher of ECMA-262 in continuation-passing style. *)
Module Regex.
Import Js.

Inductive regex : Type :=
| Bol                                  (* ^ *)
| Eol                                  (* $ *)
| WordB                                (* \b *)
| Cls (cls : char -> bool)             (* one character of a class *)
| Lit (s : jsstring)                   (* a literal sequence *)
| Star (cls : char -> bool)            (* [cls]* *)
| StarLazy (cls : char -> bool)        (* [cls]*? *)
| Opt (r : regex)                      (* (r)? *)
| Seq (r1 r2 : regex).

Definition seqs (rs : list regex) : regex := fold_right Seq (Lit []) rs.
Definition lit (s : string) : regex := Lit (str s).
Definition Plus (cls : char -> bool) : regex := Seq (Cls cls) (Star cls).

(** [r{0,n}] *)
Fixpoint upto (n : nat) (r : regex) : regex :=
  match n with
  | O => Lit []
  | S n' => Opt (Seq r (upto n' r))
  end.

(** [c{n,}] for a character class *)
Fixpoint at_least (n : nat) (cls : char -> bool) : regex :=
  match n with
  | O => Star cls
  | S n' => Seq (Cls cls) (at_least n' cls)
  end.

(** A position in the input: the character before it (none at index 0)
    and the input from it on. *)
Record pos : Type := mkpos { before : option char; rest : jsstring }.

Definition is_word_opt (o : option char) : bool :=
  match o with Some c => is_word c | None => false end.

Definition at_boundary (p : pos) : bool :=
  xorb (is_word_opt (before p)) (is_word_opt (hd_error (rest p))).

Section Matcher.
(** The [i] flag. *)
Variable icase : bool.

Definition same (c d : char) : bool :=
  if icase then canon c =? canon d else c =? d.

Fixpoint run_lit (s : jsstring) (p : pos) : option pos :=
  match s with
  | [] => Some p
  | c :: s' =>
      match rest p with
      | d :: t => if same c d then run_lit s' (mkpos (Some d) t) else None
      | [] => None
      end
  end.

Fixpoint run_star (cls : char -> bool) (k : pos -> option pos)
         (b : option char) (s : jsstring) : option pos :=
  match s with
  | c :: t =>
      if cls c
      then match run_star cls k (Some c) t with
           | Some q => Some q
           | None => k (mkpos b s)
           end
      else k (mkpos b s)
  | [] => k (mkpos b [])
  end.

Fixpoint run_star_lazy (cls : char -> bool) (k : pos -> option pos)
         (b : option char) (s : jsstring) : option pos :=
  match k (mkpos b s) with
  | Some q => Some q
  | None =>
      match s with
      | c :: t => if cls c then run_star_lazy cls k (Some c) t else None
      | [] => None
      end
  end.

(** [run r k p]: match [r] at [p], then the continuation [k]; the first
    success in the order of ECMA-262's backtracking. *)
Fixpoint run (r : regex) (k : pos -> option pos) (p : pos) : option pos :=
  match r with
  | Bol => match before p with None => k p | Some _ => None end
  | Eol => match rest p with [] => k p | _ :: _ => None end
  | WordB => if at_boundary p then k p else None
  | Cls cls =>
      match rest p with
      | c :: t => if cls c then k (mkpos (Some c) t) else None
      | [] => None
      end
  | Lit s => match run_lit s p with Some q => k q | None => None end
  | Star cls => run_star cls k (before p) (rest p)
  | StarLazy cls => run_star_lazy cls k (before p) (rest p)
  | Opt r' => match run r' k p with Some q => Some q | None => k p end
  | Seq r1 r2 => run r1 (run r2 k) p
  end.

(** The leftmost match at or after a position: the text skipped before
    it and the position after it. *)
Fixpoint exec (r : regex) (b : option char) (s : jsstring)
  : option (jsstring * pos) :=
  match run r Some (mkpos b s) with
  | Some q => Some ([], q)
  | None =>
      match s with
      | [] => None
      | c :: t =>
          match exec r (Some c) t with
          | Some (pre, q) => Some (c :: pre, q)
          | None => None
          end
      end
  end.

(** [re.test(s)] *)
Definition test (r : regex) (s : jsstring) : bool :=
  match exec r None s with Some _ => true | None => false end.

(** [s.replace(re, rep)] with the [g] flag; [rep] holds no [$]. *)
Fixpoint replace_loop (fuel : nat) (r : regex) (rep : jsstring)
         (b : option char) (s : jsstring) : jsstring :=
  match fuel with
  | O => s
  | S fuel' =>
      match exec r b s with
      | None => s
      | Some (pre, q) =>
          if (length (rest q) + length pre =? length s)%nat
          then (* an empty match: copy one character and go on *)
            pre ++ rep ++
            match rest q with
            | [] => []
            | c :: t => c :: replace_loop fuel' r rep (Some c) t
            end
          else pre ++ rep ++ replace_loop fuel' r rep (before q) (rest q)
      end
  end.

Definition replace_all (r : regex) (rep s : jsstring) : jsstring :=
  replace_loop (S (length s)) r rep None s.

(** [s.split(re)]: the loop of RegExp.prototype[Symbol.split], which tries
    a match at every index [q] from the last split point [p] on and splits
    where the match ends after [p].  [seg] is [s[p..q)] reversed. *)
Fixpoint split_loop (fuel : nat) (r : regex) (seg : jsstring)
         (b : option char) (s : jsstring) : list jsstring :=
  match fuel with
  | O => [rev seg ++ s]
  | S fuel' =>
      match s with
      | [] => [rev seg]
      | c :: t =>
          match run r Some (mkpos b s) with
          | Some q =>
              if (length (rest q) =? length s)%nat
              then match seg with
                   | [] => split_loop fuel' r [c] (Some c) t
                   | _ :: _ => rev seg :: split_loop fuel' r [] b s
                   end
              else rev seg :: split_loop fuel' r [] (before q) (rest q)
          | None => split_loop fuel' r (c :: seg) (Some c) t
          end
      end
  end.

Definition split_re (r : regex) (s : jsstring) : list jsstring :=
  match s with
  | [] => match run r Some (mkpos None []) with
          | Some _ => []
          | None => [[]]
          end
  | _ :: _ => split_loop (2 * length s + 2) r [] None s
  end.

End Matcher.

End Regex.

(* ================================================================== *)
(** * scripts/clean.js *)
(* ================================================================== *)

Module Clean.
Import Js Regex.

(** [/^\s*#{0,6}\s*Must Do'?s\b/i] *)
Definition re_mustDos : regex :=
  seqs [Bol; Star is_space; upto 6 (lit "#"); Star is_space;
        lit "Must Do"; Opt (lit "'"); lit "s"; WordB].
(** [/^\s*[-*+]\s+/] *)
Definition re_bullet : regex :=
  seqs [Bol; Star is_space; Cls (one_of "-*+"); Plus is_space].
(** [/^\s*\d+\.\s+/] *)
Definition re_numbered : regex :=
  seqs [Bol; Star is_space; Plus is_digit; lit "."; Plus is_space].
(** [/^\s*\[[ xX]\]\s+/] *)
Definition re_checkbox : regex :=
  seqs [Bol; Star is_space; lit "["; Cls (one_of " xX"); lit "]";
        Plus is_space].
(** [/^\s*$/] *)
Definition re_blank : regex := seqs [Bol; Star is_space; Eol].
(** [/\[\[\s*link\s*to\s*\]\]/i] *)
Definition re_wikiLinkTo : regex :=
  seqs [lit "[["; Star is_space; lit "link"; Star is_space; lit "to";
        Star is_space; lit "]]"].
(** [/^\s*#{0,6}\s*link\s*to\b/i] *)
Definition re_linkTo : regex :=
  seqs [Bol; Star is_space; upto 6 (lit "#"); Star is_space;
        lit "link"; Star is_space; lit "to"; WordB].
(** [/^\s*#{0,6}\s*are\s*we\s*closer\b/i] *)
Definition re_areWeCloser : regex :=
  seqs [Bol; Star is_space; upto 6 (lit "#"); Star is_space;
        lit "are"; Star is_space; lit "we"; Star is_space; lit "closer";
        WordB].
(** [/\b100\s*days\b/i] *)
Definition re_100days : regex :=
  seqs [WordB; lit "100"; Star is_space; lit "days"; WordB].
(** [/\n{3,}/g] *)
Definition re_newlines3 : regex := at_least 3 (N.eqb LF).

(** The condition of the [while] loop on line [j]. *)
Definition isListOrBlank (l : jsstring) : bool :=
  test false re_bullet l || test false re_numbered l
  || test false re_checkbox l || test false re_blank l.

(** The [while] loop: [j] advances over the lines [ls], which start at
    index [j]. *)
Fixpoint skipList (ls : list jsstring) (j : nat) : nat :=
  match ls with
  | l :: ls' => if isListOrBlank l then skipList ls' (S j) else j
  | [] => j
  end.

(** The first [for] loop, at index [i] with the lines [ls] from [i] on;
    [startIdx] stays 0 when no line matches. *)
Fixpoint findStart (ls : list jsstring) (i : nat) : nat :=
  match ls with
  | l :: ls' =>
      if test true re_mustDos l then skipList ls' (S i)
      else findStart ls' (S i)
  | [] => O
  end.

(** The condition of the second [for] loop on a line. *)
Definition isFooter (l : jsstring) : bool :=
  test true re_wikiLinkTo l || test true re_linkTo l
  || test true re_areWeCloser l || test true re_100days l.

(** The second [for] loop, at index [i] with the lines [ls] from [i] on;
    [None] when it ends without a [break]. *)
Fixpoint findEnd (ls : list jsstring) (i : nat) : option nat :=
  match ls with
  | l :: ls' => if isFooter l then Some i else findEnd ls' (S i)
  | [] => None
  end.

Definition cleanTopAndBottom (markdown : jsstring) : jsstring :=
  let lines := split LF markdown in
  let startIdx := findStart lines 0 in
  let endIdx :=
    match findEnd (skipn startIdx lines) startIdx with
    | Some i => i
    | None => length lines
    end in
  let cleaned :=
    trim (replace_all false re_newlines3 [LF; LF]
            (join [LF] (slice (Z.of_nat startIdx) (Z.of_nat endIdx) lines))) in
  match cleaned with
  | [] => []
  | _ :: _ => cleaned ++ [LF]
  end.

End Clean.

(* ================================================================== *)
(** * scripts/build.js *)
(* ================================================================== *)

Module Build.
Import Js Regex.

(** ** The boilerplate normalizer *)

(** [/^\s*#{0,6}\s*Must Do'?s\b/i] *)
Definition re_mustDos : regex :=
  seqs [Bol; Star is_space; upto 6 (lit "#"); Star is_space;
        lit "Must Do"; Opt (lit "'"); lit "s"; WordB].
(** [/^\s*[-*+]\s+/] *)
Definition re_bullet : regex :=
  seqs [Bol; Star is_space; Cls (one_of "-*+"); Plus is_space].
(** [/^\s*\d+\.\s+/] *)
Definition re_numbered : regex :=
  seqs [Bol; Star is_space; Plus is_digit; lit "."; Plus is_space].
(** [/^\s*\[[ xX]\]\s+/] *)
Definition re_checkbox : regex :=
  seqs [Bol; Star is_space; lit "["; Cls (one_of " xX"); lit "]";
        Plus is_space].
(** [/^\s*$/] *)
Definition re_blank : regex := seqs [Bol; Star is_space; Eol].
(** [/\[\[\s*link\s*to\s*\]\]/i] *)
Definition re_wikiLinkTo : regex :=
  seqs [lit "[["; Star is_space; lit "link"; Star is_space; lit "to";
        Star is_space; lit "]]"].
(** [/^\s*#{0,6}\s*link\s*to\b/i] *)
Definition re_linkTo : regex :=
  seqs [Bol; Star is_space; upto 6 (lit "#"); Star is_space;
        lit "link"; Star is_space; lit "to"; WordB].
(** [/^\s*#{0,6}\s*are\s*we\s*closer\b/i] *)
Definition re_areWeCloser : regex :=
  seqs [Bol; Star is_space; upto 6 (lit "#"); Star is_space;
        lit "are"; Star is_space; lit "we"; Star is_space; lit "closer";
        WordB].
(** [/\b100\s*days\b/i] *)
Definition re_100days : regex :=
  seqs [WordB; lit "100"; Star is_space; lit "days"; WordB].
(** [/\n{3,}/g] *)
Definition re_newlines3 : regex := at_least 3 (N.eqb LF).

(** A line the header block goes on over: a list item, a numbered item, a
    checkbox or a blank line. *)
Definition isListOrBlank (l : jsstring) : bool :=
  test false re_bullet l || test false re_numbered l
  || test false re_checkbox l || test false re_blank l.

(** The inner [while] loop of step 1. *)
Fixpoint skipList (ls : list jsstring) (j : nat) : nat :=
  match ls with
  | l :: ls' => if isListOrBlank l then skipList ls' (S j) else j
  | [] => j
  end.

(** Step 1: the index after the first Must Do's line and its list, 0
    without such a line. *)
Fixpoint findStart (ls : list jsstring) (i : nat) : nat :=
  match ls with
  | l :: ls' =>
      if test true re_mustDos l then skipList ls' (S i)
      else findStart ls' (S i)
  | [] => O
  end.

(** A line that opens the footer. *)
Definition isFooter (l : jsstring) : bool :=
  test true re_wikiLinkTo l || test true re_linkTo l
  || test true re_areWeCloser l || test true re_100days l.

(** Step 2: the index of the first footer line at or after [i]. *)
Fixpoint findEnd (ls : list jsstring) (i : nat) : option nat :=
  match ls with
  | l :: ls' => if isFooter l then Some i else findEnd ls' (S i)
  | [] => None
  end.

Definition startIdx (lines : list jsstring) : nat := findStart lines 0.

Definition endIdx (lines : list jsstring) : nat :=
  match findEnd (skipn (startIdx lines) lines) (startIdx lines) with
  | Some i => i
  | None => length lines
  end.

(** [.replace(/\n{3,}/g, '\n\n')] *)
Definition collapseBlankLines (s : jsstring) : jsstring :=
  replace_all false re_newlines3 [LF; LF] s.

Definition cleanJournalMarkdown (text : jsstring) : jsstring :=
  let lines := split LF text in
  let cleaned :=
    trim (collapseBlankLines
            (join [LF]
               (slice (Z.of_nat (startIdx lines)) (Z.of_nat (endIdx lines))
                  lines))) in
  match cleaned with
  | [] => []
  | _ :: _ => cleaned ++ [LF]
  end.

(** ** The tokenizer *)

(** [/```[\s\S]*?```/g] *)
Definition re_fence : regex :=
  seqs [lit "```"; StarLazy (fun _ => true); lit "```"].
(** [/`[^`]*`/g] *)
Definition re_inlineCode : regex :=
  seqs [lit "`"; Star (none_of "`"); lit "`"].
(** [/!\[[^\]]*\]\([^\)]*\)/g] *)
Definition re_image : regex :=
  seqs [lit "!["; Star (none_of "]"); lit "]("; Star (none_of ")"); lit ")"].
(** [/\[[^\]]*\]\([^\)]*\)/g] *)
Definition re_link : regex :=
  seqs [lit "["; Star (none_of "]"); lit "]("; Star (none_of ")"); lit ")"].
(** [/[\u2019']/g] *)
Definition re_apostrophe : regex := Cls (fun c => (c =? 8217) || (c =? APOS)).
(** [[a-zA-Z0-9\s']] *)
Definition keptChar (c : char) : bool :=
  is_lower c || is_upper c || is_digit c || is_space c || (c =? APOS).
(** [/[^a-zA-Z0-9\s']/g] *)
Definition re_punctuation : regex := Cls (fun c => negb (keptChar c)).
(** [/\s+/] *)
Definition re_spaces : regex := Plus is_space.

Definition nonEmpty (s : jsstring) : bool :=
  match s with [] => false | _ :: _ => true end.

(** The text before it is lowercased and split. *)
Definition stripMarkup (text : jsstring) : jsstring :=
  replace_all false re_punctuation [SP]
    (replace_all false re_apostrophe [APOS]
       (replace_all false re_link [SP]
          (replace_all false re_image [SP]
             (replace_all false re_inlineCode [SP]
                (replace_all false re_fence [SP]
                   (cleanJournalMarkdown text)))))).

Definition tokenizeForWordCount (text : jsstring) : list jsstring :=
  let cleaned := toLowerCase (stripMarkup text) in
  filter nonEmpty (split_re false re_spaces cleaned).

(** ** The stopword filter *)

Definition STOPWORDS : list jsstring :=
  map str
    ["the";"a";"an";"and";"or";"but";"if";"then";"else";"when";"at";"by";
     "for";"in";"of";"on";"to";"up";"with";"is";"it";"as";"be";"can";"did";
     "do";"does";"doing";"done";"from";"had";"has";"have";"i";"me";"my";
     "we";"our";"you";"your";"he";"she";"they";"them";"their";"this";
     "that";"these";"those";"so";"not";"no";"yes";"just";"than";"too";
     "very";"are";"was";"were";"will";"would";"could";"should";"about";
     "after";"again";"against";"all";"am";"any";"because";"been";"before";
     "being";"between";"both";"into";"over";"under";"out";"off";"only";
     "own";"same";"some";"such";"own";"what";"which";"who";"whom";"why";
     "how";"there";"here";"where";"also"]%string.

Definition wordsWithoutStopwords (tokens : list jsstring) : list jsstring :=
  filter (fun w => (1 <? length w)%nat && negb (Set_has Js.eqb STOPWORDS w)) tokens.

(** ** Entries *)

Local Open Scope Z_scope.

(** What [parseDateFromFilename] reads off a file name; the statistics use
    the year and the month. *)
Record Meta : Type := mkMeta {
  year : Z;
  month : Z;
  day : Z;
  slug : jsstring
}.

(** A loaded entry: [markdown] is the normalized text of the file. *)
Record Entry : Type := mkEntry {
  meta : Meta;
  markdown : jsstring
}.

(** [wordsWithoutStopwords(tokenizeForWordCount(e.markdown))] *)
Definition filteredTokens (e : Entry) : list jsstring :=
  wordsWithoutStopwords (tokenizeForWordCount (markdown e)).

(** ** The aggregator *)

Record WordCount : Type := mkWordCount {
  wc_slug : jsstring;
  wc_year : Z;
  wc_count : Z
}.

Definition getWordCountsPerEntry (entries : list Entry) : list WordCount :=
  map (fun e =>
         mkWordCount (slug (meta e)) (year (meta e))
           (Z.of_nat (length (filteredTokens e))))
      entries.

(** The [Map] the loop of [aggregateCountsByYear] fills. *)
Definition countsByYearMap (items : list WordCount) : list (Z * Z) :=
  fold_left
    (fun map it =>
       Map_set Z.eqb map (wc_year it)
         (orZero (Map_get Z.eqb map (wc_year it)) + wc_count it))
    items [].

(** The result, a list of (year, total). *)
Definition aggregateCountsByYear (items : list WordCount) : list (Z * Z) :=
  sort (fun a b => sgn (fst a - fst b)) (countsByYearMap items).

Definition WordTable : Type := list (jsstring * Z).

(** The body of the inner loop of [buildWordFrequency] for a token [w] of
    an entry of year [y]. *)
Definition countWord (y : Z) (acc : WordTable * list (Z * WordTable))
           (w : jsstring) : WordTable * list (Z * WordTable) :=
  let (overall, perYear) := acc in
  let overall := Map_set Js.eqb overall w
                   (orZero (Map_get Js.eqb overall w) + 1) in
  let perYear := if Map_has Z.eqb perYear y then perYear
                 else Map_set Z.eqb perYear y [] in
  let ym := match Map_get Z.eqb perYear y with
            | Some ym => ym
            | None => []
            end in
  let ym := Map_set Js.eqb ym w (orZero (Map_get Js.eqb ym w) + 1) in
  (overall, Map_set Z.eqb perYear y ym).

(** The pair ([overall], [perYear]). *)
Definition buildWordFrequency (entries : list Entry)
  : WordTable * list (Z * WordTable) :=
  fold_left
    (fun acc e => fold_left (countWord (year (meta e))) (filteredTokens e) acc)
    entries ([], []).

(** ** statsPage: the monthly series *)

(** [`${e.meta.year}-${String(e.meta.month).padStart(2, '0')}`] *)
Definition monthKey (e : Entry) : jsstring :=
  number_to_string (year (meta e)) ++ str "-"
  ++ padStart 2 48%N (number_to_string (month (meta e))).

Definition perMonthMap (entries : list Entry) : list (jsstring * Z) :=
  fold_left
    (fun map e =>
       Map_set Js.eqb map (monthKey e)
         (orZero (Map_get Js.eqb map (monthKey e))
          + Z.of_nat (length (filteredTokens e))))
    entries [].

Definition perMonth (entries : list Entry) : list (jsstring * Z) :=
  sort (fun a b => localeCompare (fst a) (fst b)) (perMonthMap entries).

Definition monthLabels (entries : list Entry) : list jsstring :=
  sliceFrom 1 (map fst (perMonth entries)).
Definition monthValues (entries : list Entry) : list Z :=
  sliceFrom 1 (map snd (perMonth entries)).

(** The Month Index. *)
Definition monthlyOrder (entries : list Entry) : list jsstring :=
  sort localeCompare (Set_from Js.eqb (map monthKey entries)).

Definition monthIndex (entries : list Entry) : list (jsstring * nat) :=
  fold_left (fun m ki => Map_set Js.eqb m (fst ki) (snd ki))
    (mapi (fun i k => (k, i)) (monthlyOrder entries)) [].

Definition WordMonths : Type := list (jsstring * list Z).

(** The body of the inner loop that fills [perWordMonthCounts], for a token
    [w] of an entry of month key [ym]. *)
Definition countWordMonth (entries : list Entry) (ym : jsstring)
           (m : WordMonths) (w : jsstring) : WordMonths :=
  let m := if Map_has Js.eqb m w then m
           else Map_set Js.eqb m w
                  (repeat 0 (length (monthlyOrder entries))) in
  match Map_get Js.eqb m w with
  | Some arr =>
      Map_set Js.eqb m w (incrAt (Map_get Js.eqb (monthIndex entries) ym) arr)
  | None => m
  end.

(** The per-word-per-month matrix; the months are those of all [entries]. *)
Definition perWordMonthCountsOf (entries part : list Entry) : WordMonths :=
  fold_left
    (fun m e =>
       fold_left (countWordMonth entries (monthKey e)) (filteredTokens e) m)
    part [].

Definition perWordMonthCounts (entries : list Entry) : WordMonths :=
  perWordMonthCountsOf entries entries.

(** ** statsPage: the trend ranker *)

(** A count as a binary64 number (counts are far below 2^53). *)
Definition toNumber (z : Z) : float := PrimFloat.of_uint63 (Uint63.of_Z z).

Definition variance (arr : list Z) : float :=
  match arr with
  | [] => 0%float
  | _ :: _ =>
      let n := toNumber (Z.of_nat (length arr)) in
      let mean :=
        (fold_left (fun a b => a + toNumber b) arr 0 / n)%float in
      (fold_left
         (fun s x => s + (toNumber x - mean) * (toNumber x - mean)) arr 0
       / n)%float
  end.

(** The sign of a comparator's result that is a binary64 number. *)
Definition fsgn (f : float) : comparison :=
  if PrimFloat.ltb f 0 then Lt else if PrimFloat.ltb 0 f then Gt else Eq.

(** [wordsGte10] as first built: the gate, then the first month dropped. *)
Definition wordsGte10Unsorted (entries : list Entry) : WordMonths :=
  map (fun wa => (fst wa, sliceFrom 1 (snd wa)))
    (filter (fun wa => sum (snd wa) >=? 10) (perWordMonthCounts entries)).

(** [wordsGte10] after [wordsGte10.sort(...)], which sorts it in place:
    the candidates of the spiky ranking and of the hottest ranking. *)
Definition wordsGte10 (entries : list Entry) : WordMonths :=
  sort (fun a b => fsgn (variance (snd b) - variance (snd a))%float)
    (wordsGte10Unsorted entries).

(** [ToInt32], which the operands of [>>] go through. *)
Definition toInt32 (z : Z) : Z := (z + 2 ^ 31) mod 2 ^ 32 - 2 ^ 31.

(** [x || d] on numbers *)
Definition orElse (x d : Z) : Z := if x =? 0 then d else x.

Definition windowN (entries : list Entry) : Z :=
  Z.min 3
    (orElse
       (Z.max 1
          (Z.shiftr (toInt32 (Z.of_nat (length (monthlyOrder entries)))) 3))
       3).

Definition end_ (entries : list Entry) : Z :=
  Z.of_nat (length (monthlyOrder entries)).
Definition prevStart (entries : list Entry) : Z :=
  Z.max 0 (end_ entries - 2 * windowN entries).
Definition havePrev (entries : list Entry) : bool :=
  end_ entries - prevStart entries >=? 2 * windowN entries.

Record Hot : Type := mkHot {
  word : jsstring;
  recent : Z;
  prev : Z;
  delta : Z;
  series : list Z
}.

(** The function [hottest] maps over [wordsGte10]. *)
Definition hotOf (entries : list Entry) (ws : jsstring * list Z) : Hot :=
  let (word, series) := ws in
  let len := Z.of_nat (length series) in
  let recent := sum (sliceFrom (Z.max 0 (len - windowN entries)) series) in
  let prev :=
    if havePrev entries
    then sum (slice (Z.max 0 (len - 2 * windowN entries))
                    (Z.max 0 (len - windowN entries)) series)
    else 0 in
  mkHot word recent prev (recent - prev) series.

Definition hottest (entries : list Entry) : list Hot :=
  slice 0 50
    (sort (fun a b => sgn (delta b - delta a))
       (filter (fun x => delta x >? 0)
          (map (hotOf entries) (wordsGte10 entries)))).

(** ** The sparkline renderer *)

(** [Math.max(...values)] and [Math.min(...values)] of a non-empty array *)
Definition maxOf (values : list Z) : Z :=
  match values with [] => 0 | v :: vs => fold_left Z.max vs v end.
Definition minOf (values : list Z) : Z :=
  match values with [] => 0 | v :: vs => fold_left Z.min vs v end.

Definition pad : Z := 6.

Definition range (values : list Z) : Z :=
  if maxOf values =? minOf values then 1 else maxOf values - minOf values.

(** The denominator of the X spacing, [Math.max(1, n - 1)]. *)
Definition xDenominator (values : list Z) : Z :=
  Z.max 1 (Z.of_nat (length values) - 1).

(** The binary64 number of an integer: the nearest one, with ties to the
    even mantissa, and an infinity beyond the range. *)
Definition ofZ (z : Z) : float :=
  SF2Prim (binary_normalize prec emax z 0 false).

(** The point of the value [v] at index [i].  The numerators, the
    denominators and [H - pad] are integers; the two quotients, the sum and
    the difference are binary64 operations. *)
Definition pointOf (values : list Z) (W H : Z) (i : nat) (v : Z)
  : float * float :=
  (ofZ pad + ofZ (Z.of_nat i * (W - 2 * pad)) / ofZ (xDenominator values),
   ofZ (H - pad)
   - ofZ ((v - minOf values) * (H - 2 * pad)) / ofZ (range values))%float.

Definition points (values : list Z) (W H : Z) : list (float * float) :=
  mapi (pointOf values W H) values.

(** Two decimals of a rational: the digits of the integer nearest to
    [100 x] (the larger one on a tie), after the sign. *)
Definition fixed2 (x : Q) : jsstring :=
  let neg := negb (Qle_bool 0 x) in
  let ax := if neg then Qopp x else x in
  let n := Qfloor (ax * inject_Z 100 + (1 # 2))%Q in
  let m := padStart 3 48%N (number_to_string n) in
  (if neg then str "-" else [])
  ++ firstn (length m - 2) m ++ str "." ++ skipn (length m - 2) m.

(** The rational a finite binary64 number stands for. *)
Definition valueOf (s : bool) (m : positive) (e : Z) : Q :=
  ((if s then inject_Z (Z.neg m) else inject_Z (Z.pos m)) * Qpower 2 e)%Q.

(** The candidate with [k] digits for the shortest decimal of the integer
    [v], which is the value of [x] and has [n] digits: [(s, n')] with
    [s * 10^(n' - k)] a decimal that reads back as [x], the nearest to [v]
    (the even [s] on a tie). *)
Definition decimalOf (x : float) (v : Z) (n k : Z) : option (Z * Z) :=
  let p := 10 ^ (n - k) in
  let lo := v / p in
  let hi := lo + 1 in
  let ok s := PrimFloat.eqb (ofZ (s * p)) x in
  let norm s := if s =? 10 ^ k then (10 ^ (k - 1), n + 1) else (s, n) in
  let okLo := (10 ^ (k - 1) <=? lo) && ok lo in
  let okHi := ok hi in
  if okLo && okHi then
    let dl := v - lo * p in
    let dh := hi * p - v in
    if dl <? dh then Some (norm lo)
    else if dh <? dl then Some (norm hi)
    else if Z.even lo then Some (norm lo) else Some (norm hi)
  else if okLo then Some (norm lo)
  else if okHi then Some (norm hi)
  else None.

(** The fewest digits that read back as [x]: [k] from 1 on. *)
Fixpoint shortestDecimal (fuel : nat) (x : float) (v : Z) (n k : Z)
  : Z * Z :=
  match fuel with
  | O => (v, n)
  | S fuel' =>
      match decimalOf x v n k with
      | Some r => r
      | None => shortestDecimal fuel' x v n (k + 1)
      end
  end.

(** [Number::toString] of a positive integer of 22 digits or more, which
    is what [toFixed] returns from 10^21 on: the shortest decimal that
    reads back as the number, with an exponent. *)
Definition exponential (x : float) (v : Z) : jsstring :=
  let n := Z.of_nat (length (number_to_string v)) in
  let (s, n') := shortestDecimal 20 x v n 1 in
  let digits := number_to_string s in
  (match digits with
   | [] => []
   | [d] => [d]
   | d :: rest => d :: str "." ++ rest
   end) ++ str "e+" ++ number_to_string (n' - 1).

(** The integer a binary64 number with a mantissa and an exponent that is
    not negative stands for. *)
Definition valueOfZ (m : positive) (e : Z) : Z := Z.pos m * 2 ^ e.

(** [x.toFixed(2)]: two decimals of the exact value of the binary64
    number, and from 10^21 on what [String(x)] gives. *)
Definition toFixed2 (x : float) : jsstring :=
  match Prim2SF x with
  | S754_zero _ => fixed2 0
  | S754_finite s m e =>
      if Qle_bool (inject_Z (10 ^ 21)) (valueOf false m e)
      then (if s then str "-" else []) ++ exponential (abs x) (valueOfZ m e)
      else fixed2 (valueOf s m e)
  | S754_nan => str "NaN"
  | S754_infinity s => if s then str "-Infinity" else str "Infinity"
  end.

(** The commands of the path, before they are joined. *)
Definition pathCommands (values : list Z) (W H : Z) : list jsstring :=
  mapi (fun i p =>
          (if (i =? 0)%nat then str "M" else str "L")
          ++ toFixed2 (fst p) ++ str "," ++ toFixed2 (snd p))
       (points values W H).

Definition DQ : char := 34%N.

(** [name="value"] *)
Definition attr (name : string) (value : jsstring) : jsstring :=
  str name ++ str "=" ++ [DQ] ++ value ++ [DQ].

(** The markup around the path data [d]. *)
Definition svgOf (W H : Z) (stroke d : jsstring) : jsstring :=
      str "<svg " ++ attr "width" (number_to_string W)
      ++ str " " ++ attr "height" (number_to_string H)
      ++ str " "
      ++ attr "viewBox"
           (str "0 0 " ++ number_to_string W ++ str " " ++ number_to_string H)
      ++ str " " ++ attr "xmlns" (str "http://www.w3.org/2000/svg")
      ++ str " " ++ attr "class" (str "sparkline") ++ str ">"
      ++ [LF] ++ str "    <path " ++ attr "d" d
      ++ str " " ++ attr "fill" (str "none")
      ++ str " " ++ attr "stroke" stroke
      ++ str " " ++ attr "stroke-width" (str "2") ++ str " />"
      ++ [LF] ++ str "  </svg>".

Definition renderSparkline (values : list Z) (W H : Z) (stroke : jsstring)
  : jsstring :=
  match values with
  | [] => []
  | _ :: _ => svgOf W H stroke (join [SP] (pathCommands values W H))
  end.

(** ** statsPage: totals and the top table *)

(** [wordCounts.reduce((s, w) => s + w.count, 0)] *)
Definition totalWords (entries : list Entry) : Z :=
  fold_left (fun s w => s + wc_count w) (getWordCountsPerEntry entries) 0.

Definition allWordsSorted (entries : list Entry) : WordTable :=
  sort (fun a b => sgn (snd b - snd a)) (fst (buildWordFrequency entries)).

Definition topWordsGte10 (entries : list Entry) : WordTable :=
  filter (fun wc => snd wc >=? 10) (allWordsSorted entries).

Definition topWords (entries : list Entry) : WordTable :=
  slice 0 50 (allWordsSorted entries).

(** ** htmlEscape *)

Definition htmlEscape (s : jsstring) : jsstring :=
  replaceAllChar 39%N (str "&#39;")
    (replaceAllChar 34%N (str "&quot;")
       (replaceAllChar 62%N (str "&gt;")
          (replaceAllChar 60%N (str "&lt;")
             (replaceAllChar 38%N (str "&amp;") s)))).

End Build.

(* ================================================================== *)
(** * Vocabulary of the statements and inputs of the examples *)
(* ================================================================== *)

Module Examples.
Import Js Regex Build.
Local Open Scope Z_scope.

(** An order-preserving subsequence. *)
Inductive Subseq {A : Type} : list A -> list A -> Prop :=
| Subseq_nil : Subseq [] []
| Subseq_skip : forall x l1 l2, Subseq l1 l2 -> Subseq l1 (x :: l2)
| Subseq_keep : forall x l1 l2, Subseq l1 l2 -> Subseq (x :: l1) (x :: l2).

Definition jsstring_eq_dec : forall s t : jsstring, {s = t} + {s <> t} :=
  list_eq_dec N.eq_dec.

(** The last [n] elements of a list, and the list without them. *)
Definition lastN {A} (n : Z) (l : list A) : list A :=
  skipn (length l - Z.to_nat n) l.
Definition dropLastN {A} (n : Z) (l : list A) : list A :=
  firstn (length l - Z.to_nat n) l.

(** The sum of [val] over the items whose key is [k], and whether there is
    such an item. *)
Fixpoint tally {A K} (keq : K -> K -> bool) (key : A -> K) (val : A -> Z)
         (items : list A) (k : K) : Z :=
  match items with
  | [] => 0
  | it :: items' =>
      if keq (key it) k then val it + tally keq key val items' k
      else tally keq key val items' k
  end.
Definition mentioned {A K} (keq : K -> K -> bool) (key : A -> K)
           (items : list A) (k : K) : bool :=
  existsb (fun it => keq (key it) k) items.

(** The filtered tokens of a list of entries, each with the month key, or
    with the year, of its entry, in the order the loops visit them. *)
Definition monthTokens (part : list Entry) : list (jsstring * jsstring) :=
  flat_map (fun e => map (pair (monthKey e)) (filteredTokens e)) part.
Definition yearTokens (part : list Entry) : list (Z * jsstring) :=
  flat_map (fun e => map (pair (year (meta e))) (filteredTokens e)) part.

(** Two word tables with the same entries, up to their order in the map. *)
Definition SameTable (t t' : WordTable) : Prop :=
  Permutation t t' /\ forall w, Map_get Js.eqb t w = Map_get Js.eqb t' w.

(** Two per-year maps with the same years and the same table for each. *)
Definition SameTables (p p' : list (Z * WordTable)) : Prop :=
  forall y,
    match Map_get Z.eqb p y, Map_get Z.eqb p' y with
    | Some t, Some t' => SameTable t t'
    | None, None => True
    | _, _ => False
    end.

(** The table a lookup in the per-year map gives, empty for a new year. *)
Definition tableOf (o : option WordTable) : WordTable :=
  match o with Some t => t | None => [] end.

(** The series a lookup in the matrix gives, all zero for a new word. *)
Definition seriesOf (n : nat) (o : option (list Z)) : list Z :=
  match o with Some a => a | None => repeat 0 n end.

(** The number of newlines a text starts with. *)
Fixpoint lead (s : jsstring) : nat :=
  match s with
  | c :: t => if (LF =? c)%N then S (lead t) else O
  | [] => O
  end.

(** A text with its runs of newlines cut to two; [k] newlines come just
    before the text. *)
Fixpoint squeeze (k : nat) (s : jsstring) : jsstring :=
  match s with
  | [] => []
  | c :: t =>
      if (LF =? c)%N
      then (if (k <? 2)%nat then c :: squeeze (S k) t else squeeze (S k) t)
      else c :: squeeze 0 t
  end.

(** A character that is no letter, no digit and no white space. *)
Definition punctuation (c : char) : bool :=
  negb (is_lower c || is_upper c || is_digit c || is_space c).

(** A regular expression without [^] and [$]. *)
Fixpoint plain (r : regex) : bool :=
  match r with
  | Bol | Eol => false
  | Opt r' => plain r'
  | Seq r1 r2 => plain r1 && plain r2
  | _ => true
  end.

(** The position [p'] is the position [p] in a line with the white space
    [v] put after it and, when [p] is at the start, white space put before
    it. *)
Definition padded (v : jsstring) (p p' : pos) : Prop :=
  rest p' = rest p ++ v
  /\ (before p' = before p
      \/ (before p = None /\ is_word_opt (before p') = false)).

(** No run of more than two newlines, [k] newlines coming just before the
    text. *)
Fixpoint short (k : nat) (s : jsstring) : bool :=
  match s with
  | [] => true
  | c :: t =>
      if (LF =? c)%N then (k <? 2)%nat && short (S k) t else short 0 t
  end.

(** The text of example scenario 1. *)
Definition scenario1 : jsstring :=
  str "## Must Do's" ++ [LF] ++ str "- [ ] task" ++ [LF; LF]
  ++ str "Body text here." ++ [LF; LF] ++ str "[[link to]]" ++ [LF]
  ++ str "footer junk".

(** A text with a second Must Do's heading in its body. *)
Definition twoHeadings : jsstring :=
  str "Must Dos" ++ [LF] ++ str "hello" ++ [LF] ++ str "Must Dos" ++ [LF]
  ++ str "- a" ++ [LF] ++ str "world".

Definition entryOf (y m : Z) (text : jsstring) : Entry :=
  mkEntry (mkMeta y m 1 []) text.

(** Two months; one word, ten times, in the first month only. *)
Definition firstMonthOnly : list Entry :=
  [entryOf 2023 1 (join [SP] (repeat (str "focus") 10));
   entryOf 2023 2 (str "run")].



(** All filtered tokens of a list of entries, in order. *)
Definition allTokens (entries : list Entry) : list jsstring :=
  flat_map filteredTokens entries.

(** The entries of a month key. *)
Definition entriesOfMonth (k : jsstring) (entries : list Entry) : list Entry :=
  filter (fun e => Js.eqb (monthKey e) k) entries.

(** How often a word occurs in a list of tokens. *)
Definition occurrences (w : jsstring) (tokens : list jsstring) : Z :=
  Z.of_nat (count_occ jsstring_eq_dec tokens w).

(** What [htmlEscape] puts for one character. *)
Definition escapeChar (c : char) : jsstring :=
  if (c =? 38)%N then str "&amp;"
  else if (c =? 60)%N then str "&lt;"
  else if (c =? 62)%N then str "&gt;"
  else if (c =? 34)%N then str "&quot;"
  else if (c =? 39)%N then str "&#39;"
  else [c].

(** Equality of two (month key, word) pairs. *)
Definition pairEqb (a b : jsstring * jsstring) : bool :=
  Js.eqb (fst a) (fst b) && Js.eqb (snd a) (snd b).

End Examples.

(* ================================================================== *)
(** * Properties *)
(* ================================================================== *)

Import Js Regex Build Examples.

(** ** Strings *)

Lemma jseqb_refl (s : jsstring) : Js.eqb s s = true.
Proof.
  induction s as [|c s IH]; simpl; [reflexivity|].
  now rewrite N.eqb_refl, IH.
Qed.

Lemma jseqb_eq (s t : jsstring) : Js.eqb s t = true <-> s = t.
Proof.
  split; [|intros ->; apply jseqb_refl].
  revert t; induction s as [|c s IH]; intros [|d t]; simpl; try discriminate; auto.
  intros H. apply andb_true_iff in H as [Hc Hs].
  apply N.eqb_eq in Hc. f_equal; auto.
Qed.

Lemma jseqb_neq (s t : jsstring) : Js.eqb s t = false <-> s <> t.
Proof.
  rewrite <- jseqb_eq. destruct (Js.eqb s t); split; congruence.
Qed.

Lemma Set_has_In (set : list jsstring) (w : jsstring) :
  Set_has Js.eqb set w = true <-> In w set.
Proof.
  unfold Set_has. rewrite existsb_exists. split.
  - intros (x & Hx & E). apply jseqb_eq in E. now subst.
  - intros H. exists w. split; [assumption | apply jseqb_refl].
Qed.

(** ** The normalizer: blank lines, trimming and the trailing newline *)

Lemma run_star_newlines (b : option char) (s : jsstring) :
  run_star (N.eqb LF) Some b s
  = Some (mkpos (match lead s with O => b | S _ => Some LF end)
                (dropWhile (N.eqb LF) s)).
Proof.
  revert b; induction s as [|c t IH]; intros b; [reflexivity|].
  cbn [run_star lead dropWhile]. destruct (N.eqb_spec LF c) as [<-|N].
  - rewrite IH. destruct (lead t); reflexivity.
  - reflexivity.
Qed.

Lemma run_newlines3 (b : option char) (s : jsstring) :
  run false re_newlines3 Some (mkpos b s)
  = if (3 <=? lead s)%nat
    then Some (mkpos (Some LF) (dropWhile (N.eqb LF) s)) else None.
Proof.
  unfold re_newlines3. cbn [at_least run rest before].
  destruct s as [|c1 s]; [reflexivity|]. cbn [lead dropWhile].
  destruct (N.eqb_spec LF c1) as [<-|N1]; [|reflexivity].
  destruct s as [|c2 s]; [reflexivity|]. cbn [lead dropWhile rest].
  destruct (N.eqb_spec LF c2) as [<-|N2]; [|reflexivity].
  destruct s as [|c3 s]; [reflexivity|]. cbn [lead dropWhile rest].
  destruct (N.eqb_spec LF c3) as [<-|N3]; [|reflexivity].
  cbn [before rest]. rewrite run_star_newlines.
  destruct (lead s); reflexivity.
Qed.

Lemma dropWhile_length (f : char -> bool) (s : jsstring) :
  (length (dropWhile f s) <= length s)%nat.
Proof.
  induction s as [|c t IH]; simpl; [lia|]. destruct (f c); simpl; lia.
Qed.

Lemma dropWhile_lead (s : jsstring) :
  (length (dropWhile (N.eqb LF) s) + lead s <= length s)%nat.
Proof.
  induction s as [|c t IH]; [simpl; lia|]. cbn [lead dropWhile length].
  destruct (N.eqb_spec LF c); cbn [length]; lia.
Qed.

Lemma squeeze_fresh (k : nat) (s : jsstring) :
  lead s = O -> squeeze k s = squeeze 0 s.
Proof.
  destruct s as [|c t]; [reflexivity|]. cbn [lead squeeze].
  destruct (N.eqb_spec LF c); [discriminate | reflexivity].
Qed.

Lemma lead_dropWhile_0 (s : jsstring) : lead (dropWhile (N.eqb LF) s) = O.
Proof.
  induction s as [|c t IH]; [reflexivity|]. cbn [dropWhile].
  destruct (N.eqb_spec LF c) as [E|N]; [assumption|].
  cbn [lead]. now destruct (N.eqb_spec LF c).
Qed.

(** What [squeeze] does with the newlines a text starts with. *)
Lemma squeeze_lead (k : nat) (s : jsstring) :
  squeeze k s
  = repeat LF (Nat.min (lead s) (2 - k)) ++ squeeze 0 (dropWhile (N.eqb LF) s).
Proof.
  revert k; induction s as [|c t IH]; intros k; [now rewrite Nat.min_0_l|].
  cbn [squeeze lead dropWhile]. destruct (N.eqb_spec LF c) as [<-|N].
  - rewrite IH. destruct (Nat.ltb_spec k 2) as [L|L].
    + replace (2 - k)%nat with (S (2 - S k)) by lia. reflexivity.
    + replace (2 - k)%nat with O by lia. replace (2 - S k)%nat with O by lia.
      now rewrite !Nat.min_0_r.
  - rewrite Nat.min_0_l. cbn [repeat app squeeze].
    now destruct (N.eqb_spec LF c).
Qed.

Lemma exec_newlines3 (s : jsstring) (b : option char) (k : nat) :
  k = O \/ (k + lead s <= 2)%nat ->
  match exec false re_newlines3 b s with
  | None => squeeze k s = s
  | Some (pre, q) =>
      squeeze k s = pre ++ [LF; LF] ++ squeeze 0 (rest q)
      /\ (length (rest q) + length pre + 3 <= length s)%nat
  end.
Proof.
  revert b k; induction s as [|c t IH]; intros b k Hk.
  - reflexivity.
  - cbn [exec]. rewrite run_newlines3.
    destruct (Nat.leb_spec 3 (lead (c :: t))) as [L|L].
    + cbn [rest length app]. split.
      * rewrite squeeze_lead. destruct Hk as [->|Hk]; [|lia].
        replace (Nat.min (lead (c :: t)) (2 - 0)) with 2%nat by lia. reflexivity.
      * pose proof (dropWhile_lead (c :: t)). cbn [length] in *. lia.
    + cbn [lead] in L, Hk. cbn [squeeze].
      destruct (N.eqb_spec LF c) as [<-|N].
      * assert (Hk' : S k = O \/ (S k + lead t <= 2)%nat) by lia.
        specialize (IH (Some LF) (S k) Hk').
        assert (K : (k <? 2)%nat = true) by (apply Nat.ltb_lt; lia).
        rewrite K.
        destruct (exec false re_newlines3 (Some LF) t) as [[pre q]|].
        -- destruct IH as [E Hl]. rewrite E. cbn [length app]. split; [reflexivity|lia].
        -- now rewrite IH.
      * specialize (IH (Some c) O (or_introl eq_refl)).
        destruct (exec false re_newlines3 (Some c) t) as [[pre q]|].
        -- destruct IH as [E Hl]. rewrite E. cbn [length app]. split; [reflexivity|lia].
        -- now rewrite IH.
Qed.

Lemma replace_newlines3 (fuel : nat) (b : option char) (s : jsstring) :
  (length s < fuel)%nat ->
  replace_loop false fuel re_newlines3 [LF; LF] b s = squeeze 0 s.
Proof.
  revert b s; induction fuel as [|fuel IH]; intros b s Hf; [lia|].
  cbn [replace_loop].
  pose proof (exec_newlines3 s b O (or_introl eq_refl)) as E.
  destruct (exec false re_newlines3 b s) as [[pre q]|]; [|now rewrite E].
  destruct E as [E Hl].
  destruct (Nat.eqb_spec (length (rest q) + length pre) (length s)) as [X|_]; [lia|].
  rewrite IH by lia. now rewrite E.
Qed.

(** [.replace(/\n{3,}/g, '\n\n')] caps every run of newlines at two. *)
Lemma collapseBlankLines_squeeze (s : jsstring) :
  collapseBlankLines s = squeeze 0 s.
Proof. unfold collapseBlankLines, replace_all. apply replace_newlines3. lia. Qed.







Lemma is_space_LF : is_space LF = true.
Proof. reflexivity. Qed.


(** *** Trimming *)


Lemma dropWhile_hd (f : char -> bool) (s : jsstring) (d : char) :
  dropWhile f s <> [] -> f (hd d (dropWhile f s)) = false.
Proof.
  induction s as [|c t IH]; [simpl; congruence|]. cbn [dropWhile].
  destruct (f c) eqn:E; [exact IH|]. intros _. exact E.
Qed.

Lemma dropWhile_suffix (f : char -> bool) (s : jsstring) :
  exists l, s = l ++ dropWhile f s /\ forallb f l = true.
Proof.
  induction s as [|c t (l & E & F)]; [now exists []|]. cbn [dropWhile].
  destruct (f c) eqn:Hc.
  - exists (c :: l). cbn [app forallb]. rewrite Hc, F. now rewrite <- E.
  - now exists [].
Qed.

Lemma forallb_rev {A} (f : A -> bool) (l : list A) :
  forallb f (rev l) = forallb f l.
Proof.
  induction l as [|x l IH]; [reflexivity|]. cbn [rev forallb].
  rewrite forallb_app, IH. cbn [forallb]. destruct (f x), (forallb f l); reflexivity.
Qed.

Lemma hd_rev {A} (l : list A) (d : A) : hd d (rev l) = last l d.
Proof.
  induction l as [|x l IH]; [reflexivity|]. cbn [rev].
  destruct l as [|y l]; [reflexivity|].
  change (last (x :: y :: l) d) with (last (y :: l) d). rewrite <- IH.
  cbn [rev]. destruct (rev l); reflexivity.
Qed.

Lemma last_rev {A} (l : list A) (d : A) : last (rev l) d = hd d l.
Proof. rewrite <- (rev_involutive l) at 2. now rewrite hd_rev. Qed.

Lemma last_app_ne {A} (r e : list A) (d : A) :
  e <> [] -> last (r ++ e) d = last e d.
Proof.
  intros He. induction r as [|x r IH]; [reflexivity|]. cbn [app last].
  destruct (r ++ e) eqn:X; [apply app_eq_nil in X; tauto | exact IH].
Qed.

(** [trim] takes the spaces off both ends: the text is spaces, what [trim]
    gives, and spaces again; what it gives is empty or has no space at
    either end. *)
Lemma trim_spec (s : jsstring) :
  exists l r,
    s = l ++ trim s ++ r
    /\ forallb is_space l = true /\ forallb is_space r = true
    /\ (trim s = []
        \/ (is_space (hd SP (trim s)) = false
            /\ is_space (last (trim s) SP) = false)).
Proof.
  unfold trim.
  destruct (dropWhile_suffix is_space s) as (l & El & Fl).
  remember (dropWhile is_space s) as d eqn:Hd.
  destruct (dropWhile_suffix is_space (rev d)) as (r & Er & Fr).
  remember (dropWhile is_space (rev d)) as e eqn:He.
  exists l, (rev r). split; [|split; [exact Fl | split; [now rewrite forallb_rev|]]].
  - rewrite <- rev_app_distr, <- Er, rev_involutive. exact El.
  - destruct e as [|c e']; [now left|]. right.
    assert (Hh : is_space c = false).
    { change c with (hd SP (c :: e')). rewrite He. apply dropWhile_hd.
      rewrite <- He. discriminate. }
    split.
    + rewrite hd_rev.
      assert (Hdne : d <> []).
      { intros X. rewrite X in Er. destruct r; discriminate. }
      rewrite <- (last_app_ne r (c :: e') SP) by discriminate.
      rewrite <- Er, last_rev, Hd. apply dropWhile_hd. now rewrite <- Hd.
    + rewrite last_rev. exact Hh.
Qed.


Lemma In_firstn_skipn_sub {A} (n m : nat) (l : list A) (x : A) :
  In x (firstn n (skipn m l)) -> In x l.
Proof.
  intros H. rewrite <- (firstn_skipn m l). apply in_or_app. right.
  rewrite <- (firstn_skipn n (skipn m l)). apply in_or_app. now left.
Qed.



Lemma slice_Forall {A} (P : A -> Prop) (from to : Z) (l : list A) :
  Forall P l -> Forall P (slice from to l).
Proof.
  intros H. unfold slice. apply Forall_forall. intros x Hx.
  rewrite Forall_forall in H. apply H.
  apply (In_firstn_skipn_sub _ _ _ _ Hx).
Qed.


(** C10.  The normalizer of the clean script and the normalizer of the build
    script return the same text on every input. *)
Theorem normalizers_agree (text : jsstring) :
  Clean.cleanTopAndBottom text = Build.cleanJournalMarkdown text.
Proof. reflexivity. Qed.

(** ** The stopword filter *)

Lemma filter_Subseq {A} (f : A -> bool) (l : list A) : Subseq (filter f l) l.
Proof.
  induction l as [|x l IH]; simpl; [constructor|].
  destruct (f x); now constructor.
Qed.

Lemma count_occ_filter {A} (dec : forall x y : A, {x = y} + {x <> y})
      (f : A -> bool) (l : list A) (w : A) :
  count_occ dec (filter f l) w = if f w then count_occ dec l w else O.
Proof.
  induction l as [|x l IH]; simpl; [now destruct (f w)|].
  destruct (f x) eqn:Fx; simpl; destruct (dec x w) as [->|N]; rewrite IH.
  - now rewrite Fx.
  - reflexivity.
  - now rewrite Fx.
  - reflexivity.
Qed.

(** ** The tokenizer's characters *)

Section ReplaceClass.
Variable p : char -> bool.
Variable rep : jsstring.

Lemma exec_cls (s : jsstring) (b : option char) :
  match exec false (Cls p) b s with
  | None => flat_map (fun c => if p c then rep else [c]) s = s
  | Some (pre, q) =>
      flat_map (fun c => if p c then rep else [c]) s
      = pre ++ rep ++ flat_map (fun c => if p c then rep else [c]) (rest q)
      /\ (length (rest q) + length pre + 1 = length s)%nat
  end.
Proof.
  revert b; induction s as [|c t IH]; intros b; [reflexivity|].
  cbn [exec run rest]. destruct (p c) eqn:E.
  - cbn [rest flat_map app length]. rewrite E. split; [reflexivity | lia].
  - specialize (IH (Some c)).
    destruct (exec false (Cls p) (Some c) t) as [[pre q]|].
    + destruct IH as [F L]. cbn [flat_map]. rewrite E, F. cbn [app length].
      split; [reflexivity | lia].
    + cbn [flat_map]. rewrite E, IH. reflexivity.
Qed.

Lemma replace_loop_cls (fuel : nat) (b : option char) (s : jsstring) :
  (length s < fuel)%nat ->
  replace_loop false fuel (Cls p) rep b s
  = flat_map (fun c => if p c then rep else [c]) s.
Proof.
  revert b s; induction fuel as [|fuel IH]; intros b s Hf; [lia|].
  cbn [replace_loop]. pose proof (exec_cls s b) as E.
  destruct (exec false (Cls p) b s) as [[pre q]|]; [|now rewrite E].
  destruct E as [E L].
  destruct (Nat.eqb_spec (length (rest q) + length pre) (length s)); [lia|].
  rewrite IH by lia. now rewrite E.
Qed.

(** Replacing every character of a class: each one by the replacement, the
    others kept. *)
Lemma replace_cls (s : jsstring) :
  replace_all false (Cls p) rep s
  = flat_map (fun c => if p c then rep else [c]) s.
Proof. unfold replace_all. apply replace_loop_cls. lia. Qed.

End ReplaceClass.

(** After [stripMarkup] the text holds ASCII letters, digits, white space
    and apostrophes only: what [toLowerCase] is applied to. *)
Lemma lowercase_domain (text : jsstring) (c : char) :
  In c (stripMarkup text) -> keptChar c = true.
Proof.
  unfold stripMarkup, re_punctuation. rewrite replace_cls.
  intros H. apply in_flat_map in H as (d & _ & H).
  destruct (keptChar d) eqn:K; cbn [negb] in H.
  - destruct H as [<-|[]]. exact K.
  - destruct H as [<-|[]]. reflexivity.
Qed.

Lemma lower_kept (c : char) :
  keptChar c = true ->
  is_space (lower c) = is_space c
  /\ (is_space c = false ->
      is_lower (lower c) || is_digit (lower c) || (lower c =? APOS)%N = true).
Proof.
  unfold keptChar, lower. destruct (is_upper c) eqn:U.
  - intros _. unfold is_upper, between in U.
    apply andb_true_iff in U as [U1 U2]. apply N.leb_le in U1, U2.
    assert (L : is_lower (c + 32) = true).
    { unfold is_lower, between. apply andb_true_iff.
      split; apply N.leb_le; cbn; lia. }
    split; [|now rewrite L].
    assert (S1 : is_space c = false).
    { unfold is_space, between.
      repeat (apply orb_false_iff; split);
        try (apply andb_false_iff; left; apply N.leb_gt; cbn; lia);
        try (apply N.eqb_neq; cbn; lia);
        try (apply andb_false_iff; right; apply N.leb_gt; cbn; lia). }
    rewrite S1. unfold is_space, between.
    repeat (apply orb_false_iff; split);
      try (apply andb_false_iff; right; apply N.leb_gt; cbn; lia);
      try (apply N.eqb_neq; cbn; lia);
      try (apply andb_false_iff; left; apply N.leb_gt; cbn; lia).
  - intros K. split; [reflexivity|]. intros S1. rewrite S1 in K.
    destruct (is_lower c), (is_digit c), (c =? APOS)%N; cbn in *; congruence.
Qed.

Lemma run_star_total (cls : char -> bool) (b : option char) (s : jsstring) :
  exists b', run_star cls Some b s = Some (mkpos b' (dropWhile cls s)).
Proof.
  revert b; induction s as [|c t IH]; intros b; [now exists b|].
  cbn [run_star dropWhile]. destruct (cls c).
  - destruct (IH (Some c)) as (b' & ->). now exists b'.
  - now exists b.
Qed.

Lemma Forall_dropWhile {P : char -> Prop} (f : char -> bool) (s : jsstring) :
  Forall P s -> Forall P (dropWhile f s).
Proof.
  intros H. destruct (dropWhile_suffix f s) as (l & E & _).
  rewrite E in H. now apply Forall_app in H.
Qed.

(** The pieces of a split on white space hold no white space. *)
Lemma split_spaces (Q : char -> Prop) (fuel : nat) (seg : jsstring)
      (b : option char) (s : jsstring) :
  (length s < fuel)%nat ->
  Forall (fun c => is_space c = false /\ Q c) seg ->
  Forall (fun c => is_space c = false -> Q c) s ->
  Forall (Forall (fun c => is_space c = false /\ Q c))
    (split_loop false fuel re_spaces seg b s).
Proof.
  revert seg b s; induction fuel as [|fuel IH]; intros seg b s Hf Hseg Hs; [lia|].
  cbn [split_loop]. destruct s as [|c t].
  - constructor; [|constructor]. now apply Forall_rev.
  - unfold re_spaces, Plus. cbn [run rest before].
    inversion Hs as [|? ? Hc Ht]; subst. cbn [length] in Hf.
    destruct (is_space c) eqn:Sc.
    + destruct (run_star_total is_space (Some c) t) as (b' & ->).
      cbn [rest before].
      pose proof (dropWhile_length is_space t) as Hl.
      destruct (Nat.eqb_spec (length (dropWhile is_space t)) (length (c :: t)))
        as [X|_]; [cbn [length] in X; lia|].
      constructor; [now apply Forall_rev|].
      apply IH; [lia | constructor | now apply Forall_dropWhile].
    + apply IH; [lia | | exact Ht].
      constructor; [|exact Hseg]. auto.
Qed.

(** Every token is a non-empty word of lowercase letters, digits and
    apostrophes. *)
Lemma token_chars (text : jsstring) (w : jsstring) :
  In w (tokenizeForWordCount text) ->
  w <> []
  /\ forall c, In c w ->
               is_lower c || is_digit c || (c =? APOS)%N = true.
Proof.
  unfold tokenizeForWordCount. cbn zeta. rewrite filter_In. intros [Hw Hn].
  split; [destruct w; [discriminate | discriminate]|].
  set (Q := fun c => is_lower c || is_digit c || (c =? APOS)%N = true).
  assert (F : Forall (Forall (fun c => is_space c = false /\ Q c))
                (split_re false re_spaces (toLowerCase (stripMarkup text)))).
  { unfold split_re. destruct (toLowerCase (stripMarkup text)) as [|c t] eqn:E.
    - cbn. repeat constructor.
    - rewrite <- E. apply split_spaces.
      + rewrite E. cbn [length]. lia.
      + constructor.
      + unfold toLowerCase. apply Forall_forall. intros d Hd.
        apply in_map_iff in Hd as (d0 & <- & Hd0).
        apply lowercase_domain in Hd0. destruct (lower_kept d0 Hd0) as [S1 S2].
        rewrite S1. exact S2. }
  rewrite Forall_forall in F. specialize (F w Hw).
  rewrite Forall_forall in F. intros c Hc. exact (proj2 (F c Hc)).
Qed.

Lemma token_char_cases (c : char) :
  is_lower c || is_digit c || (c =? APOS)%N = true ->
  is_upper c = false /\ punctuation c = (c =? APOS)%N.
Proof.
  unfold punctuation, is_lower, is_upper, is_digit, is_space, between, APOS.
  intros H.
  destruct (N.eqb_spec c 39) as [E|E]; [rewrite E; split; reflexivity|].
  rewrite orb_false_r in H. apply orb_true_iff in H.
  destruct H as [H|H]; apply andb_true_iff in H as [H1 H2];
    apply N.leb_le in H1, H2.
  - assert (U : (65 <=? c) && (c <=? 90) = false)
      by (apply andb_false_iff; right; apply N.leb_gt; lia).
    rewrite U. split; [reflexivity|].
    assert (L : (97 <=? c) && (c <=? 122) = true)
      by (apply andb_true_iff; split; apply N.leb_le; lia).
    now rewrite L.
  - assert (U : (65 <=? c) && (c <=? 90) = false)
      by (apply andb_false_iff; left; apply N.leb_gt; lia).
    rewrite U. split; [reflexivity|].
    assert (D : (48 <=? c) && (c <=? 57) = true)
      by (apply andb_true_iff; split; apply N.leb_le; lia).
    rewrite D. now rewrite !orb_true_r.
Qed.

(** The claim of C8 as stated fails on a stopword between apostrophes: the
    apostrophe is punctuation the tokenizer keeps, so ['the'] is a token
    that is not in the stopword set, and the word passes the filter. *)
Lemma stopword_in_apostrophes :
  In (str "the") STOPWORDS
  /\ forallb punctuation (str "'") = true
  /\ wordsWithoutStopwords (tokenizeForWordCount (str "'the'"))
     = [str "'the'"]
  /\ wordsWithoutStopwords (tokenizeForWordCount (str "'The' 'A' 'i'"))
     = [str "'the'"; str "'a'"; str "'i'"]
  /\ ~ (forall s pre post,
          In s STOPWORDS ->
          forallb punctuation pre = true -> forallb punctuation post = true ->
          wordsWithoutStopwords (tokenizeForWordCount (pre ++ s ++ post)) = []).
Proof.
  assert (I : In (str "the") STOPWORDS) by (left; reflexivity).
  assert (E : wordsWithoutStopwords (tokenizeForWordCount (str "'the'"))
              = [str "'the'"]) by (vm_compute; reflexivity).
  split; [exact I|]. split; [reflexivity|]. split; [exact E|].
  split; [vm_compute; reflexivity|].
  intros H.
  specialize (H (str "the") (str "'") (str "'") I eq_refl eq_refl).
  change (str "'" ++ str "the" ++ str "'") with (str "'the'") in H.
  rewrite E in H. discriminate H.
Qed.

(** C8, amended.  For every text, filtering its tokens gives an
    order-preserving subsequence of the tokens that holds exactly the tokens
    longer than one character that are not stopwords, each as often as
    among the tokens; so no stopword and no token of length at most 1 is in
    a filtered sequence.  Every token is a non-empty word of lowercase
    letters, digits and apostrophes, so no stopword comes through in
    another case or with other punctuation on it: a filtered token that is
    a stopword with characters around it that are no letters and no digits
    has apostrophes around it, and nothing else. *)
Theorem stopword_filter_exact (text : jsstring) :
  let tokens := tokenizeForWordCount text in
  let kept := wordsWithoutStopwords tokens in
  Subseq kept tokens
  /\ (forall w, In w kept <->
                In w tokens /\ (1 < length w)%nat /\ ~ In w STOPWORDS)
  /\ (forall w, (1 < length w)%nat -> ~ In w STOPWORDS ->
                count_occ jsstring_eq_dec kept w
                = count_occ jsstring_eq_dec tokens w)
  /\ (forall w, In w STOPWORDS -> ~ In w kept)
  /\ (forall w, (length w <= 1)%nat -> ~ In w kept)
  /\ (forall w, In w tokens ->
                w <> []
                /\ forall c, In c w ->
                             is_lower c || is_digit c || (c =? APOS)%N = true)
  /\ (forall w c, In w tokens -> In c w ->
                  is_upper c = false /\ punctuation c = (c =? APOS)%N)
  /\ (forall w s pre post,
        In w kept -> In s STOPWORDS -> w = pre ++ s ++ post ->
        (forall c, In c (pre ++ post) ->
                   is_lower c || is_upper c || is_digit c = false) ->
        pre ++ post <> [] /\ forall c, In c (pre ++ post) -> c = APOS)
  /\ wordsWithoutStopwords
       (tokenizeForWordCount (str "The AND, of; (It) WALK walk. I'm a-ok"))
     = [str "walk"; str "walk"; str "i'm"; str "ok"].
Proof.
  intros tokens kept.
  assert (Hkeep : forall w,
             ((1 <? length w)%nat && negb (Set_has Js.eqb STOPWORDS w) = true)
             <-> ((1 < length w)%nat /\ ~ In w STOPWORDS)).
  { intros w. rewrite andb_true_iff, Nat.ltb_lt, negb_true_iff.
    rewrite <- Set_has_In. destruct (Set_has Js.eqb STOPWORDS w); intuition congruence. }
  assert (Hin : forall w, In w kept <->
                In w tokens /\ (1 < length w)%nat /\ ~ In w STOPWORDS).
  { intros w. unfold kept, wordsWithoutStopwords.
    rewrite filter_In, Hkeep. tauto. }
  assert (Hch : forall w, In w tokens ->
                w <> []
                /\ forall c, In c w ->
                             is_lower c || is_digit c || (c =? APOS)%N = true).
  { intros w Hw. exact (token_chars text w Hw). }
  split; [apply filter_Subseq|].
  split; [exact Hin|].
  split; [|split; [|split; [|split; [exact Hch|split; [|split]]]]].
  - intros w Hl Hs. unfold kept, wordsWithoutStopwords.
    rewrite count_occ_filter.
    destruct (Hkeep w) as [_ ->]; auto.
  - intros w Hs Hk. destruct (proj1 (Hin w) Hk) as (_ & _ & Hn). exact (Hn Hs).
  - intros w Hl Hk. destruct (proj1 (Hin w) Hk) as (_ & Hg & _). lia.
  - intros w c Hw Hc. destruct (Hch w Hw) as [_ H]. specialize (H c Hc).
    apply token_char_cases in H. exact H.
  - intros w s pre post Hk Hs -> Hp.
    destruct (proj1 (Hin _) Hk) as (Ht & _ & Hn).
    destruct (Hch _ Ht) as [_ H]. split.
    + intros X. apply app_eq_nil in X as [-> ->].
      rewrite app_nil_r in Hn. cbn [app] in Hn. exact (Hn Hs).
    + intros c Hc. specialize (Hp c Hc).
      assert (Hc' : In c (pre ++ s ++ post)).
      { apply in_app_or in Hc. apply in_or_app.
        destruct Hc as [Hc|Hc];
          [left; exact Hc | right; apply in_or_app; right; exact Hc]. }
      specialize (H c Hc').
      apply orb_false_iff in Hp as [Hp Hd].
      apply orb_false_iff in Hp as [Hl Hu].
      rewrite Hl, Hd in H. cbn [orb] in H. apply N.eqb_eq in H. exact H.
  - vm_compute. reflexivity.
Qed.

(** ** The sparkline renderer *)

Lemma fold_max_ge (l : list Z) (a : Z) :
  (a <= fold_left Z.max l a)%Z
  /\ forall v, In v l -> (v <= fold_left Z.max l a)%Z.
Proof.
  revert a; induction l as [|x l IH]; intros a; simpl.
  - split; [lia | tauto].
  - destruct (IH (Z.max a x)) as [H1 H2]. split; [lia|].
    intros v [->|Hv]; [lia | auto].
Qed.

Lemma fold_min_le (l : list Z) (a : Z) :
  (fold_left Z.min l a <= a)%Z
  /\ forall v, In v l -> (fold_left Z.min l a <= v)%Z.
Proof.
  revert a; induction l as [|x l IH]; intros a; simpl.
  - split; [lia | tauto].
  - destruct (IH (Z.min a x)) as [H1 H2]. split; [lia|].
    intros v [->|Hv]; [lia | auto].
Qed.

Lemma minOf_le_maxOf (values : list Z) (v : Z) :
  In v values -> (minOf values <= v <= maxOf values)%Z.
Proof.
  destruct values as [|a l]; [intros []|]. simpl.
  destruct (fold_max_ge l a) as [M1 M2], (fold_min_le l a) as [m1 m2].
  intros [->|Hv]; split; auto.
Qed.

Lemma range_positive (values : list Z) : (1 <= range values)%Z.
Proof.
  unfold range. destruct (Z.eqb_spec (maxOf values) (minOf values)) as [E|N]; [lia|].
  destruct values as [|a l]; [simpl in N; congruence|].
  pose proof (minOf_le_maxOf (a :: l) a (or_introl eq_refl)). lia.
Qed.

Lemma xDenominator_positive (values : list Z) : (1 <= xDenominator values)%Z.
Proof. unfold xDenominator. lia. Qed.


(** [x - 0] is [x] for every binary64 number. *)
Lemma sub_zero_r (x : float) : (x - 0)%float = x.
Proof.
  apply Prim2SF_inj. rewrite FloatAxioms.sub_spec.
  change (Prim2SF 0) with (S754_zero false).
  unfold SF64sub, SFsub. destruct (Prim2SF x) as [[]|[]| |s m e]; reflexivity.
Qed.

(** The Y coordinate of a value that is the minimum, over a range of 1. *)
Lemma lowest_point (values : list Z) (W H : Z) (i : nat) (v : Z) :
  range values = 1%Z -> v = minOf values ->
  snd (pointOf values W H i v) = ofZ (H - pad).
Proof.
  intros Hr ->. unfold pointOf. cbn [snd]. rewrite Hr, Z.sub_diag, Z.mul_0_l.
  change (ofZ 0 / ofZ 1)%float with 0%float. apply sub_zero_r.
Qed.

Lemma point_single (v W H : Z) :
  points [v] W H = [(6%float, ofZ (H - pad))].
Proof.
  assert (Hx : fst (pointOf [v] W H 0 v) = 6%float) by reflexivity.
  assert (Hy : snd (pointOf [v] W H 0 v) = ofZ (H - pad)).
  { apply lowest_point; [|reflexivity].
    unfold range. cbn [maxOf minOf fold_left]. now rewrite Z.eqb_refl. }
  unfold points, mapi. cbn [mapi_from].
  now rewrite (surjective_pairing (pointOf [v] W H 0 v)), Hx, Hy.
Qed.

(** C9.  The renderer has no division by zero.  An empty series gives the
    empty string.  A series of one value gives the markup whose path data is
    the single command [M6.00,y]: X is the left padding, 6, and [y] is the
    text of height minus padding; at 280 by 60 the command is
    [M6.00,54.00].  For every series the divisor of X is the number of
    [max(1, n - 1)] and the divisor of Y is the number of the range, which
    is 1 when the minimum equals the maximum; both integers are at least
    1. *)
Theorem sparkline_degenerate_cases :
  (forall W H stroke, renderSparkline [] W H stroke = [])
  /\ (forall v W H stroke,
        renderSparkline [v] W H stroke
        = str "<svg width=" ++ [DQ] ++ number_to_string W ++ [DQ]
          ++ str " height=" ++ [DQ] ++ number_to_string H ++ [DQ]
          ++ str " viewBox=" ++ [DQ] ++ str "0 0 " ++ number_to_string W
          ++ str " " ++ number_to_string H ++ [DQ]
          ++ str " xmlns=" ++ [DQ] ++ str "http://www.w3.org/2000/svg" ++ [DQ]
          ++ str " class=" ++ [DQ] ++ str "sparkline" ++ [DQ] ++ str ">"
          ++ [LF] ++ str "    <path d=" ++ [DQ]
          ++ str "M6.00," ++ toFixed2 (ofZ (H - pad)) ++ [DQ]
          ++ str " fill=" ++ [DQ] ++ str "none" ++ [DQ]
          ++ str " stroke=" ++ [DQ] ++ stroke ++ [DQ]
          ++ str " stroke-width=" ++ [DQ] ++ str "2" ++ [DQ] ++ str " />"
          ++ [LF] ++ str "  </svg>"
        /\ pathCommands [v] W H = [str "M6.00," ++ toFixed2 (ofZ (H - pad))]
        /\ points [v] W H = [(ofZ pad, ofZ (H - pad))])
  /\ (forall v, pathCommands [v] 280 60 = [str "M6.00,54.00"])
  /\ (forall values W H i v,
        pointOf values W H i v
        = (ofZ pad
           + ofZ (Z.of_nat i * (W - 2 * pad))
             / ofZ (Z.max 1 (Z.of_nat (length values) - 1)),
           ofZ (H - pad)
           - ofZ ((v - minOf values) * (H - 2 * pad))
             / ofZ (if (maxOf values =? minOf values)%Z then 1
                    else maxOf values - minOf values))%float
        /\ (1 <= Z.max 1 (Z.of_nat (length values) - 1))%Z
        /\ (1 <= (if (maxOf values =? minOf values)%Z then 1
                  else maxOf values - minOf values))%Z).
Proof.
  assert (Hc : forall v W H,
             pathCommands [v] W H = [str "M6.00," ++ toFixed2 (ofZ (H - pad))]).
  { intros v W H. unfold pathCommands. rewrite point_single.
    unfold mapi; cbn [mapi_from fst snd Nat.eqb].
    change (toFixed2 6) with (str "6.00"). reflexivity. }
  split; [reflexivity|].
  split; [|split; [|]].
  - intros v W H stroke.
    split; [|split; [apply Hc | apply point_single]].
    unfold renderSparkline. rewrite Hc. cbn [join]. unfold svgOf, attr.
    repeat rewrite <- app_assoc. reflexivity.
  - intros v. rewrite Hc. reflexivity.
  - intros values W H i v. split; [reflexivity|].
    split; [apply (xDenominator_positive values) | apply (range_positive values)].
Qed.




(** ** Maps in insertion order *)

Section MapFacts.
Context {K V : Type}.
Variable keq : K -> K -> bool.
Hypothesis keq_spec : forall a b, keq a b = true <-> a = b.

Lemma keq_refl (k : K) : keq k k = true.
Proof. now apply keq_spec. Qed.

Lemma keq_false (a b : K) : a <> b -> keq a b = false.
Proof.
  intros N. destruct (keq a b) eqn:E; [|reflexivity].
  apply keq_spec in E. contradiction.
Qed.

Lemma Map_get_set_same (m : list (K * V)) k v :
  Map_get keq (Map_set keq m k v) k = Some v.
Proof.
  induction m as [|[k' v'] m IH]; simpl.
  - now rewrite keq_refl.
  - destruct (keq k' k) eqn:E; simpl; rewrite E; auto.
Qed.

Lemma Map_get_set_other (m : list (K * V)) k k' v :
  k <> k' -> Map_get keq (Map_set keq m k v) k' = Map_get keq m k'.
Proof.
  intros N. induction m as [|[k0 v0] m IH]; simpl.
  - now rewrite keq_false.
  - destruct (keq k0 k) eqn:E; simpl.
    + apply keq_spec in E. subst k0. now rewrite keq_false.
    + now rewrite IH.
Qed.

Lemma Map_get_None (m : list (K * V)) k :
  Map_get keq m k = None <-> ~ In k (map fst m).
Proof.
  induction m as [|[k' v'] m IH]; simpl; [tauto|].
  destruct (keq k' k) eqn:E.
  - apply keq_spec in E. split; [discriminate | intros H; exfalso; auto].
  - rewrite IH. split; [|tauto].
    intros H [H'|H']; [|auto]. apply keq_spec in H'. congruence.
Qed.

Lemma Map_get_Some_In (m : list (K * V)) k v :
  Map_get keq m k = Some v -> In (k, v) m.
Proof.
  induction m as [|[k' v'] m IH]; simpl; [discriminate|].
  destruct (keq k' k) eqn:E; [|auto].
  apply keq_spec in E. intros [= ->]. subst. auto.
Qed.

Lemma Map_In_get (m : list (K * V)) k v :
  NoDup (map fst m) -> In (k, v) m -> Map_get keq m k = Some v.
Proof.
  induction m as [|[k' v'] m IH]; simpl; [tauto|].
  intros ND [E|H]; inversion ND; subst.
  - inversion E; subst. now rewrite keq_refl.
  - rewrite keq_false; [auto|].
    intros ->. apply (in_map fst) in H. auto.
Qed.

Lemma Map_keys_set (m : list (K * V)) k v :
  map fst (Map_set keq m k v)
  = if Map_has keq m k then map fst m else map fst m ++ [k].
Proof.
  unfold Map_has. induction m as [|[k' v'] m IH]; simpl; [reflexivity|].
  destruct (keq k' k) eqn:E; simpl; [reflexivity|].
  rewrite IH. now destruct (Map_get keq m k).
Qed.

Lemma Map_set_NoDup (m : list (K * V)) k v :
  NoDup (map fst m) -> NoDup (map fst (Map_set keq m k v)).
Proof.
  intros ND. rewrite Map_keys_set. unfold Map_has.
  destruct (Map_get keq m k) eqn:G; [assumption|].
  apply Map_get_None in G.
  apply NoDup_app; [assumption | repeat constructor; simpl; tauto |].
  intros x Hx [<-|[]]. auto.
Qed.

Lemma same_lookups_Permutation (m1 m2 : list (K * V)) :
  NoDup (map fst m1) -> NoDup (map fst m2) ->
  (forall k, Map_get keq m1 k = Map_get keq m2 k) ->
  Permutation m1 m2.
Proof.
  intros N1 N2 H. apply NoDup_Permutation.
  - eapply NoDup_map_inv; eassumption.
  - eapply NoDup_map_inv; eassumption.
  - intros [k v]. split; intros I.
    + apply Map_get_Some_In. rewrite <- H. now apply Map_In_get.
    + apply Map_get_Some_In. rewrite H. now apply Map_In_get.
Qed.

(** A [Map] filled from a list of (key, value) pairs. *)
Lemma Map_of_pairs_get (ps m0 : list (K * V)) k :
  In k (map fst ps) ->
  exists v, In (k, v) ps
            /\ Map_get keq (fold_left (fun m kv => Map_set keq m (fst kv) (snd kv))
                              ps m0) k = Some v.
Proof.
  revert m0. induction ps as [|[k' v'] ps IH] using rev_ind; intros m0; [intros []|].
  rewrite map_app, in_app_iff, fold_left_app. simpl.
  destruct (keq k' k) eqn:E.
  - apply keq_spec in E. subst k'. intros _. exists v'.
    split; [apply in_or_app; simpl; auto | apply Map_get_set_same].
  - intros [H|[H|[]]]; [|apply keq_spec in H; congruence].
    destruct (IH m0 H) as (v & Hv & G). exists v.
    split; [apply in_or_app; auto|].
    rewrite Map_get_set_other; [exact G|].
    intros ->. now rewrite keq_refl in E.
Qed.

End MapFacts.

(** ** Counting into a map *)

Section Accumulate.
Context {A K : Type}.
Variable keq : K -> K -> bool.
Hypothesis keq_spec : forall a b, keq a b = true <-> a = b.
Variables (key : A -> K) (val : A -> Z).

Let step (m : list (K * Z)) (it : A) : list (K * Z) :=
  Map_set keq m (key it) (orZero (Map_get keq m (key it)) + val it)%Z.

Lemma tally_unmentioned (items : list A) (k : K) :
  mentioned keq key items k = false -> tally keq key val items k = 0%Z.
Proof.
  unfold mentioned. induction items as [|it items IH]; simpl; [reflexivity|].
  intros H. apply orb_false_iff in H as [H1 H2]. rewrite H1. auto.
Qed.

Lemma accumulate_get (items : list A) (m0 : list (K * Z)) (k : K) :
  Map_get keq (fold_left step items m0) k
  = if mentioned keq key items k
    then Some (orZero (Map_get keq m0 k) + tally keq key val items k)%Z
    else Map_get keq m0 k.
Proof.
  revert m0. induction items as [|it items IH]; intros m0; simpl; [reflexivity|].
  rewrite IH. unfold mentioned. simpl. fold (mentioned keq key items k).
  destruct (keq (key it) k) eqn:E; simpl.
  - apply keq_spec in E. subst k. unfold step.
    rewrite (Map_get_set_same keq keq_spec). simpl.
    destruct (mentioned keq key items (key it)) eqn:M; f_equal; [lia|].
    rewrite (tally_unmentioned _ _ M). lia.
  - unfold step. rewrite (Map_get_set_other keq keq_spec); [reflexivity|].
    intros H. rewrite H in E. now rewrite (keq_refl keq keq_spec) in E.
Qed.

Lemma accumulate_NoDup (items : list A) (m0 : list (K * Z)) :
  NoDup (map fst m0) -> NoDup (map fst (fold_left step items m0)).
Proof.
  revert m0. induction items as [|it items IH]; intros m0 ND; simpl; [assumption|].
  apply IH. now apply Map_set_NoDup.
Qed.

Lemma tally_Permutation (l1 l2 : list A) (k : K) :
  Permutation l1 l2 -> tally keq key val l1 k = tally keq key val l2 k.
Proof.
  intros P. induction P as [|x l l' P IH|x y l|l l' l'' P1 IH1 P2 IH2]; simpl.
  - reflexivity.
  - now rewrite IH.
  - destruct (keq (key x) k), (keq (key y) k); lia.
  - congruence.
Qed.

Lemma mentioned_Permutation (l1 l2 : list A) (k : K) :
  Permutation l1 l2 -> mentioned keq key l1 k = mentioned keq key l2 k.
Proof.
  unfold mentioned. intros P.
  induction P as [|x l l' P IH|x y l|l l' l'' P1 IH1 P2 IH2]; simpl.
  - reflexivity.
  - now rewrite IH.
  - destruct (keq (key x) k), (keq (key y) k); reflexivity.
  - congruence.
Qed.

(** The map filled by such a loop is the same, up to the order of its
    entries, whatever the order of the items. *)
Lemma accumulate_Permutation (l1 l2 : list A) :
  Permutation l1 l2 ->
  Permutation (fold_left step l1 []) (fold_left step l2 []).
Proof.
  intros P. apply (same_lookups_Permutation keq keq_spec).
  - apply accumulate_NoDup. constructor.
  - apply accumulate_NoDup. constructor.
  - intros k. rewrite !accumulate_get.
    now rewrite (tally_Permutation _ _ k P), (mentioned_Permutation _ _ k P).
Qed.

End Accumulate.

(** ** Sorting *)

Section SortFacts.
Context {A : Type}.
Variable cmp : A -> A -> comparison.

Let le (a b : A) : Prop := cmp a b <> Gt.

Lemma insert_Permutation (x : A) (l : list A) :
  Permutation (insert cmp x l) (x :: l).
Proof.
  induction l as [|y l IH]; simpl; [reflexivity|].
  destruct (cmp x y); try reflexivity.
  rewrite IH. apply perm_swap.
Qed.

Lemma sort_Permutation (l : list A) : Permutation (sort cmp l) l.
Proof.
  induction l as [|x l IH]; simpl; [reflexivity|].
  rewrite insert_Permutation. now constructor.
Qed.

Lemma sort_In (l : list A) (x : A) : In x (sort cmp l) <-> In x l.
Proof.
  split; apply Permutation_in; [|symmetry]; apply sort_Permutation.
Qed.

Hypothesis cmp_trans : forall a b c, le a b -> le b c -> le a c.
Hypothesis cmp_total : forall a b, cmp a b = Gt -> le b a.

Lemma insert_Sorted (x : A) (l : list A) :
  StronglySorted le l -> StronglySorted le (insert cmp x l).
Proof.
  induction l as [|y l IH]; simpl; intros S.
  - repeat constructor.
  - inversion S as [|? ? S' F]; subst.
    destruct (cmp x y) eqn:E.
    + constructor; [assumption|]. constructor.
      * unfold le. congruence.
      * eapply Forall_impl; [|exact F]. intros z Hz.
        apply cmp_trans with y; [unfold le; congruence | assumption].
    + constructor; [assumption|]. constructor.
      * unfold le. congruence.
      * eapply Forall_impl; [|exact F]. intros z Hz.
        apply cmp_trans with y; [unfold le; congruence | assumption].
    + constructor; [auto|].
      apply Forall_forall. intros z Hz.
      apply (Permutation_in _ (insert_Permutation x l)) in Hz.
      destruct Hz as [<-|Hz]; [now apply cmp_total|].
      rewrite Forall_forall in F. auto.
Qed.

Lemma sort_Sorted (l : list A) : StronglySorted le (sort cmp l).
Proof.
  induction l as [|x l IH]; simpl; [constructor | now apply insert_Sorted].
Qed.

(** Two sorted lists with the same elements are equal when no two distinct
    elements are equivalent. *)
Lemma Sorted_Permutation_eq (l1 l2 : list A) :
  StronglySorted le l1 -> StronglySorted le l2 -> Permutation l1 l2 ->
  (forall a b, In a l1 -> In b l1 -> le a b -> le b a -> a = b) ->
  l1 = l2.
Proof.
  revert l2. induction l1 as [|a l1 IH]; intros l2 S1 S2 P anti.
  - apply Permutation_nil in P. now subst.
  - destruct l2 as [|b l2]; [apply Permutation_sym, Permutation_nil in P; discriminate|].
    inversion S1 as [|? ? S1' F1]; inversion S2 as [|? ? S2' F2]; subst.
    rewrite Forall_forall in F1, F2.
    assert (E : a = b).
    { assert (Ib : In b (a :: l1)) by (eapply Permutation_in; [symmetry; exact P | simpl; auto]).
      assert (Ia : In a (b :: l2)) by (eapply Permutation_in; [exact P | simpl; auto]).
      destruct Ib as [Ib|Ib]; [assumption|].
      destruct Ia as [Ia|Ia]; [congruence|].
      apply anti; simpl; auto. }
    subst b. f_equal. apply IH; auto.
    + eapply Permutation_cons_inv; exact P.
    + intros x y Hx Hy. apply anti; simpl; auto.
Qed.

Lemma sort_Permutation_eq (l1 l2 : list A) :
  Permutation l1 l2 ->
  (forall a b, In a l1 -> In b l1 -> le a b -> le b a -> a = b) ->
  sort cmp l1 = sort cmp l2.
Proof.
  intros P anti. apply Sorted_Permutation_eq; try apply sort_Sorted.
  - rewrite !sort_Permutation. exact P.
  - intros a b Ha Hb. apply anti; now apply sort_In.
Qed.

End SortFacts.

Lemma NoDup_keys_inj {K V} (m : list (K * V)) (a b : K * V) :
  NoDup (map fst m) -> In a m -> In b m -> fst a = fst b -> a = b.
Proof.
  induction m as [|c m IH]; simpl; [tauto|].
  intros ND Ha Hb E. inversion ND as [|? ? Hn ND']; subst.
  destruct Ha as [<-|Ha], Hb as [<-|Hb]; auto.
  - exfalso. apply Hn. rewrite E. now apply in_map.
  - exfalso. apply Hn. rewrite <- E. now apply in_map.
Qed.

(** ** The order on month keys *)

Lemma localeCompare_eq (s t : jsstring) : localeCompare s t = Eq -> s = t.
Proof.
  revert t. induction s as [|c s IH]; intros [|d t]; simpl; try discriminate; auto.
  destruct (N.compare_spec c d); try discriminate.
  intros E. subst. f_equal. auto.
Qed.

Lemma localeCompare_flip (s t : jsstring) :
  localeCompare s t = Gt -> localeCompare t s <> Gt.
Proof.
  revert t. induction s as [|c s IH]; intros [|d t]; simpl; try discriminate.
  rewrite (N.compare_antisym c d).
  destruct (N.compare_spec c d); simpl; try discriminate; auto.
Qed.

Lemma localeCompare_antisym (s t : jsstring) :
  localeCompare s t <> Gt -> localeCompare t s <> Gt -> s = t.
Proof.
  revert t. induction s as [|c s IH]; intros [|d t]; simpl; try congruence.
  rewrite (N.compare_antisym c d).
  destruct (N.compare_spec c d); simpl; try congruence.
  intros H1 H2. subst. f_equal. auto.
Qed.

Lemma localeCompare_trans (a b c : jsstring) :
  localeCompare a b <> Gt -> localeCompare b c <> Gt -> localeCompare a c <> Gt.
Proof.
  revert b c. induction a as [|x a IH]; intros [|y b] [|z c]; simpl; try congruence.
  destruct (N.compare_spec x y), (N.compare_spec y z), (N.compare_spec x z);
    subst; try congruence; try lia; eauto.
Qed.

(** ** The aggregator *)

Lemma fold_left_nested {A B C K} (k : A -> K) (f : A -> list B)
      (h : K -> C -> B -> C) (es : list A) (acc : C) :
  fold_left (fun acc e => fold_left (h (k e)) (f e) acc) es acc
  = fold_left (fun acc p => h (fst p) acc (snd p))
      (flat_map (fun e => map (pair (k e)) (f e)) es) acc.
Proof.
  revert acc. induction es as [|e es IH]; intros acc; simpl; [reflexivity|].
  rewrite fold_left_app, IH. f_equal.
  generalize (f e) acc. intros l. induction l as [|b l IHl]; intros a; simpl; auto.
Qed.

(** One step of the loop that fills a word table. *)
Lemma buildWordFrequency_flat (entries : list Entry) :
  buildWordFrequency entries
  = fold_left (fun acc p => countWord (fst p) acc (snd p))
      (yearTokens entries) ([], []).
Proof. apply (fold_left_nested (fun e => year (meta e)) filteredTokens countWord). Qed.

Lemma overall_fold (toks : list (Z * jsstring))
      (acc : WordTable * list (Z * WordTable)) :
  fst (fold_left (fun acc p => countWord (fst p) acc (snd p)) toks acc)
  = fold_left
      (fun o p => Map_set Js.eqb o (snd p) (orZero (Map_get Js.eqb o (snd p)) + 1)%Z)
      toks (fst acc).
Proof.
  revert acc. induction toks as [|p toks IH]; intros [o py]; simpl; [reflexivity|].
  rewrite IH. reflexivity.
Qed.

Lemma countWord_perYear (y0 y : Z) (acc : WordTable * list (Z * WordTable))
      (w : jsstring) :
  Map_get Z.eqb (snd (countWord y0 acc w)) y
  = if Z.eqb y0 y
    then Some (let t := tableOf (Map_get Z.eqb (snd acc) y) in
               Map_set Js.eqb t w (orZero (Map_get Js.eqb t w) + 1)%Z)
    else Map_get Z.eqb (snd acc) y.
Proof.
  destruct acc as [o py]. unfold countWord. cbn [snd].
  destruct (Z.eqb_spec y0 y) as [->|N].
  - rewrite (Map_get_set_same Z.eqb Z.eqb_eq). f_equal.
    unfold Map_has. destruct (Map_get Z.eqb py y) eqn:G.
    + rewrite G. reflexivity.
    + rewrite (Map_get_set_same Z.eqb Z.eqb_eq). reflexivity.
  - rewrite (Map_get_set_other Z.eqb Z.eqb_eq) by assumption.
    unfold Map_has. destruct (Map_get Z.eqb py y0); [reflexivity|].
    now rewrite (Map_get_set_other Z.eqb Z.eqb_eq).
Qed.

Lemma filter_unmentioned {A K} (keq : K -> K -> bool) (key : A -> K)
      (items : list A) (k : K) :
  mentioned keq key items k = false ->
  filter (fun it => keq (key it) k) items = [].
Proof.
  unfold mentioned. induction items as [|it items IH]; simpl; [reflexivity|].
  intros H. apply orb_false_iff in H as [H1 H2]. rewrite H1. auto.
Qed.

(** The table of a year is filled by the tokens of that year, in order. *)
Lemma perYear_fold (toks : list (Z * jsstring))
      (acc : WordTable * list (Z * WordTable)) (y : Z) :
  Map_get Z.eqb
    (snd (fold_left (fun acc p => countWord (fst p) acc (snd p)) toks acc)) y
  = if mentioned Z.eqb fst toks y
    then Some (fold_left
                 (fun t p => Map_set Js.eqb t (snd p)
                               (orZero (Map_get Js.eqb t (snd p)) + 1)%Z)
                 (filter (fun p => Z.eqb (fst p) y) toks)
                 (tableOf (Map_get Z.eqb (snd acc) y)))
    else Map_get Z.eqb (snd acc) y.
Proof.
  revert acc. induction toks as [|[y0 w] toks IH]; intros acc; [reflexivity|].
  cbn [fold_left fst snd]. rewrite IH, countWord_perYear.
  unfold mentioned. cbn [existsb filter fst snd].
  fold (mentioned Z.eqb (@fst Z jsstring) toks y).
  destruct (Z.eqb y0 y); cbn [orb fold_left tableOf snd];
    destruct (mentioned Z.eqb fst toks y) eqn:M; try reflexivity.
  now rewrite (filter_unmentioned Z.eqb fst toks y M).
Qed.

Lemma yearTokens_Permutation (es es' : list Entry) :
  Permutation es es' -> Permutation (yearTokens es) (yearTokens es').
Proof. apply Permutation_flat_map. Qed.

Lemma filter_Permutation {A} (f : A -> bool) (l l' : list A) :
  Permutation l l' -> Permutation (filter f l) (filter f l').
Proof.
  intros P. induction P as [|x l l' P IH|x y l|l l' l'' P1 IH1 P2 IH2]; simpl.
  - constructor.
  - destruct (f x); [now constructor | assumption].
  - destruct (f x), (f y); try reflexivity. apply perm_swap.
  - now transitivity (filter f l').
Qed.

(** A word table filled by the same tokens in another order. *)
Lemma wordTable_Permutation (toks toks' : list (Z * jsstring)) :
  Permutation toks toks' ->
  SameTable
    (fold_left (fun t p => Map_set Js.eqb t (snd p)
                             (orZero (Map_get Js.eqb t (snd p)) + 1)%Z) toks [])
    (fold_left (fun t p => Map_set Js.eqb t (snd p)
                             (orZero (Map_get Js.eqb t (snd p)) + 1)%Z) toks' []).
Proof.
  intros P. split.
  - apply (accumulate_Permutation Js.eqb jseqb_eq snd (fun _ => 1%Z) _ _ P).
  - intros w.
    rewrite !(accumulate_get Js.eqb jseqb_eq snd (fun _ => 1%Z)).
    now rewrite (tally_Permutation Js.eqb snd (fun _ => 1%Z) _ _ w P),
      (mentioned_Permutation Js.eqb snd _ _ w P).
Qed.

Lemma year_order_trans (a b c : Z * Z) :
  sgn (fst a - fst b) <> Gt -> sgn (fst b - fst c) <> Gt ->
  sgn (fst a - fst c) <> Gt.
Proof. unfold sgn. rewrite !Z.compare_gt_iff. lia. Qed.

Lemma year_order_total (a b : Z * Z) :
  sgn (fst a - fst b) = Gt -> sgn (fst b - fst a) <> Gt.
Proof. unfold sgn. rewrite !Z.compare_gt_iff. lia. Qed.

Lemma year_order_antisym (a b : Z * Z) :
  sgn (fst a - fst b) <> Gt -> sgn (fst b - fst a) <> Gt -> fst a = fst b.
Proof. unfold sgn. rewrite !Z.compare_gt_iff. lia. Qed.

(** C6.  Passing the entries in another order changes neither the sequence
    of per-year totals nor the sequence of per-month totals, and the overall
    word table and each year's word table keep the same entries (the same
    words with the same counts, and the same years); only the insertion
    order inside a [Map], which is no part of a table, follows the order of
    the entries. *)
Theorem aggregation_order_independent (entries entries' : list Entry) :
  Permutation entries entries' ->
  aggregateCountsByYear (getWordCountsPerEntry entries')
  = aggregateCountsByYear (getWordCountsPerEntry entries)
  /\ perMonth entries' = perMonth entries
  /\ SameTable (fst (buildWordFrequency entries'))
               (fst (buildWordFrequency entries))
  /\ SameTables (snd (buildWordFrequency entries'))
                (snd (buildWordFrequency entries)).
Proof.
  intros P. apply Permutation_sym in P.
  split; [|split; [|split]].
  - unfold aggregateCountsByYear.
    assert (Pm : Permutation (countsByYearMap (getWordCountsPerEntry entries'))
                             (countsByYearMap (getWordCountsPerEntry entries))).
    { apply (accumulate_Permutation Z.eqb Z.eqb_eq wc_year wc_count).
      unfold getWordCountsPerEntry. now apply Permutation_map. }
    apply (sort_Permutation_eq _ year_order_trans year_order_total _ _ Pm).
    intros a b Ha Hb L1 L2.
    apply (NoDup_keys_inj (countsByYearMap (getWordCountsPerEntry entries'))); auto.
    + apply (accumulate_NoDup Z.eqb Z.eqb_eq wc_year wc_count). constructor.
    + now apply year_order_antisym.
  - unfold perMonth.
    assert (Pm : Permutation (perMonthMap entries') (perMonthMap entries)).
    { apply (accumulate_Permutation Js.eqb jseqb_eq monthKey
               (fun e => Z.of_nat (length (filteredTokens e))) _ _ P). }
    apply (sort_Permutation_eq _
             (fun a b c => localeCompare_trans (fst a) (fst b) (fst c))
             (fun a b => localeCompare_flip (fst a) (fst b)) _ _ Pm).
    intros a b Ha Hb L1 L2.
    apply (NoDup_keys_inj (perMonthMap entries')); auto.
    + apply (accumulate_NoDup Js.eqb jseqb_eq monthKey
               (fun e => Z.of_nat (length (filteredTokens e)))). constructor.
    + now apply localeCompare_antisym.
  - rewrite !buildWordFrequency_flat, !overall_fold. cbn [fst].
    apply wordTable_Permutation. now apply yearTokens_Permutation.
  - intros y. rewrite !buildWordFrequency_flat, !perYear_fold. cbn [snd Map_get tableOf].
    rewrite (mentioned_Permutation Z.eqb fst _ _ y (yearTokens_Permutation _ _ P)).
    destruct (mentioned Z.eqb fst (yearTokens entries) y); [|exact I].
    apply wordTable_Permutation, filter_Permutation.
    now apply yearTokens_Permutation.
Qed.

Lemma aggregation_order_independent_witness :
  aggregateCountsByYear (getWordCountsPerEntry (rev firstMonthOnly))
  = aggregateCountsByYear (getWordCountsPerEntry firstMonthOnly)
  /\ perMonth (rev firstMonthOnly) = perMonth firstMonthOnly
  /\ SameTable (fst (buildWordFrequency (rev firstMonthOnly)))
               (fst (buildWordFrequency firstMonthOnly))
  /\ SameTables (snd (buildWordFrequency (rev firstMonthOnly)))
                (snd (buildWordFrequency firstMonthOnly)).
Proof.
  apply (aggregation_order_independent firstMonthOnly (rev firstMonthOnly)).
  unfold firstMonthOnly. simpl. apply perm_swap.
Defined.

(** ** The per-word-per-month matrix *)

Lemma sum_from (l : list Z) (a : Z) : fold_left Z.add l a = (a + sum l)%Z.
Proof.
  unfold sum. revert a. induction l as [|x l IH]; intros a; simpl; [lia|].
  rewrite IH, (IH x). lia.
Qed.

Lemma sum_cons (x : Z) (l : list Z) : sum (x :: l) = (x + sum l)%Z.
Proof. unfold sum at 1. simpl. apply sum_from. Qed.

Lemma sum_app (l1 l2 : list Z) : sum (l1 ++ l2) = (sum l1 + sum l2)%Z.
Proof.
  induction l1 as [|x l1 IH]; simpl; [reflexivity|].
  rewrite !sum_cons, IH. lia.
Qed.

Lemma sum_repeat_zero (n : nat) : sum (repeat 0%Z n) = 0%Z.
Proof. induction n as [|n IH]; simpl; [reflexivity|]. now rewrite sum_cons, IH. Qed.

Lemma nth_split_at (a : list Z) (i : nat) :
  (i < length a)%nat -> a = firstn i a ++ nth i a 0%Z :: skipn (S i) a.
Proof.
  revert i. induction a as [|x a IH]; intros [|i]; simpl; intros H; try lia.
  - reflexivity.
  - f_equal. apply IH. lia.
Qed.

Lemma incrAt_length (i : option nat) (a : list Z) :
  length (incrAt i a) = length a.
Proof.
  destruct i as [i|]; simpl; [|reflexivity].
  destruct (Nat.ltb_spec i (length a)) as [H|H]; [|reflexivity].
  rewrite (nth_split_at a i H) at 4.
  rewrite !length_app. reflexivity.
Qed.

Lemma incrAt_sum (i : nat) (a : list Z) :
  (i < length a)%nat -> sum (incrAt (Some i) a) = (sum a + 1)%Z.
Proof.
  intros H. unfold incrAt.
  destruct (Nat.ltb_spec i (length a)) as [_|H']; [|lia].
  rewrite (nth_split_at a i H) at 4.
  rewrite !sum_app, !sum_cons. lia.
Qed.

Lemma Set_from_In (a s : list jsstring) (x : jsstring) :
  In x (fold_left (Set_add Js.eqb) a s) <-> In x s \/ In x a.
Proof.
  revert s. induction a as [|k a IH]; intros s; simpl; [tauto|].
  rewrite IH. unfold Set_add.
  destruct (Set_has Js.eqb s k) eqn:E.
  - apply Set_has_In in E. split; [tauto|].
    intros [H|[<-|H]]; auto.
  - rewrite in_app_iff. simpl. tauto.
Qed.

Lemma monthKey_in_monthlyOrder (entries : list Entry) (e : Entry) :
  In e entries -> In (monthKey e) (monthlyOrder entries).
Proof.
  intros H. unfold monthlyOrder. apply sort_In.
  unfold Set_from. apply Set_from_In. right. now apply in_map.
Qed.

Lemma mapi_from_keys {A} (l : list A) (i : nat) :
  map fst (mapi_from (fun i k => (k, i)) i l) = l.
Proof.
  revert i. induction l as [|x l IH]; intros i; simpl; [reflexivity|].
  now rewrite IH.
Qed.

Lemma mapi_from_index {A} (l : list A) (i j : nat) (k : A) :
  In (k, j) (mapi_from (fun i k => (k, i)) i l) -> (j < i + length l)%nat.
Proof.
  revert i. induction l as [|x l IH]; intros i; simpl; [tauto|].
  intros [E|H]; [inversion E; lia|]. apply IH in H. lia.
Qed.

(** The index the loop reads for the month of an entry is always there and
    always inside the series. *)
Lemma monthIndex_in_range (entries : list Entry) (e : Entry) :
  In e entries ->
  exists i, Map_get Js.eqb (monthIndex entries) (monthKey e) = Some i
            /\ (i < length (monthlyOrder entries))%nat.
Proof.
  intros H. unfold monthIndex, mapi.
  destruct (Map_of_pairs_get Js.eqb jseqb_eq
              (mapi_from (fun i k => (k, i)) 0 (monthlyOrder entries)) []
              (monthKey e)) as (i & Hi & G).
  - rewrite mapi_from_keys. now apply monthKey_in_monthlyOrder.
  - exists i. split; [exact G|]. now apply mapi_from_index in Hi.
Qed.

Lemma perWordMonthCountsOf_flat (entries part : list Entry) :
  perWordMonthCountsOf entries part
  = fold_left (fun m p => countWordMonth entries (fst p) m (snd p))
      (monthTokens part) [].
Proof. apply (fold_left_nested monthKey filteredTokens (countWordMonth entries)). Qed.

Lemma countWordMonth_get (entries : list Entry) (ym : jsstring)
      (m : WordMonths) (w w' : jsstring) :
  Map_get Js.eqb (countWordMonth entries ym m w) w'
  = if Js.eqb w w'
    then Some (incrAt (Map_get Js.eqb (monthIndex entries) ym)
                 (seriesOf (length (monthlyOrder entries)) (Map_get Js.eqb m w)))
    else Map_get Js.eqb m w'.
Proof.
  unfold countWordMonth, Map_has.
  destruct (Map_get Js.eqb m w) as [a|] eqn:G.
  - rewrite G. destruct (Js.eqb w w') eqn:E.
    + apply jseqb_eq in E. subst w'. apply (Map_get_set_same Js.eqb jseqb_eq).
    + apply jseqb_neq in E. now apply (Map_get_set_other Js.eqb jseqb_eq).
  - rewrite (Map_get_set_same Js.eqb jseqb_eq).
    destruct (Js.eqb w w') eqn:E.
    + apply jseqb_eq in E. subst w'. apply (Map_get_set_same Js.eqb jseqb_eq).
    + apply jseqb_neq in E.
      now rewrite !(Map_get_set_other Js.eqb jseqb_eq) by assumption.
Qed.

Lemma countWordMonth_NoDup (entries : list Entry) (ym : jsstring)
      (m : WordMonths) (w : jsstring) :
  NoDup (map fst m) -> NoDup (map fst (countWordMonth entries ym m w)).
Proof.
  intros ND. unfold countWordMonth.
  set (m1 := if Map_has Js.eqb m w then m else _).
  assert (ND1 : NoDup (map fst m1)).
  { unfold m1. destruct (Map_has Js.eqb m w); [assumption|].
    now apply (Map_set_NoDup Js.eqb jseqb_eq). }
  destruct (Map_get Js.eqb m1 w); [|assumption].
  now apply (Map_set_NoDup Js.eqb jseqb_eq).
Qed.

Lemma seriesOf_length (n : nat) (m : WordMonths) (w : jsstring) :
  (forall arr, Map_get Js.eqb m w = Some arr -> length arr = n) ->
  length (seriesOf n (Map_get Js.eqb m w)) = n.
Proof.
  intros H. destruct (Map_get Js.eqb m w); simpl; [auto | apply repeat_length].
Qed.

(** What the loop that fills the matrix keeps true, from any matrix [m]
    whose series have the length of the Month Index. *)
Lemma matrix_fold (entries : list Entry) (toks : list (jsstring * jsstring))
      (m : WordMonths) :
  let n := length (monthlyOrder entries) in
  let m' := fold_left (fun m p => countWordMonth entries (fst p) m (snd p))
              toks m in
  (forall p, In p toks ->
             exists i, Map_get Js.eqb (monthIndex entries) (fst p) = Some i
                       /\ (i < n)%nat) ->
  NoDup (map fst m) ->
  (forall w arr, Map_get Js.eqb m w = Some arr -> length arr = n) ->
  NoDup (map fst m')
  /\ (forall w arr,
        Map_get Js.eqb m' w = Some arr ->
        length arr = n
        /\ sum arr = (sum (seriesOf n (Map_get Js.eqb m w))
                      + tally Js.eqb snd (fun _ => 1) toks w)%Z
        /\ (mentioned Js.eqb snd toks w = true \/ Map_get Js.eqb m w <> None)).
Proof.
  intros n. revert m. induction toks as [|[ym w0] toks IH]; intros m m' Hr ND Hl.
  - subst m'. simpl. split; [assumption|]. intros w arr G.
    rewrite G. simpl. split; [eauto|]. split; [lia|]. right. discriminate.
  - subst m'. cbn [fold_left fst snd].
    destruct (Hr (ym, w0) (or_introl eq_refl)) as (i & Gi & Li). cbn [fst] in Gi.
    set (m1 := countWordMonth entries ym m w0).
    assert (Hl1 : forall w arr, Map_get Js.eqb m1 w = Some arr -> length arr = n).
    { intros w arr. unfold m1. rewrite countWordMonth_get.
      destruct (Js.eqb w0 w); [|apply Hl].
      intros [= <-]. rewrite incrAt_length. apply seriesOf_length, Hl. }
    destruct (IH m1) as [ND' H'];
      [intros p Hp; apply Hr; now right
      | now apply countWordMonth_NoDup | exact Hl1 |].
    split; [exact ND'|].
    intros w arr G. destruct (H' w arr G) as (L1 & S1 & M1).
    split; [exact L1|].
    unfold m1 in S1, M1. rewrite countWordMonth_get in S1, M1.
    unfold mentioned. cbn [tally existsb snd].
    fold (mentioned Js.eqb (@snd jsstring jsstring) toks w).
    destruct (Js.eqb w0 w) eqn:E.
    + apply jseqb_eq in E. subst w0. split; [|left; reflexivity].
      rewrite S1, Gi. cbn [seriesOf].
      rewrite incrAt_sum; [subst n; lia|].
      rewrite seriesOf_length; [exact Li | apply Hl].
    + split; [exact S1|]. simpl. exact M1.
Qed.

Lemma tally_by_key {A K} (keq : K -> K -> bool) (key : A -> K)
      (items : list A) (k : K) :
  tally keq key (fun _ => 1%Z) items k
  = tally keq (fun x => x) (fun _ => 1%Z) (map key items) k
  /\ mentioned keq key items k = mentioned keq (fun x => x) (map key items) k.
Proof.
  unfold mentioned. induction items as [|it items [IH1 IH2]]; simpl; [auto|].
  rewrite IH1, IH2. auto.
Qed.

Lemma map_snd_pairs {A B K} (k : A -> K) (f : A -> list B) (es : list A) :
  map snd (flat_map (fun e => map (pair (k e)) (f e)) es) = flat_map f es.
Proof.
  induction es as [|e es IH]; simpl; [reflexivity|].
  rewrite map_app, IH, map_map. simpl. now rewrite map_id.
Qed.

Lemma tokens_by_month_or_year (entries : list Entry) (w : jsstring) :
  tally Js.eqb snd (fun _ => 1%Z) (monthTokens entries) w
  = tally Js.eqb snd (fun _ => 1%Z) (yearTokens entries) w
  /\ mentioned Js.eqb snd (monthTokens entries) w
     = mentioned Js.eqb snd (yearTokens entries) w.
Proof.
  destruct (tally_by_key Js.eqb snd (monthTokens entries) w) as [T1 M1].
  destruct (tally_by_key Js.eqb snd (yearTokens entries) w) as [T2 M2].
  rewrite T1, T2, M1, M2. unfold monthTokens, yearTokens.
  rewrite !map_snd_pairs. auto.
Qed.

Lemma monthTokens_in_range (entries : list Entry) (p : jsstring * jsstring) :
  In p (monthTokens entries) ->
  exists i, Map_get Js.eqb (monthIndex entries) (fst p) = Some i
            /\ (i < length (monthlyOrder entries))%nat.
Proof.
  unfold monthTokens. rewrite in_flat_map.
  intros (e & He & Hp). apply in_map_iff in Hp as (w & <- & _).
  now apply monthIndex_in_range.
Qed.

(** C7.  Every word of the per-word-per-month matrix has a series as long
    as the Month Index, and the sum of the series is the count of the word
    in the overall frequency table. *)
Theorem alignment_invariant (entries : list Entry) (w : jsstring)
        (arr : list Z) :
  Map_get Js.eqb (perWordMonthCounts entries) w = Some arr ->
  length arr = length (monthlyOrder entries)
  /\ Map_get Js.eqb (fst (buildWordFrequency entries)) w = Some (sum arr).
Proof.
  unfold perWordMonthCounts. rewrite perWordMonthCountsOf_flat. intros G.
  destruct (matrix_fold entries (monthTokens entries) []) as [_ H];
    [apply monthTokens_in_range | constructor | discriminate |].
  destruct (H w arr G) as (L & S & M). split; [exact L|].
  rewrite buildWordFrequency_flat, overall_fold. cbn [fst].
  rewrite (accumulate_get Js.eqb jseqb_eq snd (fun _ => 1%Z)).
  destruct (tokens_by_month_or_year entries w) as [T Me].
  rewrite <- Me, <- T.
  destruct M as [M|M]; [|now elim M].
  rewrite M. simpl in S. rewrite sum_repeat_zero in S.
  simpl. f_equal. lia.
Qed.

Lemma alignment_invariant_witness :
  length [10; 0]%Z = length (monthlyOrder firstMonthOnly)
  /\ Map_get Js.eqb (fst (buildWordFrequency firstMonthOnly)) (str "focus")
     = Some (sum [10; 0]%Z).
Proof.
  apply (alignment_invariant firstMonthOnly (str "focus") [10; 0]%Z).
  vm_compute. reflexivity.
Defined.

(** ** The trend ranker *)

Lemma perWordMonthCounts_NoDup (entries : list Entry) :
  NoDup (map fst (perWordMonthCounts entries)).
Proof.
  unfold perWordMonthCounts. rewrite perWordMonthCountsOf_flat.
  apply (matrix_fold entries (monthTokens entries) []);
    [apply monthTokens_in_range | constructor | discriminate].
Qed.

Lemma wordsGte10_In (entries : list Entry) (w : jsstring) (s : list Z) :
  In (w, s) (wordsGte10 entries)
  <-> exists arr, Map_get Js.eqb (perWordMonthCounts entries) w = Some arr
                  /\ (10 <= sum arr)%Z /\ s = sliceFrom 1 arr.
Proof.
  unfold wordsGte10, wordsGte10Unsorted. rewrite sort_In, in_map_iff. split.
  - intros ([w' arr] & E & H). apply filter_In in H as [H1 H2].
    cbn [fst snd] in *. inversion E; subst. exists arr.
    split; [|split; [lia | reflexivity]].
    apply (Map_In_get Js.eqb jseqb_eq); [apply perWordMonthCounts_NoDup | exact H1].
  - intros (arr & G & H & ->). exists (w, arr). split; [reflexivity|].
    apply filter_In. split; [now apply (Map_get_Some_In Js.eqb jseqb_eq)|].
    cbn [snd]. lia.
Qed.

Lemma hotOf_word (entries : list Entry) (ws : jsstring * list Z) :
  word (hotOf entries ws) = fst ws /\ series (hotOf entries ws) = snd ws.
Proof. destruct ws. split; reflexivity. Qed.

(** The claim of C1 as stated fails on two months with a word that occurs
    ten times in the first month only: the word is a candidate, and its
    occurrences after the first month are 0. *)
Lemma gate_counts_the_first_month :
  Map_get Js.eqb (perWordMonthCounts firstMonthOnly) (str "focus")
  = Some [10; 0]%Z
  /\ ~ (In (str "focus") (map fst (wordsGte10 firstMonthOnly))
        <-> (10 <= sum (sliceFrom 1 [10; 0]))%Z).
Proof.
  split; [vm_compute; reflexivity|].
  intros [H _].
  assert (I : In (str "focus") (map fst (wordsGte10 firstMonthOnly))).
  { vm_compute. left. reflexivity. }
  apply H in I. vm_compute in I. apply I. reflexivity.
Qed.

(** C1, amended.  A word of the per-word-per-month matrix is a candidate of
    the spiky ranking and of the hottest ranking if and only if its
    occurrences summed over all months of the Month Index, the first month
    included, are at least 10; the first month is dropped from the series
    of a candidate after that. *)
Theorem occurrence_gate (entries : list Entry) (w : jsstring) (arr : list Z) :
  Map_get Js.eqb (perWordMonthCounts entries) w = Some arr ->
  (In w (map fst (wordsGte10 entries)) <-> (10 <= sum arr)%Z)
  /\ (In w (map word (map (hotOf entries) (wordsGte10 entries)))
      <-> (10 <= sum arr)%Z)
  /\ ((10 <= sum arr)%Z -> In (w, sliceFrom 1 arr) (wordsGte10 entries)).
Proof.
  intros G.
  assert (H1 : In w (map fst (wordsGte10 entries)) <-> (10 <= sum arr)%Z).
  { rewrite in_map_iff. split.
    - intros ([w' s] & E & H). cbn [fst] in E. subst w'.
      apply wordsGte10_In in H as (arr' & G' & H & _). congruence.
    - intros H. exists (w, sliceFrom 1 arr). split; [reflexivity|].
      apply wordsGte10_In. exists arr. auto. }
  split; [exact H1|]. split.
  - rewrite map_map, <- H1.
    rewrite (map_ext (fun x => word (hotOf entries x)) fst); [reflexivity|].
    intros x. apply hotOf_word.
  - intros H. apply wordsGte10_In. exists arr. auto.
Qed.

Lemma occurrence_gate_witness :
  (In (str "focus") (map fst (wordsGte10 firstMonthOnly))
   <-> (10 <= sum [10; 0])%Z)
  /\ (In (str "focus")
         (map word (map (hotOf firstMonthOnly) (wordsGte10 firstMonthOnly)))
      <-> (10 <= sum [10; 0])%Z)
  /\ ((10 <= sum [10; 0])%Z ->
      In (str "focus", sliceFrom 1 [10; 0]%Z) (wordsGte10 firstMonthOnly)).
Proof.
  apply (occurrence_gate firstMonthOnly (str "focus") [10; 0]%Z).
  vm_compute. reflexivity.
Defined.

Lemma slice_as_firstn_skipn {A} (from to : Z) (l : list A) :
  (0 <= from <= to)%Z -> (to <= Z.of_nat (length l))%Z ->
  slice from to l
  = firstn (Z.to_nat to - Z.to_nat from) (skipn (Z.to_nat from) l).
Proof.
  intros H1 H2. unfold slice, relIndex.
  destruct (Z.ltb_spec from 0), (Z.ltb_spec to 0); try lia.
  rewrite !Z.min_l by lia. f_equal. lia.
Qed.

Lemma slice_prefix {A} (n : Z) (l : list A) :
  (0 <= n)%Z -> slice 0 n l = firstn (Z.to_nat n) l.
Proof.
  intros H. unfold slice, relIndex.
  destruct (Z.ltb_spec n 0); [lia|]. simpl Z.ltb. cbv iota.
  rewrite (Z.min_l 0) by lia. simpl skipn. rewrite Z.sub_0_r.
  destruct (Z.le_ge_cases n (Z.of_nat (length l))) as [L|L].
  - now rewrite Z.min_l.
  - rewrite Z.min_r by assumption. rewrite Nat2Z.id.
    rewrite !firstn_all2; [reflexivity | lia | lia].
Qed.

Lemma sliceFrom_lastN {A} (n : Z) (l : list A) :
  (0 <= n)%Z ->
  sliceFrom (Z.max 0 (Z.of_nat (length l) - n)) l = lastN n l.
Proof.
  intros H. unfold sliceFrom, lastN.
  rewrite slice_as_firstn_skipn by lia.
  rewrite firstn_all2 by (rewrite length_skipn; lia).
  f_equal. lia.
Qed.

Lemma slice_previous_window {A} (n : Z) (l : list A) :
  (0 <= n)%Z ->
  slice (Z.max 0 (Z.of_nat (length l) - 2 * n))
        (Z.max 0 (Z.of_nat (length l) - n)) l
  = lastN n (dropLastN n l).
Proof.
  intros H. unfold lastN, dropLastN.
  rewrite slice_as_firstn_skipn by lia.
  rewrite skipn_firstn_comm, length_firstn.
  f_equal; [lia | f_equal; lia].
Qed.


Lemma windowN_bounds (entries : list Entry) : (1 <= windowN entries <= 3)%Z.
Proof.
  unfold windowN, orElse.
  destruct (Z.eqb_spec (Z.max 1 (Z.shiftr (toInt32 (Z.of_nat (length (monthlyOrder entries)))) 3)) 0);
    lia.
Qed.

Lemma havePrev_spec (entries : list Entry) :
  havePrev entries
  = (2 * windowN entries <=? Z.of_nat (length (monthlyOrder entries)))%Z.
Proof.
  unfold havePrev, prevStart, end_.
  pose proof (windowN_bounds entries) as B.
  set (m := Z.of_nat (length (monthlyOrder entries))) in *.
  assert (0 <= m)%Z by (unfold m; lia).
  destruct (Z.leb_spec (2 * windowN entries) m), (Z.geb_spec (m - Z.max 0 (m - 2 * windowN entries)) (2 * windowN entries));
    try reflexivity; lia.
Qed.

Lemma sliceFrom_1 {A} (l : list A) : sliceFrom 1 l = tl l.
Proof.
  unfold sliceFrom. destruct l as [|x l]; [reflexivity|].
  rewrite slice_as_firstn_skipn by (cbn [length]; lia).
  change (Z.to_nat 1) with 1%nat. cbn [skipn tl].
  apply firstn_all2. cbn [length]. lia.
Qed.

Lemma hotOf_fields (entries : list Entry) (ws : jsstring * list Z) :
  let h := hotOf entries ws in
  let n := windowN entries in
  recent h = sum (lastN n (series h))
  /\ prev h = (if (2 * n <=? Z.of_nat (length (monthlyOrder entries)))%Z
               then sum (lastN n (dropLastN n (series h))) else 0%Z)
  /\ delta h = (recent h - prev h)%Z.
Proof.
  destruct ws as [w s]. cbn zeta. unfold hotOf. cbn [recent prev delta series].
  pose proof (windowN_bounds entries) as B.
  rewrite sliceFrom_lastN, slice_previous_window, havePrev_spec by lia.
  auto.
Qed.


Lemma StronglySorted_weaken {A} (R R' : A -> A -> Prop) (l : list A) :
  (forall a b, R a b -> R' a b) -> StronglySorted R l -> StronglySorted R' l.
Proof.
  intros HR S. induction S as [|a l S IH F]; constructor; [assumption|].
  eapply Forall_impl; [|exact F]. auto.
Qed.







(* ================================================================== *)
(** * The normalizer applied twice *)
(* ================================================================== *)

(** ** Matching in a line with white space put around it *)

Lemma space_not_word (c : char) : is_space c = true -> is_word c = false.
Proof.
  unfold is_space, is_word, is_upper, is_lower, is_digit, between.
  intros H. apply not_true_is_false. intros W.
  repeat rewrite ?orb_true_iff, ?andb_true_iff, ?N.leb_le, ?N.eqb_eq in H.
  repeat rewrite ?orb_true_iff, ?andb_true_iff, ?N.leb_le, ?N.eqb_eq in W.
  lia.
Qed.

Section Padding.
Variable icase : bool.
Variable v : jsstring.
Hypothesis Hv : forallb is_space v = true.

Lemma hd_padding (s : jsstring) :
  is_word_opt (hd_error (s ++ v)) = is_word_opt (hd_error s).
Proof using Hv.
  destruct s as [|c t]; [|reflexivity]. cbn [app hd_error is_word_opt].
  destruct v as [|w v']; [reflexivity|]. cbn [forallb] in Hv.
  apply andb_true_iff in Hv as [Hw _]. cbn [hd_error is_word_opt].
  now apply space_not_word.
Qed.

Lemma at_boundary_padded (p p' : pos) :
  padded v p p' -> at_boundary p' = at_boundary p.
Proof using Hv.
  intros [Hr Hb]. unfold at_boundary. rewrite Hr, hd_padding.
  destruct Hb as [->|[E W]]; [reflexivity|]. now rewrite E, W.
Qed.

Lemma run_lit_padded (s : jsstring) (p p' q : pos) :
  padded v p p' -> run_lit icase s p = Some q ->
  exists q', run_lit icase s p' = Some q' /\ padded v q q'.
Proof.
  revert p p'; induction s as [|c s IH]; intros p p' Hp H.
  - cbn [run_lit] in *. injection H as <-. now exists p'.
  - cbn [run_lit] in *. destruct Hp as [Hr Hb]. rewrite Hr.
    destruct (rest p) as [|d t]; [discriminate|]. cbn [app].
    destruct (same icase c d); [|discriminate].
    apply (IH (mkpos (Some d) t) (mkpos (Some d) (t ++ v))); [|exact H].
    split; [reflexivity | now left].
Qed.

Lemma run_star_fallback (cls : char -> bool) (k : pos -> option pos)
      (b : option char) (s : jsstring) :
  k (mkpos b s) <> None -> run_star cls k b s <> None.
Proof.
  intros H. destruct s as [|c t]; [exact H|]. cbn [run_star].
  destruct (cls c); [|exact H].
  destruct (run_star cls k (Some c) t); [discriminate | exact H].
Qed.

Lemma run_star_padded (cls : char -> bool) (k k' : pos -> option pos) :
  (forall q q', padded v q q' -> k q <> None -> k' q' <> None) ->
  forall s b b',
    (b' = b \/ (b = None /\ is_word_opt b' = false)) ->
    run_star cls k b s <> None -> run_star cls k' b' (s ++ v) <> None.
Proof.
  intros Hk. induction s as [|c t IH]; intros b b' Hb H.
  - cbn [run_star] in H. cbn [app]. apply run_star_fallback.
    apply (Hk (mkpos b []) (mkpos b' v)); [|exact H]. split; [reflexivity|exact Hb].
  - cbn [run_star app] in *.
    assert (F : k (mkpos b (c :: t)) <> None ->
                k' (mkpos b' (c :: t ++ v)) <> None).
    { apply Hk. split; [reflexivity | exact Hb]. }
    destruct (cls c); [|exact (F H)].
    destruct (run_star cls k (Some c) t) eqn:E.
    + assert (N : run_star cls k' (Some c) (t ++ v) <> None).
      { apply (IH (Some c) (Some c)); [now left|]. rewrite E. discriminate. }
      destruct (run_star cls k' (Some c) (t ++ v)); [discriminate | congruence].
    + destruct (run_star cls k' (Some c) (t ++ v)); [discriminate | exact (F H)].
Qed.

Lemma run_star_lazy_padded (cls : char -> bool) (k k' : pos -> option pos) :
  (forall q q', padded v q q' -> k q <> None -> k' q' <> None) ->
  forall s b b',
    (b' = b \/ (b = None /\ is_word_opt b' = false)) ->
    run_star_lazy cls k b s <> None ->
    run_star_lazy cls k' b' (s ++ v) <> None.
Proof.
  intros Hk. induction s as [|c t IH]; intros b b' Hb H.
  - cbn [run_star_lazy] in H. cbn [app].
    assert (F : k' (mkpos b' v) <> None).
    { apply (Hk (mkpos b []) (mkpos b' v)); [split; [reflexivity|exact Hb]|].
      destruct (k (mkpos b [])); [discriminate | congruence]. }
    destruct v as [|w v']; cbn [run_star_lazy];
      destruct (k' (mkpos b' _)); (discriminate || congruence).
  - cbn [run_star_lazy app] in *.
    destruct (k (mkpos b (c :: t))) eqn:E.
    + assert (F : k' (mkpos b' (c :: t ++ v)) <> None).
      { apply (Hk (mkpos b (c :: t))); [split; [reflexivity|exact Hb]|].
        rewrite E. discriminate. }
      destruct (k' (mkpos b' (c :: t ++ v))); [discriminate | congruence].
    + destruct (k' (mkpos b' (c :: t ++ v))); [discriminate|].
      destruct (cls c); [|congruence].
      apply (IH (Some c) (Some c)); [now left | exact H].
Qed.

Lemma run_padded (r : regex) :
  plain r = true ->
  forall (k k' : pos -> option pos) (p p' : pos),
    (forall q q', padded v q q' -> k q <> None -> k' q' <> None) ->
    padded v p p' ->
    run icase r k p <> None -> run icase r k' p' <> None.
Proof using Hv.
  induction r as [| | |cls|s|cls|cls|r IH|r1 IH1 r2 IH2];
    intros Hr k k' p p' Hk Hp H; cbn [plain] in Hr; try discriminate.
  - cbn [run] in *. rewrite (at_boundary_padded p p' Hp).
    destruct (at_boundary p); [|congruence]. exact (Hk p p' Hp H).
  - cbn [run] in *. destruct Hp as [Hr' Hb]. rewrite Hr'.
    destruct (rest p) as [|c t]; [congruence|]. cbn [app].
    destruct (cls c); [|congruence].
    apply (Hk (mkpos (Some c) t)); [|exact H]. split; [reflexivity | now left].
  - cbn [run] in *. destruct (run_lit icase s p) as [q|] eqn:E; [|congruence].
    destruct (run_lit_padded s p p' q Hp E) as (q' & -> & Hq).
    exact (Hk q q' Hq H).
  - cbn [run] in *. destruct Hp as [Hr' Hb]. rewrite Hr'.
    apply (run_star_padded cls k k' Hk (rest p) (before p) (before p'));
      [exact Hb | exact H].
  - cbn [run] in *. destruct Hp as [Hr' Hb]. rewrite Hr'.
    apply (run_star_lazy_padded cls k k' Hk (rest p) (before p) (before p'));
      [exact Hb | exact H].
  - cbn [run] in *. destruct (run icase r k p) eqn:E.
    + assert (N : run icase r k' p' <> None).
      { apply (IH Hr k k' p p' Hk Hp). rewrite E. discriminate. }
      destruct (run icase r k' p'); [discriminate | congruence].
    + destruct (run icase r k' p'); [discriminate | exact (Hk p p' Hp H)].
  - apply andb_true_iff in Hr as [H1 H2]. cbn [run] in *.
    apply (IH1 H1 (run icase r2 k) (run icase r2 k') p p'); [|exact Hp|exact H].
    intros q q' Hq. apply (IH2 H2 k k' q q' Hk Hq).
Qed.

Lemma exec_padded (r : regex) :
  plain r = true ->
  forall s b b',
    (b' = b \/ (b = None /\ is_word_opt b' = false)) ->
    exec icase r b s <> None -> exec icase r b' (s ++ v) <> None.
Proof using Hv.
  intros Hr.
  assert (R : forall s b b',
             (b' = b \/ (b = None /\ is_word_opt b' = false)) ->
             run icase r Some (mkpos b s) <> None ->
             run icase r Some (mkpos b' (s ++ v)) <> None).
  { intros s b b' Hb. apply (run_padded r Hr Some Some).
    - intros q q' _ _. discriminate.
    - split; [reflexivity | exact Hb]. }
  induction s as [|c t IH]; intros b b' Hb H.
  - cbn [exec] in H.
    assert (N : run icase r Some (mkpos b' ([] ++ v)) <> None).
    { apply (R [] b b' Hb).
      destruct (run icase r Some (mkpos b [])); [discriminate | congruence]. }
    cbn [app] in *. destruct v as [|w v']; cbn [exec];
      destruct (run icase r Some (mkpos b' _)); (discriminate || congruence).
  - cbn [exec app] in *.
    destruct (run icase r Some (mkpos b (c :: t))) eqn:E.
    + assert (N : run icase r Some (mkpos b' ((c :: t) ++ v)) <> None).
      { apply (R (c :: t) b b' Hb). rewrite E. discriminate. }
      cbn [app] in N.
      destruct (run icase r Some (mkpos b' (c :: t ++ v))); [discriminate | congruence].
    + destruct (run icase r Some (mkpos b' (c :: t ++ v))); [discriminate|].
      assert (N : exec icase r (Some c) (t ++ v) <> None).
      { apply (IH (Some c) (Some c)); [now left|].
        destruct (exec icase r (Some c) t) as [[? ?]|]; [discriminate | congruence]. }
      destruct (exec icase r (Some c) (t ++ v)) as [[? ?]|]; [discriminate | congruence].
Qed.

End Padding.

Lemma exec_skip (icase : bool) (r : regex) (u s : jsstring) (b : option char) :
  exec icase r (fold_left (fun _ c => Some c) u b) s <> None ->
  exec icase r b (u ++ s) <> None.
Proof.
  revert b; induction u as [|c u IH]; intros b H; [exact H|].
  cbn [app exec]. cbn [fold_left] in H. specialize (IH (Some c) H).
  destruct (run icase r Some (mkpos b (c :: u ++ s))); [discriminate|].
  destruct (exec icase r (Some c) (u ++ s)) as [[? ?]|]; [discriminate | congruence].
Qed.

Lemma last_space (u : jsstring) (b : option char) :
  is_word_opt b = false -> forallb is_space u = true ->
  is_word_opt (fold_left (fun _ c => Some c) u b) = false.
Proof.
  revert b; induction u as [|c u IH]; intros b Hb Hu; [exact Hb|].
  cbn [forallb] in Hu. apply andb_true_iff in Hu as [Hc Hu].
  cbn [fold_left]. apply IH; [|exact Hu]. now apply space_not_word.
Qed.

Lemma test_exec (icase : bool) (r : regex) (s : jsstring) :
  test icase r s = true <-> exec icase r None s <> None.
Proof.
  unfold test. destruct (exec icase r None s); split; congruence.
Qed.

(** A match of an expression without [^] and [$] is still there when white
    space is put around the line. *)
Lemma test_padded_plain (icase : bool) (r : regex) (u s v : jsstring) :
  plain r = true ->
  forallb is_space u = true -> forallb is_space v = true ->
  test icase r s = true -> test icase r (u ++ s ++ v) = true.
Proof.
  intros Hr Hu Hv H. apply test_exec in H. apply test_exec.
  apply exec_skip.
  apply (exec_padded icase v Hv r Hr s None); [|exact H].
  right. split; [reflexivity|]. now apply last_space.
Qed.

Lemma exec_bol (icase : bool) (r : regex) (s : jsstring) (c : char) :
  exec icase (Seq Bol r) (Some c) s = None.
Proof.
  revert c; induction s as [|d t IH]; intros c; cbn [exec run before].
  - reflexivity.
  - now rewrite IH.
Qed.

Lemma run_star_prefix (cls : char -> bool) (k : pos -> option pos)
      (u s : jsstring) :
  (forall q q', padded [] q q' -> k q <> None -> k q' <> None) ->
  (forall c, cls c = true -> is_word c = false) ->
  forallb cls u = true ->
  run_star cls k None s <> None ->
  forall b, is_word_opt b = false -> run_star cls k b (u ++ s) <> None.
Proof.
  intros Hk Hc Hu H. induction u as [|c u IH]; intros b Hb.
  - cbn [app]. rewrite <- (app_nil_r s).
    apply (run_star_padded [] cls k k Hk s None b); [|exact H].
    right. now split.
  - cbn [forallb] in Hu. apply andb_true_iff in Hu as [Hcc Hu].
    cbn [app run_star]. rewrite Hcc.
    specialize (IH Hu (Some c) (Hc c Hcc)).
    destruct (run_star cls k (Some c) (u ++ s)); [discriminate | congruence].
Qed.

(** A match of [^\s*] followed by such an expression is still there as
    well. *)
Lemma test_padded_anchored (icase : bool) (r : regex) (u s v : jsstring) :
  plain r = true ->
  forallb is_space u = true -> forallb is_space v = true ->
  test icase (Seq Bol (Seq (Star is_space) r)) s = true ->
  test icase (Seq Bol (Seq (Star is_space) r)) (u ++ s ++ v) = true.
Proof.
  intros Hr Hu Hv H. apply test_exec in H. apply test_exec.
  assert (R : run_star is_space (run icase r Some) None s <> None).
  { destruct s as [|c t]; cbn [exec run before rest] in H.
    - destruct (run_star is_space (run icase r Some) None []);
        [discriminate | congruence].
    - destruct (run_star is_space (run icase r Some) None (c :: t));
        [discriminate|].
      rewrite exec_bol in H. congruence. }
  assert (R' : run_star is_space (run icase r Some) None (u ++ s ++ v) <> None).
  { apply run_star_prefix; [| exact space_not_word | exact Hu | | reflexivity].
    - intros q q' Hq. apply (run_padded icase [] eq_refl r Hr Some Some q q');
        [|exact Hq]. intros ? ? _ _. discriminate.
    - apply (run_star_padded v is_space (run icase r Some) (run icase r Some))
        with (b := None); [|now left|exact R].
      intros q q' Hq. apply (run_padded icase v Hv r Hr Some Some q q');
        [|exact Hq]. intros ? ? _ _. discriminate. }
  destruct (u ++ s ++ v) as [|c t]; cbn [exec run before rest].
  - destruct (run_star is_space (run icase r Some) None []);
      [discriminate | congruence].
  - destruct (run_star is_space (run icase r Some) None (c :: t));
      [discriminate | congruence].
Qed.

(** A line that opens the footer still does with white space around it. *)
Lemma isFooter_padded (u s v : jsstring) :
  forallb is_space u = true -> forallb is_space v = true ->
  isFooter s = true -> isFooter (u ++ s ++ v) = true.
Proof.
  intros Hu Hv. unfold isFooter. rewrite !orb_true_iff.
  intros [[[H|H]|H]|H].
  - left; left; left. now apply test_padded_plain.
  - left; left; right.
    exact (test_padded_anchored true
             (seqs [upto 6 (lit "#"); Star is_space; lit "link";
                    Star is_space; lit "to"; WordB])
             u s v eq_refl Hu Hv H).
  - left; right.
    exact (test_padded_anchored true
             (seqs [upto 6 (lit "#"); Star is_space; lit "are";
                    Star is_space; lit "we"; Star is_space; lit "closer";
                    WordB])
             u s v eq_refl Hu Hv H).
  - right. now apply test_padded_plain.
Qed.

(** ** Lines *)

Lemma split_cons (sep : char) (s : jsstring) :
  exists l ls, split sep s = l :: ls.
Proof.
  destruct s as [|c t]; [now exists [], []|]. cbn [split].
  destruct (c =? sep)%N; [now eexists; eexists|].
  destruct (split sep t); now eexists; eexists.
Qed.

Lemma join_cons (sep l l' : jsstring) (ls : list jsstring) :
  join sep (l :: l' :: ls) = l ++ sep ++ join sep (l' :: ls).
Proof. reflexivity. Qed.

Lemma split_join (s : jsstring) : join [LF] (split LF s) = s.
Proof.
  induction s as [|c t IH]; [reflexivity|]. cbn [split].
  destruct (split_cons LF t) as (l & ls & E). rewrite E in *.
  destruct (N.eqb_spec c LF) as [->|N].
  - rewrite join_cons, IH. reflexivity.
  - destruct ls as [|l' ls'].
    + cbn [join] in *. now rewrite IH.
    + rewrite join_cons in *. rewrite <- IH. reflexivity.
Qed.

Lemma split_no_sep (s l : jsstring) : In l (split LF s) -> ~ In LF l.
Proof.
  revert l; induction s as [|c t IH]; intros l.
  - cbn [split]. intros [<-|[]] [].
  - cbn [split]. destruct (split_cons LF t) as (l0 & ls & E). rewrite E in *.
    destruct (N.eqb_spec c LF) as [->|N].
    + intros [<-|H]; [intros [] | now apply IH].
    + intros [<-|H].
      * intros [X|X]; [congruence|]. apply (IH l0); [now left | exact X].
      * apply IH. now right.
Qed.

Lemma split_line (l rest : jsstring) :
  ~ In LF l -> split LF (l ++ LF :: rest) = l :: split LF rest.
Proof.
  induction l as [|c l IH]; intros H.
  - cbn [app split]. now rewrite N.eqb_refl.
  - cbn [app split]. destruct (N.eqb_spec c LF) as [->|N].
    + exfalso. apply H. now left.
    + rewrite IH; [reflexivity|]. intros X. apply H. now right.
Qed.

Lemma split_one (l : jsstring) : ~ In LF l -> split LF l = [l].
Proof.
  induction l as [|c l IH]; intros H; [reflexivity|]. cbn [split].
  destruct (N.eqb_spec c LF) as [->|N].
  - exfalso. apply H. now left.
  - rewrite IH; [reflexivity|]. intros X. apply H. now right.
Qed.

Lemma split_join_lines (ls : list jsstring) :
  ls <> [] -> Forall (fun l => ~ In LF l) ls -> split LF (join [LF] ls) = ls.
Proof.
  intros Hne H. revert Hne.
  induction H as [|l ls Hl H IH]; [intros X; exfalso; now apply X|].
  intros _. destruct ls as [|l' ls'].
  - cbn [join]. now apply split_one.
  - rewrite join_cons.
    change (l ++ [LF] ++ join [LF] (l' :: ls'))
      with (l ++ LF :: join [LF] (l' :: ls')).
    rewrite split_line by exact Hl.
    rewrite IH by discriminate. reflexivity.
Qed.

Lemma split_snoc (s : jsstring) : split LF (s ++ [LF]) = split LF s ++ [[]].
Proof.
  induction s as [|c t IH]; [reflexivity|]. cbn [app split].
  rewrite IH. destruct (c =? LF)%N; [reflexivity|].
  destruct (split_cons LF t) as (l & ls & E). rewrite E. reflexivity.
Qed.

Lemma first_line_chars (s l : jsstring) (ls : list jsstring) (c : char) :
  split LF s = l :: ls -> In c l -> In c s.
Proof.
  revert l ls; induction s as [|d t IH]; intros l ls E H.
  - cbn [split] in E. injection E as <- <-. destruct H.
  - cbn [split] in E. destruct (d =? LF)%N.
    + injection E as <- <-. destruct H.
    + destruct (split_cons LF t) as (l0 & ls0 & E0). rewrite E0 in E.
      injection E as <- <-. destruct H as [<-|H]; [now left|].
      right. exact (IH l0 ls0 E0 H).
Qed.

(** A line of a text is, in the text with more put before it, the end of a
    line; what is put before that line comes from the added text. *)
Lemma line_after (a b lb : jsstring) :
  In lb (split LF b) ->
  exists u, (forall c, In c u -> In c a) /\ In (u ++ lb) (split LF (a ++ b)).
Proof.
  intros H. induction a as [|d a (u & Hu & Hi)].
  - exists []. split; [intros c []| exact H].
  - cbn [app split]. destruct (d =? LF)%N.
    + exists u. split; [intros c Hc; right; now apply Hu | now right].
    + destruct (split_cons LF (a ++ b)) as (l0 & ls0 & E0). rewrite E0 in *.
      destruct Hi as [->|Hi].
      * exists (d :: u). split; [|now left].
        intros c [<-|Hc]; [now left | right; now apply Hu].
      * exists u. split; [intros c Hc; right; now apply Hu | now right].
Qed.

Lemma split_app (a b m : jsstring) (mb : list jsstring) :
  split LF b = m :: mb ->
  exists la l, split LF a = la ++ [l]
               /\ split LF (a ++ b) = la ++ (l ++ m) :: mb.
Proof.
  intros Eb. induction a as [|d a (la & l & Ea & Eab)].
  - exists [], []. split; [reflexivity | exact Eb].
  - cbn [app split]. rewrite Ea, Eab. destruct (d =? LF)%N.
    + exists ([] :: la), l. split; reflexivity.
    + destruct la as [|x la].
      * exists [], (d :: l). split; reflexivity.
      * exists ((d :: x) :: la), l. split; reflexivity.
Qed.

(** And with more put after it, the start of a line. *)
Lemma line_before (a b lb : jsstring) :
  In lb (split LF a) ->
  exists v, (forall c, In c v -> In c b) /\ In (lb ++ v) (split LF (a ++ b)).
Proof.
  intros H. destruct (split_cons LF b) as (m & mb & Eb).
  destruct (split_app a b m mb Eb) as (la & l & Ea & Eab).
  rewrite Ea in H. rewrite Eab. apply in_app_or in H as [H|[<-|[]]].
  - exists []. split; [intros c []|]. rewrite app_nil_r.
    apply in_or_app. now left.
  - exists m. split; [intros c Hc; exact (first_line_chars b m mb c Eb Hc)|].
    apply in_or_app. right. now left.
Qed.

(** Cutting the runs of newlines takes empty lines away and leaves the
    others as they are. *)
Lemma lines_squeeze (s : jsstring) :
  (forall k, incl (split LF (squeeze k s)) (split LF s))
  /\ (forall l0 ls, split LF s = l0 :: ls ->
        exists ls', split LF (squeeze 0 s) = l0 :: ls' /\ incl ls' ls).
Proof.
  induction s as [|c t [IH1 IH2]].
  - split; [intros k; apply incl_refl|].
    intros l0 ls E. exists ls. split; [exact E | apply incl_refl].
  - destruct (split_cons LF t) as (m & ms & Et).
    destruct (IH2 m ms Et) as (ms' & Es & Hi).
    assert (Plain : (c =? LF)%N = false ->
              forall k, split LF (squeeze k (c :: t)) = (c :: m) :: ms').
    { intros N k. cbn [squeeze]. rewrite (N.eqb_sym LF c), N.
      cbn [split]. now rewrite N, Es. }
    split.
    + intros k. destruct (c =? LF)%N eqn:N.
      * apply N.eqb_eq in N. subst c. cbn [squeeze split].
        rewrite !N.eqb_refl. destruct (k <? 2)%nat.
        -- cbn [split]. rewrite N.eqb_refl.
           apply incl_cons; [now left|]. apply incl_tl. apply IH1.
        -- apply incl_tl. apply IH1.
      * rewrite (Plain eq_refl k). cbn [split]. rewrite N, Et.
        apply incl_cons; [now left|]. now apply incl_tl.
    + intros l0 ls E. destruct (c =? LF)%N eqn:N.
      * apply N.eqb_eq in N. subst c. cbn [split] in E.
        rewrite N.eqb_refl in E. injection E as <- <-.
        exists (split LF (squeeze 1 t)). split; [|apply IH1].
        cbn [squeeze]. rewrite N.eqb_refl. cbn [Nat.ltb Nat.leb split].
        now rewrite N.eqb_refl.
      * rewrite (Plain eq_refl 0%nat). cbn [split] in E. rewrite N, Et in E.
        injection E as <- <-. now exists ms'.
Qed.

Lemma squeeze_short (k : nat) (s : jsstring) :
  short (Nat.min k 2) (squeeze k s) = true.
Proof.
  revert k; induction s as [|c t IH]; intros k; [reflexivity|].
  cbn [squeeze]. destruct (N.eqb_spec LF c) as [<-|N].
  - destruct (Nat.ltb_spec k 2) as [L|L].
    + cbn [short]. rewrite N.eqb_refl.
      replace (Nat.min k 2) with k by lia.
      replace (k <? 2)%nat with true by (symmetry; apply Nat.ltb_lt; lia).
      specialize (IH (S k)). now replace (Nat.min (S k) 2) with (S k) in IH by lia.
    + specialize (IH (S k)). replace (Nat.min (S k) 2) with 2%nat in IH by lia.
      now replace (Nat.min k 2) with 2%nat by lia.
  - cbn [short]. destruct (N.eqb_spec LF c); [congruence|]. apply (IH 0%nat).
Qed.

Lemma short_mono (s : jsstring) (j k : nat) :
  (j <= k)%nat -> short k s = true -> short j s = true.
Proof.
  revert j k; induction s as [|c t IH]; intros j k L H; [reflexivity|].
  cbn [short] in *. destruct (LF =? c)%N; [|exact H].
  apply andb_true_iff in H as [H1 H2]. apply Nat.ltb_lt in H1.
  apply andb_true_iff. split; [apply Nat.ltb_lt; lia|].
  apply (IH (S j) (S k)); [lia | exact H2].
Qed.

Lemma short_fix (k : nat) (s : jsstring) :
  short k s = true -> squeeze k s = s.
Proof.
  revert k; induction s as [|c t IH]; intros k H; [reflexivity|].
  cbn [short squeeze] in *. destruct (LF =? c)%N.
  - apply andb_true_iff in H as [H1 H2]. rewrite H1. now rewrite IH.
  - now rewrite IH.
Qed.

Lemma short_app (k : nat) (a b : jsstring) :
  short k (a ++ b) = true -> short k a = true /\ short 0 b = true.
Proof.
  revert k; induction a as [|c a IH]; intros k H.
  - split; [reflexivity|]. apply (short_mono b 0 k); [lia | exact H].
  - cbn [app short] in *. destruct (LF =? c)%N.
    + apply andb_true_iff in H as [H1 H2]. rewrite H1.
      destruct (IH _ H2) as [Ha Hb]. now rewrite Ha.
    + now apply IH.
Qed.

Lemma short_snoc (k : nat) (s : jsstring) :
  s <> [] -> last s SP <> LF -> short k s = true ->
  short k (s ++ [LF]) = true.
Proof.
  revert k; induction s as [|c s IH]; intros k Hne Hl H; [congruence|].
  destruct s as [|c' s'].
  - cbn [last] in Hl. cbn [app short] in *.
    destruct (N.eqb_spec LF c); [congruence | reflexivity].
  - change (last (c :: c' :: s') SP) with (last (c' :: s') SP) in Hl.
    assert (IH' : forall k, short k (c' :: s') = true ->
                            short k ((c' :: s') ++ [LF]) = true).
    { intros k'. apply IH; [discriminate | exact Hl]. }
    change ((c :: c' :: s') ++ [LF]) with (c :: (c' :: s') ++ [LF]).
    cbn [short] in H |- *. destruct (LF =? c)%N.
    + apply andb_true_iff in H as [H1 H2]. rewrite H1. now apply IH'.
    + now apply IH'.
Qed.

Lemma dropWhile_id (f : char -> bool) (s : jsstring) (d : char) :
  s <> [] -> f (hd d s) = false -> dropWhile f s = s.
Proof.
  destruct s as [|c t]; [congruence|]. cbn [hd dropWhile]. now intros _ ->.
Qed.

Lemma trim_line (body : jsstring) :
  body <> [] ->
  is_space (hd SP body) = false -> is_space (last body SP) = false ->
  trim (body ++ [LF]) = body.
Proof.
  intros Hne Hh Hl. unfold trim.
  rewrite (dropWhile_id is_space (body ++ [LF]) SP).
  - rewrite rev_app_distr. cbn [rev app dropWhile].
    change (is_space LF) with true. cbv iota.
    rewrite (dropWhile_id is_space (rev body) SP).
    + apply rev_involutive.
    + intros X. apply (f_equal (@rev char)) in X.
      rewrite rev_involutive in X. exact (Hne X).
    + now rewrite hd_rev.
  - destruct body; [congruence | discriminate].
  - destruct body; [congruence | exact Hh].
Qed.

(** *** The two loops *)

Lemma findStart_none (ls : list jsstring) (i : nat) :
  Forall (fun l => test true re_mustDos l = false) ls -> findStart ls i = O.
Proof.
  intros H. revert i. induction H as [|l ls Hl H IH]; intros i; [reflexivity|].
  cbn [findStart]. rewrite Hl. apply IH.
Qed.

Lemma findEnd_none (ls : list jsstring) (i : nat) :
  Forall (fun l => isFooter l = false) ls -> findEnd ls i = None.
Proof.
  intros H. revert i. induction H as [|l ls Hl H IH]; intros i; [reflexivity|].
  cbn [findEnd]. rewrite Hl. apply IH.
Qed.

Lemma findEnd_ge (ls : list jsstring) (i e : nat) :
  findEnd ls i = Some e -> (i <= e)%nat.
Proof.
  revert i; induction ls as [|l ls IH]; intros i; [discriminate|].
  cbn [findEnd]. destruct (isFooter l).
  - intros [= <-]. lia.
  - intros H. apply IH in H. lia.
Qed.

(** The lines before the one the second loop stops at open no footer. *)
Lemma findEnd_prefix (ls : list jsstring) (i : nat) :
  Forall (fun l => isFooter l = false)
    (firstn (match findEnd ls i with
             | Some e => e - i
             | None => length ls
             end) ls).
Proof.
  revert i; induction ls as [|l ls IH]; intros i.
  - destruct (findEnd [] i); rewrite firstn_nil; constructor.
  - cbn [findEnd]. destruct (isFooter l) eqn:F.
    + rewrite Nat.sub_diag. constructor.
    + specialize (IH (S i)). pose proof (findEnd_ge ls (S i)) as G.
      destruct (findEnd ls (S i)) as [e|].
      * specialize (G e eq_refl).
        replace (e - i)%nat with (S (e - S i)) by lia.
        cbn [firstn]. constructor; assumption.
      * cbn [length firstn]. constructor; assumption.
Qed.

Lemma Forall_firstn_le {A} (P : A -> Prop) (n m : nat) (l : list A) :
  (n <= m)%nat -> Forall P (firstn m l) -> Forall P (firstn n l).
Proof.
  intros L H. replace n with (Nat.min n m) by lia.
  rewrite <- firstn_firstn. rewrite Forall_forall in *.
  intros x Hx. apply H. rewrite <- (firstn_skipn n (firstn m l)).
  apply in_or_app. now left.
Qed.

(** The lines the normalizer keeps open no footer. *)
Lemma kept_lines_no_footer (lines : list jsstring) :
  Forall (fun l => isFooter l = false)
    (slice (Z.of_nat (startIdx lines)) (Z.of_nat (endIdx lines)) lines).
Proof.
  unfold slice, relIndex.
  destruct (Z.ltb_spec (Z.of_nat (startIdx lines)) 0) as [X|_]; [lia|].
  destruct (Z.ltb_spec (Z.of_nat (endIdx lines)) 0) as [X|_]; [lia|].
  destruct (Nat.le_gt_cases (length lines) (startIdx lines)) as [L|L].
  - rewrite (Z.min_r (Z.of_nat (startIdx lines))) by lia.
    rewrite Nat2Z.id, skipn_all. rewrite firstn_nil.
    constructor.
  - rewrite (Z.min_l (Z.of_nat (startIdx lines))) by lia. rewrite Nat2Z.id.
    pose proof (findEnd_prefix (skipn (startIdx lines) lines) (startIdx lines)) as P.
    unfold endIdx.
    destruct (findEnd (skipn (startIdx lines) lines) (startIdx lines)) as [e|].
    + apply (Forall_firstn_le _ _ (e - startIdx lines)); [lia | exact P].
    + apply (Forall_firstn_le _ _ (length (skipn (startIdx lines) lines)));
        [rewrite length_skipn; lia | exact P].
Qed.

(** *** The normalizer applied to its own result *)

Lemma forallb_from (f : char -> bool) (u l : jsstring) :
  (forall c, In c u -> In c l) -> forallb f l = true -> forallb f u = true.
Proof.
  intros H F. rewrite forallb_forall in *. auto.
Qed.

(** What the normalizer returns: nothing, or a text without white space at
    its ends and one newline; the text is a part of the kept lines with
    their newline runs cut, and only white space is around that part. *)
Lemma normalizer_shape (text : jsstring) :
  exists l body r,
    squeeze 0
      (join [LF]
         (slice (Z.of_nat (startIdx (split LF text)))
            (Z.of_nat (endIdx (split LF text))) (split LF text)))
    = l ++ body ++ r
    /\ forallb is_space l = true /\ forallb is_space r = true
    /\ ((body = [] /\ cleanJournalMarkdown text = [])
        \/ (body <> []
            /\ is_space (hd SP body) = false
            /\ is_space (last body SP) = false
            /\ cleanJournalMarkdown text = body ++ [LF])).
Proof.
  set (kept := join [LF]
                 (slice (Z.of_nat (startIdx (split LF text)))
                    (Z.of_nat (endIdx (split LF text))) (split LF text))).
  destruct (trim_spec (collapseBlankLines kept)) as (l & r & E & Fl & Fr & S).
  exists l, (trim (collapseBlankLines kept)), r.
  rewrite <- collapseBlankLines_squeeze.
  split; [exact E|]. split; [exact Fl|]. split; [exact Fr|].
  assert (D : cleanJournalMarkdown text
              = match trim (collapseBlankLines kept) with
                | [] => []
                | _ :: _ => trim (collapseBlankLines kept) ++ [LF]
                end) by reflexivity.
  rewrite D. destruct S as [S|[S1 S2]].
  - left. rewrite S. now split.
  - right. destruct (trim (collapseBlankLines kept)); [discriminate S1|].
    split; [discriminate|]. split; [exact S1|]. now split.
Qed.

(** No line of a normalized text opens the footer. *)
Lemma cleaned_lines_no_footer (text lb : jsstring) :
  In lb (split LF (cleanJournalMarkdown text)) -> isFooter lb = false.
Proof.
  assert (F0 : isFooter [] = false) by (vm_compute; reflexivity).
  destruct (normalizer_shape text) as (l & body & r & E & Fl & Fr & S).
  set (lines := split LF text) in *.
  set (keptLines := slice (Z.of_nat (startIdx lines)) (Z.of_nat (endIdx lines))
                      lines) in *.
  destruct S as [[_ ->]|(_ & _ & _ & ->)].
  - intros [<-|[]]. exact F0.
  - rewrite split_snoc. intros H. apply in_app_or in H as [H|[<-|[]]]; [|exact F0].
    destruct (line_before body r lb H) as (v & Hv & H1).
    destruct (line_after l (body ++ r) (lb ++ v) H1) as (u & Hu & H2).
    rewrite <- E in H2.
    apply (proj1 (lines_squeeze (join [LF] keptLines)) 0%nat) in H2.
    assert (Fu : forallb is_space u = true) by exact (forallb_from _ u l Hu Fl).
    assert (Fv : forallb is_space v = true) by exact (forallb_from _ v r Hv Fr).
    destruct (isFooter lb) eqn:Flb; [|reflexivity].
    pose proof (isFooter_padded u lb v Fu Fv Flb) as P.
    destruct keptLines as [|k0 ks] eqn:Ek.
    + cbn [join split] in H2. destruct H2 as [H2|[]].
      destruct u; [|discriminate]. destruct lb; [|discriminate].
      rewrite F0 in Flb. discriminate.
    + rewrite split_join_lines in H2.
      * pose proof (kept_lines_no_footer lines) as K. fold keptLines in K.
        rewrite Ek in K. rewrite Forall_forall in K.
        rewrite (K _ H2) in P. discriminate.
      * discriminate.
      * rewrite <- Ek. unfold keptLines. apply slice_Forall.
        apply Forall_forall. intros x Hx. exact (split_no_sep text x Hx).
Qed.

(** The claim of C5 as stated fails on a text with a second Must Do's
    heading: the first pass takes the first heading off, the second pass
    finds the second heading and takes everything up to the end of its list
    off. *)
Lemma second_heading_is_stripped :
  cleanJournalMarkdown twoHeadings
  = str "hello" ++ [LF] ++ str "Must Dos" ++ [LF] ++ str "- a" ++ [LF]
    ++ str "world" ++ [LF]
  /\ cleanJournalMarkdown (cleanJournalMarkdown twoHeadings)
     = str "world" ++ [LF]
  /\ cleanJournalMarkdown (cleanJournalMarkdown twoHeadings)
     <> cleanJournalMarkdown twoHeadings.
Proof.
  assert (E1 : cleanJournalMarkdown twoHeadings
               = str "hello" ++ [LF] ++ str "Must Dos" ++ [LF] ++ str "- a"
                 ++ [LF] ++ str "world" ++ [LF]) by (vm_compute; reflexivity).
  assert (E2 : cleanJournalMarkdown (cleanJournalMarkdown twoHeadings)
               = str "world" ++ [LF]) by (vm_compute; reflexivity).
  split; [exact E1|]. split; [exact E2|]. rewrite E2, E1. discriminate.
Qed.

(** C5, amended.  When no line of the normalized text is a Must Do's
    heading, normalizing it again changes nothing: the first loop finds no
    heading (the start stays 0), the second loop finds no footer line (the
    end is the number of lines), and the result is the text itself. *)
Theorem normalizer_idempotent (text : jsstring) :
  let once := cleanJournalMarkdown text in
  (forall l, In l (split LF once) -> test true re_mustDos l = false) ->
  startIdx (split LF once) = 0%nat
  /\ endIdx (split LF once) = length (split LF once)
  /\ cleanJournalMarkdown once = once.
Proof.
  intros once Hh.
  assert (Hf : forall l, In l (split LF once) -> isFooter l = false).
  { intros l. apply cleaned_lines_no_footer. }
  destruct (normalizer_shape text) as (l & body & r & E & Fl & Fr & S).
  assert (Hshort : short 0 body = true).
  { pose proof (squeeze_short 0 (join [LF]
       (slice (Z.of_nat (startIdx (split LF text)))
              (Z.of_nat (endIdx (split LF text))) (split LF text)))) as Sq.
    rewrite E in Sq. cbn [Nat.min] in Sq.
    apply short_app in Sq as [_ Sq]. apply short_app in Sq as [Sq _].
    exact Sq. }
  assert (Hs : startIdx (split LF once) = 0%nat).
  { unfold startIdx. apply findStart_none. apply Forall_forall. exact Hh. }
  assert (He : endIdx (split LF once) = length (split LF once)).
  { unfold endIdx. rewrite Hs. cbn [skipn].
    rewrite findEnd_none; [reflexivity|]. apply Forall_forall. exact Hf. }
  split; [exact Hs|]. split; [exact He|].
  change (cleanJournalMarkdown text) with once in S.
  clearbody once. clear Hh Hf.
  destruct S as [[_ S]|(Hne & Hhd & Hl & S)].
  - rewrite S. vm_compute. reflexivity.
  - assert (K : join [LF]
                  (slice (Z.of_nat (startIdx (split LF once)))
                     (Z.of_nat (endIdx (split LF once))) (split LF once))
                = once).
    { rewrite Hs, He. rewrite slice_prefix by lia.
      rewrite Nat2Z.id, firstn_all. apply split_join. }
    unfold cleanJournalMarkdown. cbn zeta. rewrite K.
    rewrite collapseBlankLines_squeeze.
    assert (Hfix : squeeze 0 once = once).
    { apply short_fix. rewrite S. apply short_snoc; [exact Hne| |exact Hshort].
      intros X. rewrite X in Hl. discriminate Hl. }
    rewrite Hfix, S, (trim_line body Hne Hhd Hl).
    destruct body; [congruence | reflexivity].
Qed.

Lemma normalizer_idempotent_witness :
  startIdx (split LF (cleanJournalMarkdown scenario1)) = 0%nat
  /\ endIdx (split LF (cleanJournalMarkdown scenario1))
     = length (split LF (cleanJournalMarkdown scenario1))
  /\ cleanJournalMarkdown (cleanJournalMarkdown scenario1)
     = cleanJournalMarkdown scenario1.
Proof.
  apply (normalizer_idempotent scenario1).
  intros l H. vm_compute in H. destruct H as [<-|[<-|[]]]; vm_compute; reflexivity.
Defined.

(* ================================================================== *)
(** * Further properties of the pipeline *)
(* ================================================================== *)

(** ** More on the aggregator *)

Arguments filteredTokens : simpl never.
Arguments monthKey : simpl never.

Section TallyFacts.
Context {A K : Type}.
Variable keq : K -> K -> bool.
Hypothesis keq_spec : forall a b, keq a b = true <-> a = b.
Variables (key : A -> K) (val : A -> Z).

Lemma tally_filter (items : list A) (k : K) :
  tally keq key val items k
  = sum (map val (filter (fun it => keq (key it) k) items)).
Proof.
  induction items as [|it items IH]; simpl; [reflexivity|].
  destruct (keq (key it) k); simpl; [rewrite sum_cons|]; now rewrite IH.
Qed.

Lemma mentioned_In (items : list A) (k : K) :
  mentioned keq key items k = true <-> In k (map key items).
Proof.
  unfold mentioned. rewrite existsb_exists, in_map_iff.
  split; intros (it & H1 & H2).
  - apply keq_spec in H2. eauto.
  - exists it. split; [assumption | now apply keq_spec].
Qed.

Lemma Map_set_total (m : list (K * Z)) (k : K) (v : Z) :
  sum (map snd (Map_set keq m k v))
  = (sum (map snd m) - orZero (Map_get keq m k) + v)%Z.
Proof.
  induction m as [|[k' v'] m IH]; simpl.
  - rewrite sum_cons. unfold sum. simpl. lia.
  - destruct (keq k' k); simpl; rewrite !sum_cons; [lia|].
    rewrite IH. lia.
Qed.

Lemma accumulate_total (items : list A) (m0 : list (K * Z)) :
  sum (map snd
         (fold_left
            (fun m it => Map_set keq m (key it)
                           (orZero (Map_get keq m (key it)) + val it)%Z)
            items m0))
  = (sum (map snd m0) + sum (map val items))%Z.
Proof.
  revert m0. induction items as [|it items IH]; intros m0; simpl.
  - unfold sum at 3. simpl. lia.
  - rewrite IH, Map_set_total, sum_cons. lia.
Qed.

End TallyFacts.

Lemma sum_Permutation (l l' : list Z) : Permutation l l' -> sum l = sum l'.
Proof.
  intros P. induction P as [|x l l' P IH|x y l|l l' l'' P1 IH1 P2 IH2].
  - reflexivity.
  - now rewrite !sum_cons, IH.
  - rewrite !sum_cons. lia.
  - congruence.
Qed.

Lemma fold_left_add_map {A} (f : A -> Z) (l : list A) (a : Z) :
  fold_left (fun s x => s + f x)%Z l a = (a + sum (map f l))%Z.
Proof.
  revert a. induction l as [|x l IH]; intros a; simpl.
  - unfold sum. simpl. lia.
  - rewrite IH, sum_cons. lia.
Qed.

Lemma StronglySorted_strict {A K} (R R' : A -> A -> Prop) (f : A -> K)
      (l : list A) :
  (forall a b, R a b -> f a <> f b -> R' a b) ->
  NoDup (map f l) -> StronglySorted R l -> StronglySorted R' l.
Proof.
  intros HR ND S. induction S as [|a l S IH F]; [constructor|].
  simpl in ND. inversion ND as [|? ? Hn ND']; subst.
  constructor; [auto|]. rewrite Forall_forall in *.
  intros b Hb. apply HR; [auto|].
  intros E. apply Hn. rewrite E. now apply in_map.
Qed.

Lemma countsByYearMap_NoDup (items : list WordCount) :
  NoDup (map fst (countsByYearMap items)).
Proof. apply (accumulate_NoDup Z.eqb Z.eqb_eq wc_year wc_count). constructor. Qed.

(** X1.  The per-year totals come in strictly ascending order of the year,
    one row for each year that occurs among the items and no other, and
    the total of a year is the sum of the counts of the items of that
    year. *)
Theorem yearly_totals (items : list WordCount) :
  StronglySorted (fun a b => (fst a < fst b)%Z) (aggregateCountsByYear items)
  /\ forall y total,
       In (y, total) (aggregateCountsByYear items)
       <-> In y (map wc_year items)
           /\ total = sum (map wc_count
                             (filter (fun it => Z.eqb (wc_year it) y) items)).
Proof.
  unfold aggregateCountsByYear. split.
  - apply (StronglySorted_strict (fun a b => sgn (fst a - fst b) <> Gt) _ fst).
    + intros a b. unfold sgn. rewrite Z.compare_gt_iff. lia.
    + eapply Permutation_NoDup;
        [apply Permutation_map, Permutation_sym, sort_Permutation
        | apply countsByYearMap_NoDup].
    + apply sort_Sorted; [exact year_order_trans | exact year_order_total].
  - intros y total. rewrite sort_In.
    rewrite <- (mentioned_In Z.eqb Z.eqb_eq), <- (tally_filter Z.eqb).
    pose proof (accumulate_get Z.eqb Z.eqb_eq wc_year wc_count items [] y) as G.
    fold (countsByYearMap items) in G. cbn [Map_get orZero] in G. split.
    + intros H.
      apply (Map_In_get Z.eqb Z.eqb_eq _ _ _ (countsByYearMap_NoDup items)) in H.
      rewrite G in H. destruct (mentioned Z.eqb wc_year items y); [|discriminate].
      inversion H. split; [reflexivity | lia].
    + intros [M ->]. apply (Map_get_Some_In Z.eqb Z.eqb_eq).
      rewrite G, M. f_equal.
Qed.

Lemma totalWords_sum (entries : list Entry) :
  totalWords entries
  = sum (map (fun e => Z.of_nat (length (filteredTokens e))) entries).
Proof.
  unfold totalWords. rewrite fold_left_add_map, Z.add_0_l.
  unfold getWordCountsPerEntry. now rewrite map_map.
Qed.

Lemma sum_lengths (entries : list Entry) :
  sum (map (fun e => Z.of_nat (length (filteredTokens e))) entries)
  = Z.of_nat (length (allTokens entries)).
Proof.
  unfold allTokens. induction entries as [|e es IH]; [reflexivity|].
  cbn [map flat_map]. rewrite sum_cons, IH, length_app. lia.
Qed.

Lemma sum_ones {A} (l : list A) :
  sum (map (fun _ => 1%Z) l) = Z.of_nat (length l).
Proof.
  induction l as [|x l IH]; [reflexivity|].
  cbn [map length]. rewrite sum_cons, IH. lia.
Qed.

(** X2.  The totals agree: the per-year totals, the per-month totals and
    the counts of the overall word table each add up to the total word
    count, which is the number of filtered tokens of all entries. *)
Theorem totals_agree (entries : list Entry) :
  sum (map snd (aggregateCountsByYear (getWordCountsPerEntry entries)))
  = totalWords entries
  /\ sum (map snd (perMonth entries)) = totalWords entries
  /\ sum (map snd (fst (buildWordFrequency entries))) = totalWords entries
  /\ totalWords entries = Z.of_nat (length (allTokens entries)).
Proof.
  split; [|split; [|split]].
  - unfold aggregateCountsByYear.
    rewrite (sum_Permutation _ _ (Permutation_map snd (sort_Permutation _ _))).
    unfold countsByYearMap. rewrite accumulate_total.
    unfold totalWords. rewrite fold_left_add_map. reflexivity.
  - unfold perMonth.
    rewrite (sum_Permutation _ _ (Permutation_map snd (sort_Permutation _ _))).
    unfold perMonthMap. rewrite accumulate_total.
    rewrite totalWords_sum. reflexivity.
  - rewrite buildWordFrequency_flat, overall_fold. cbn [fst].
    rewrite (accumulate_total Js.eqb snd (fun _ => 1%Z)).
    rewrite sum_ones, totalWords_sum, sum_lengths.
    unfold allTokens, yearTokens.
    rewrite <- (map_snd_pairs (fun e => year (meta e)) filteredTokens entries).
    now rewrite length_map.
  - now rewrite totalWords_sum, sum_lengths.
Qed.

Lemma tally_ones_count (ws : list jsstring) (w : jsstring) :
  tally Js.eqb (fun x => x) (fun _ => 1%Z) ws w = occurrences w ws.
Proof.
  unfold occurrences. induction ws as [|x ws IH]; [reflexivity|].
  cbn [tally count_occ]. destruct (jsstring_eq_dec x w) as [->|N].
  - rewrite jseqb_refl, IH. lia.
  - apply jseqb_neq in N. now rewrite N.
Qed.

Lemma overall_NoDup (entries : list Entry) :
  NoDup (map fst (fst (buildWordFrequency entries))).
Proof.
  rewrite buildWordFrequency_flat, overall_fold.
  apply (accumulate_NoDup Js.eqb jseqb_eq snd (fun _ => 1%Z)). constructor.
Qed.

Lemma overall_get (entries : list Entry) (w : jsstring) :
  Map_get Js.eqb (fst (buildWordFrequency entries)) w
  = if mentioned Js.eqb snd (yearTokens entries) w
    then Some (occurrences w (allTokens entries)) else None.
Proof.
  rewrite buildWordFrequency_flat, overall_fold. cbn [fst].
  rewrite (accumulate_get Js.eqb jseqb_eq snd (fun _ => 1%Z)). cbn [Map_get orZero].
  destruct (tally_by_key Js.eqb snd (yearTokens entries) w) as [T _].
  rewrite T, tally_ones_count. unfold yearTokens. rewrite map_snd_pairs.
  reflexivity.
Qed.

Lemma overall_row (entries : list Entry) (w : jsstring) (c : Z) :
  In (w, c) (fst (buildWordFrequency entries))
  <-> In w (allTokens entries)
      /\ c = occurrences w (allTokens entries) /\ (1 <= c)%Z.
Proof.
  assert (M : mentioned Js.eqb snd (yearTokens entries) w = true
              <-> In w (allTokens entries)).
  { rewrite (mentioned_In Js.eqb jseqb_eq). unfold yearTokens, allTokens.
    now rewrite map_snd_pairs. }
  assert (P : In w (allTokens entries) ->
              (1 <= occurrences w (allTokens entries))%Z).
  { intros H. apply (count_occ_In jsstring_eq_dec) in H.
    unfold occurrences. lia. }
  split.
  - intros H. apply (Map_In_get Js.eqb jseqb_eq _ _ _ (overall_NoDup entries)) in H.
    rewrite overall_get in H.
    assert (E : mentioned Js.eqb snd (yearTokens entries) w = true)
      by (destruct (mentioned Js.eqb snd (yearTokens entries) w);
          [reflexivity | discriminate]).
    rewrite E in H. inversion H. apply M in E. auto.
  - intros (H & -> & _). apply (Map_get_Some_In Js.eqb jseqb_eq).
    rewrite overall_get. apply M in H. now rewrite H.
Qed.

(** X3.  The overall word table has one row for each word among the
    filtered tokens of the entries and no other, and the count of a word
    is the number of its occurrences there, so never less than 1. *)
Theorem overall_counts (entries : list Entry) :
  NoDup (map fst (fst (buildWordFrequency entries)))
  /\ forall w c,
       In (w, c) (fst (buildWordFrequency entries))
       <-> In w (allTokens entries)
           /\ c = occurrences w (allTokens entries) /\ (1 <= c)%Z.
Proof. split; [apply overall_NoDup | apply overall_row]. Qed.

(** ** The Month Index *)

Lemma Set_add_NoDup (s : list jsstring) (k : jsstring) :
  NoDup s -> NoDup (Set_add Js.eqb s k).
Proof.
  intros ND. unfold Set_add. destruct (Set_has Js.eqb s k) eqn:E; [assumption|].
  apply NoDup_app; [assumption | repeat constructor; simpl; tauto |].
  intros x Hx [<-|[]].
  apply (proj2 (Set_has_In _ _)) in Hx. congruence.
Qed.

Lemma Set_from_NoDup (a s : list jsstring) :
  NoDup s -> NoDup (fold_left (Set_add Js.eqb) a s).
Proof.
  revert s. induction a as [|k a IH]; intros s ND; simpl; [assumption|].
  apply IH. now apply Set_add_NoDup.
Qed.

Lemma monthlyOrder_NoDup (entries : list Entry) : NoDup (monthlyOrder entries).
Proof.
  unfold monthlyOrder.
  eapply Permutation_NoDup; [apply Permutation_sym, sort_Permutation|].
  apply Set_from_NoDup. constructor.
Qed.

Lemma monthlyOrder_In (entries : list Entry) (k : jsstring) :
  In k (monthlyOrder entries) <-> In k (map monthKey entries).
Proof.
  unfold monthlyOrder, Set_from. rewrite sort_In, Set_from_In. simpl. tauto.
Qed.

Lemma mapi_from_nth {A} (l : list A) (i0 i : nat) (k : A) :
  In (k, i) (mapi_from (fun i k => (k, i)) i0 l)
  <-> (i0 <= i)%nat /\ nth_error l (i - i0) = Some k.
Proof.
  revert i0. induction l as [|x l IH]; intros i0; simpl.
  - split; [tauto|]. intros [_ H]. now destruct (i - i0)%nat.
  - rewrite IH. split.
    + intros [E|[H1 H2]].
      * inversion E; subst. rewrite Nat.sub_diag. simpl. auto.
      * split; [lia|]. replace (i - i0)%nat with (S (i - S i0)) by lia. exact H2.
    + intros [H1 H2]. destruct (i - i0)%nat as [|j] eqn:E.
      * left. simpl in H2. inversion H2. f_equal. lia.
      * right. split; [lia|]. simpl in H2.
        replace (i - S i0)%nat with j by lia. exact H2.
Qed.

Section PairsFacts.
Context {K V : Type}.
Variable keq : K -> K -> bool.
Hypothesis keq_spec : forall a b, keq a b = true <-> a = b.

Lemma keq_dec (a b : K) : {a = b} + {a <> b}.
Proof.
  destruct (keq a b) eqn:E; [left; now apply keq_spec|].
  right. intros H. apply keq_spec in H. congruence.
Qed.

Lemma Map_of_pairs_None (ps m0 : list (K * V)) (k : K) :
  ~ In k (map fst ps) ->
  Map_get keq (fold_left (fun m kv => Map_set keq m (fst kv) (snd kv)) ps m0) k
  = Map_get keq m0 k.
Proof.
  revert m0. induction ps as [|[k' v'] ps IH]; intros m0 H; simpl; [reflexivity|].
  simpl in H. rewrite IH by tauto.
  apply (Map_get_set_other keq keq_spec). tauto.
Qed.

(** A [Map] built from pairs with distinct keys holds exactly the pairs. *)
Lemma Map_of_pairs_spec (ps : list (K * V)) (k : K) (v : V) :
  NoDup (map fst ps) ->
  (Map_get keq (fold_left (fun m kv => Map_set keq m (fst kv) (snd kv)) ps []) k
   = Some v <-> In (k, v) ps).
Proof.
  intros ND. split.
  - intros G.
    assert (Hk : In k (map fst ps)).
    { destruct (in_dec keq_dec k (map fst ps))
        as [H|H]; [assumption|].
      rewrite (Map_of_pairs_None ps [] k H) in G. discriminate. }
    destruct (Map_of_pairs_get keq keq_spec ps [] k Hk) as (v' & Hv & G').
    congruence.
  - intros H.
    destruct (Map_of_pairs_get keq keq_spec ps [] k) as (v' & Hv & G).
    + apply in_map_iff. exists (k, v). auto.
    + rewrite G. f_equal.
      assert (E : (k, v') = (k, v))
        by (apply (NoDup_keys_inj ps); auto).
      now inversion E.
Qed.

End PairsFacts.

Lemma monthlyOrder_Sorted (entries : list Entry) :
  StronglySorted (fun a b => localeCompare a b = Lt) (monthlyOrder entries).
Proof.
  apply (StronglySorted_strict (fun a b => localeCompare a b <> Gt) _ (fun x => x)).
  - intros a b H N. destruct (localeCompare a b) eqn:E; try congruence.
    apply localeCompare_eq in E. contradiction.
  - rewrite map_id. apply monthlyOrder_NoDup.
  - apply sort_Sorted; [exact localeCompare_trans | exact localeCompare_flip].
Qed.

Lemma monthIndex_spec (entries : list Entry) (k : jsstring) (i : nat) :
  Map_get Js.eqb (monthIndex entries) k = Some i
  <-> nth_error (monthlyOrder entries) i = Some k.
Proof.
  unfold monthIndex, mapi.
  rewrite (Map_of_pairs_spec Js.eqb jseqb_eq)
    by (rewrite mapi_from_keys; apply monthlyOrder_NoDup).
  rewrite mapi_from_nth, Nat.sub_0_r. split; [tauto | intros H; split; [lia | exact H]].
Qed.

(** X4.  The Month Index holds the month keys of the entries, each once, in
    strictly ascending order, and the index map sends the key at position
    [i] to [i] and knows no other key. *)
Theorem month_index_positions (entries : list Entry) :
  StronglySorted (fun a b => localeCompare a b = Lt) (monthlyOrder entries)
  /\ (forall k, In k (monthlyOrder entries)
                <-> exists e, In e entries /\ monthKey e = k)
  /\ (forall k i, Map_get Js.eqb (monthIndex entries) k = Some i
                  <-> nth_error (monthlyOrder entries) i = Some k).
Proof.
  split; [apply monthlyOrder_Sorted|]. split; [|apply monthIndex_spec].
  intros k. rewrite monthlyOrder_In, in_map_iff.
  split; intros (e & H1 & H2); eauto.
Qed.

(** ** The cells of the matrix *)

Lemma incrAt_nth (j i : nat) (a : list Z) :
  (j < length a)%nat ->
  nth i (incrAt (Some j) a) 0%Z
  = (nth i a 0 + if (i =? j)%nat then 1 else 0)%Z.
Proof.
  intros H. unfold incrAt. destruct (Nat.ltb_spec j (length a)) as [_|H']; [|lia].
  revert i j H. induction a as [|x a IH]; intros i j H; simpl in H; [lia|].
  destruct j as [|j]; destruct i as [|i]; simpl; try lia.
  apply IH. lia.
Qed.

Lemma tally_app {A K} (keq : K -> K -> bool) (key : A -> K) (val : A -> Z)
      (l1 l2 : list A) (k : K) :
  tally keq key val (l1 ++ l2) k
  = (tally keq key val l1 k + tally keq key val l2 k)%Z.
Proof.
  induction l1 as [|x l1 IH]; simpl; [reflexivity|].
  destruct (keq (key x) k); rewrite IH; lia.
Qed.

Lemma tally_month_word (ym k w : jsstring) (toks : list jsstring) :
  tally pairEqb (fun p => p) (fun _ => 1%Z) (map (pair ym) toks) (k, w)
  = if Js.eqb ym k then occurrences w toks else 0%Z.
Proof.
  unfold occurrences. induction toks as [|x toks IH].
  - simpl. now destruct (Js.eqb ym k).
  - cbn [map tally count_occ]. unfold pairEqb at 1. cbn [fst snd]. rewrite IH.
    destruct (Js.eqb ym k); cbn [andb]; [|reflexivity].
    destruct (jsstring_eq_dec x w) as [->|N].
    + rewrite jseqb_refl. lia.
    + apply jseqb_neq in N. now rewrite N.
Qed.

Lemma tally_monthTokens (entries : list Entry) (k w : jsstring) :
  tally pairEqb (fun p => p) (fun _ => 1%Z) (monthTokens entries) (k, w)
  = occurrences w (allTokens (entriesOfMonth k entries)).
Proof.
  unfold monthTokens, allTokens, entriesOfMonth.
  induction entries as [|e es IH]; [reflexivity|].
  cbn [flat_map filter]. rewrite tally_app, IH, tally_month_word.
  destruct (Js.eqb (monthKey e) k); [|reflexivity].
  cbn [flat_map]. unfold occurrences. rewrite count_occ_app. lia.
Qed.

Lemma matrix_cells_fold (entries : list Entry)
      (toks : list (jsstring * jsstring)) (m : WordMonths) :
  let n := length (monthlyOrder entries) in
  let m' := fold_left (fun m p => countWordMonth entries (fst p) m (snd p))
              toks m in
  (forall p, In p toks ->
             exists i, Map_get Js.eqb (monthIndex entries) (fst p) = Some i
                       /\ (i < n)%nat) ->
  (forall w arr, Map_get Js.eqb m w = Some arr -> length arr = n) ->
  forall w arr i k,
    Map_get Js.eqb m' w = Some arr ->
    nth_error (monthlyOrder entries) i = Some k ->
    nth i arr 0%Z
    = (nth i (seriesOf n (Map_get Js.eqb m w)) 0
       + tally pairEqb (fun p => p) (fun _ => 1) toks (k, w))%Z.
Proof.
  intros n. revert m. induction toks as [|[ym w0] toks IH];
    intros m m' Hr Hl w arr i k G Hk.
  - subst m'. simpl in G. rewrite G. simpl. lia.
  - subst m'. cbn [fold_left fst snd] in G.
    destruct (Hr (ym, w0) (or_introl eq_refl)) as (j & Gj & Lj). cbn [fst] in Gj.
    set (m1 := countWordMonth entries ym m w0) in *.
    assert (Hl1 : forall w arr, Map_get Js.eqb m1 w = Some arr -> length arr = n).
    { intros w' arr'. unfold m1. rewrite countWordMonth_get.
      destruct (Js.eqb w0 w'); [|apply Hl].
      intros [= <-]. rewrite incrAt_length. apply seriesOf_length, Hl. }
    rewrite (IH m1 (fun p Hp => Hr p (or_intror Hp)) Hl1 w arr i k G Hk).
    unfold m1. rewrite countWordMonth_get. cbn [tally].
    change (pairEqb (ym, w0) (k, w)) with (Js.eqb ym k && Js.eqb w0 w).
    destruct (Js.eqb w0 w) eqn:E.
    + apply jseqb_eq in E. subst w0. rewrite Gj. cbn [seriesOf].
      rewrite incrAt_nth by (rewrite seriesOf_length; [exact Lj | apply Hl]).
      rewrite andb_true_r.
      assert (Hj : nth_error (monthlyOrder entries) j = Some ym).
      { apply monthIndex_spec. exact Gj. }
      destruct (Nat.eqb_spec i j) as [->|N].
      * assert (ym = k) by congruence. subst k. rewrite jseqb_refl. subst n. lia.
      * destruct (Js.eqb ym k) eqn:Ek; [|subst n; lia].
        apply jseqb_eq in Ek. subst k. exfalso. apply N.
        apply (proj1 (NoDup_nth_error (monthlyOrder entries))
                 (monthlyOrder_NoDup entries)); [|congruence].
        apply nth_error_Some. congruence.
    + rewrite andb_false_r. lia.
Qed.

(** X5.  A cell of the per-word-per-month matrix holds the number of
    occurrences of the word among the filtered tokens of the entries of
    that month: for the word's series [arr] and the key [k] at position [i]
    of the Month Index, [arr[i]] is that number. *)
Theorem matrix_cells (entries : list Entry) (w k : jsstring) (arr : list Z)
        (i : nat) :
  Map_get Js.eqb (perWordMonthCounts entries) w = Some arr ->
  nth_error (monthlyOrder entries) i = Some k ->
  nth i arr 0%Z = occurrences w (allTokens (entriesOfMonth k entries)).
Proof.
  unfold perWordMonthCounts. rewrite perWordMonthCountsOf_flat. intros G Hk.
  assert (Hl : forall w arr, Map_get Js.eqb (@nil (jsstring * list Z)) w = Some arr ->
                             length arr = length (monthlyOrder entries))
    by discriminate.
  rewrite (matrix_cells_fold entries (monthTokens entries) []
             (monthTokens_in_range entries) Hl w arr i k G Hk).
  cbn [Map_get seriesOf]. rewrite nth_repeat, tally_monthTokens. lia.
Qed.

Lemma matrix_cells_witness :
  nth 0 [10; 0]%Z 0%Z
  = occurrences (str "focus")
      (allTokens (entriesOfMonth (str "2023-01") firstMonthOnly)).
Proof.
  apply (matrix_cells firstMonthOnly (str "focus") (str "2023-01") [10; 0]%Z 0);
    vm_compute; reflexivity.
Defined.

(** ** The word tables and the top table *)

Lemma sumOver_set {K V} (keq : K -> K -> bool) (f : V -> Z)
      (m : list (K * V)) (k : K) (v : V) :
  sum (map (fun kv => f (snd kv)) (Map_set keq m k v))
  = (sum (map (fun kv => f (snd kv)) m)
     - match Map_get keq m k with Some v0 => f v0 | None => 0 end + f v)%Z.
Proof.
  induction m as [|[k' v'] m IH]; simpl.
  - rewrite sum_cons. unfold sum. simpl. lia.
  - destruct (keq k' k); simpl; rewrite !sum_cons; [lia|].
    rewrite IH. lia.
Qed.

Lemma countWord_overall (y0 : Z) (acc : WordTable * list (Z * WordTable))
      (w0 w : jsstring) :
  orZero (Map_get Js.eqb (fst (countWord y0 acc w0)) w)
  = (orZero (Map_get Js.eqb (fst acc) w) + if Js.eqb w0 w then 1 else 0)%Z.
Proof.
  destruct acc as [o py]. unfold countWord. cbn [fst].
  destruct (Js.eqb w0 w) eqn:E.
  - apply jseqb_eq in E. subst w0.
    now rewrite (Map_get_set_same Js.eqb jseqb_eq).
  - apply jseqb_neq in E.
    rewrite (Map_get_set_other Js.eqb jseqb_eq) by assumption. lia.
Qed.

Lemma countWord_yearSum (y0 : Z) (acc : WordTable * list (Z * WordTable))
      (w0 w : jsstring) :
  sum (map (fun yt => orZero (Map_get Js.eqb (snd yt) w))
         (snd (countWord y0 acc w0)))
  = (sum (map (fun yt => orZero (Map_get Js.eqb (snd yt) w)) (snd acc))
     + if Js.eqb w0 w then 1 else 0)%Z.
Proof.
  destruct acc as [o py]. unfold countWord. cbn [snd]. unfold WordTable in *.
  rewrite (sumOver_set Z.eqb (fun t => orZero (Map_get Js.eqb t w))).
  unfold Map_has. destruct (Map_get Z.eqb py y0) as [ym|] eqn:G.
  - rewrite G.
    destruct (Js.eqb w0 w) eqn:E.
    + apply jseqb_eq in E. subst w0.
      rewrite (Map_get_set_same Js.eqb jseqb_eq). cbn [orZero]. lia.
    + apply jseqb_neq in E.
      rewrite (Map_get_set_other Js.eqb jseqb_eq) by assumption. lia.
  - rewrite (Map_get_set_same Z.eqb Z.eqb_eq).
    rewrite (sumOver_set Z.eqb (fun t => orZero (Map_get Js.eqb t w))), G.
    cbn [Map_get Map_set orZero].
    destruct (Js.eqb w0 w) eqn:E; cbn [Map_get]; rewrite ?E; cbn [orZero]; lia.
Qed.

(** X6.  The per-year tables split the overall table: for every word, its
    overall count (0 when absent) is the sum of its counts in the tables of
    the years. *)
Theorem yearly_tables_partition (entries : list Entry) (w : jsstring) :
  orZero (Map_get Js.eqb (fst (buildWordFrequency entries)) w)
  = sum (map (fun yt => orZero (Map_get Js.eqb (snd yt) w))
           (snd (buildWordFrequency entries))).
Proof.
  rewrite buildWordFrequency_flat.
  assert (H : forall toks acc,
             orZero (Map_get Js.eqb (fst acc) w)
             = sum (map (fun yt => orZero (Map_get Js.eqb (snd yt) w)) (snd acc)) ->
             orZero (Map_get Js.eqb
                       (fst (fold_left (fun acc p => countWord (fst p) acc (snd p))
                               toks acc)) w)
             = sum (map (fun yt => orZero (Map_get Js.eqb (snd yt) w))
                      (snd (fold_left (fun acc p => countWord (fst p) acc (snd p))
                              toks acc)))).
  { induction toks as [|[y0 w0] toks IH]; intros acc Hacc; [exact Hacc|].
    cbn [fold_left fst snd]. apply IH.
    rewrite countWord_overall, countWord_yearSum. f_equal. exact Hacc. }
  apply H. reflexivity.
Qed.

Lemma matrix_has (entries : list Entry) (toks : list (jsstring * jsstring))
      (m : WordMonths) (w : jsstring) :
  Map_get Js.eqb
    (fold_left (fun m p => countWordMonth entries (fst p) m (snd p)) toks m) w
  = None
  <-> mentioned Js.eqb snd toks w = false /\ Map_get Js.eqb m w = None.
Proof.
  revert m. induction toks as [|[ym w0] toks IH]; intros m.
  - simpl. unfold mentioned. simpl. tauto.
  - cbn [fold_left fst snd]. rewrite IH, countWordMonth_get.
    unfold mentioned. cbn [existsb snd].
    fold (mentioned Js.eqb (@snd jsstring jsstring) toks w).
    destruct (Js.eqb w0 w); simpl; intuition discriminate.
Qed.

(** The series of a word adds up to its occurrences among all tokens. *)
Lemma matrix_row_sum (entries : list Entry) (w : jsstring) (arr : list Z) :
  Map_get Js.eqb (perWordMonthCounts entries) w = Some arr ->
  length arr = length (monthlyOrder entries)
  /\ sum arr = occurrences w (allTokens entries)
  /\ In w (allTokens entries).
Proof.
  unfold perWordMonthCounts. rewrite perWordMonthCountsOf_flat. intros G.
  destruct (matrix_fold entries (monthTokens entries) []) as [_ H];
    [apply monthTokens_in_range | constructor | discriminate |].
  destruct (H w arr G) as (L & S & M). split; [exact L|].
  destruct M as [M|M]; [|now elim M].
  destruct (tally_by_key Js.eqb snd (monthTokens entries) w) as [T Me].
  rewrite T, tally_ones_count in S. rewrite Me in M.
  apply (mentioned_In Js.eqb jseqb_eq) in M. rewrite map_id in M.
  unfold monthTokens in S, M. rewrite map_snd_pairs in S, M.
  fold (allTokens entries) in S, M.
  simpl in S. rewrite sum_repeat_zero in S. split; [lia | exact M].
Qed.

Lemma matrix_row_exists (entries : list Entry) (w : jsstring) :
  In w (allTokens entries) ->
  exists arr, Map_get Js.eqb (perWordMonthCounts entries) w = Some arr.
Proof.
  intros H. unfold perWordMonthCounts. rewrite perWordMonthCountsOf_flat.
  destruct (Map_get Js.eqb _ w) as [arr|] eqn:G; [eauto|].
  apply matrix_has in G as [M _]. exfalso.
  assert (M' : mentioned Js.eqb snd (monthTokens entries) w = true).
  { apply (mentioned_In Js.eqb jseqb_eq). unfold monthTokens.
    now rewrite map_snd_pairs. }
  congruence.
Qed.

Lemma count_order_trans (a b c : jsstring * Z) :
  sgn (snd b - snd a) <> Gt -> sgn (snd c - snd b) <> Gt ->
  sgn (snd c - snd a) <> Gt.
Proof. unfold sgn. rewrite !Z.compare_gt_iff. lia. Qed.

Lemma count_order_total (a b : jsstring * Z) :
  sgn (snd b - snd a) = Gt -> sgn (snd a - snd b) <> Gt.
Proof. unfold sgn. rewrite !Z.compare_gt_iff. lia. Qed.

Lemma StronglySorted_filter {A} (R : A -> A -> Prop) (f : A -> bool)
      (l : list A) :
  StronglySorted R l -> StronglySorted R (filter f l).
Proof.
  intros S. induction S as [|a l S IH F]; simpl; [constructor|].
  destruct (f a); [|assumption]. constructor; [assumption|].
  rewrite Forall_forall in *. intros x Hx. apply filter_In in Hx. apply F, Hx.
Qed.

(** X7.  The table of top words holds the rows of the overall table with a
    count of at least 10, by descending count, and its words are the
    candidates of the trend rankings: a word is in one list exactly when it
    is in the other. *)
Theorem top_table_and_candidates (entries : list Entry) :
  StronglySorted (fun a b => (snd a >= snd b)%Z) (topWordsGte10 entries)
  /\ (forall w c, In (w, c) (topWordsGte10 entries)
                  <-> In (w, c) (fst (buildWordFrequency entries))
                      /\ (10 <= c)%Z)
  /\ (forall w, In w (map fst (topWordsGte10 entries))
                <-> In w (map fst (wordsGte10 entries))).
Proof.
  assert (Hrow : forall w c, In (w, c) (topWordsGte10 entries)
                  <-> In (w, c) (fst (buildWordFrequency entries))
                      /\ (10 <= c)%Z).
  { intros w c. unfold topWordsGte10, allWordsSorted.
    rewrite filter_In, sort_In. cbn [snd]. rewrite Z.geb_le. tauto. }
  split; [|split; [exact Hrow|]].
  - unfold topWordsGte10, allWordsSorted. apply StronglySorted_filter.
    apply (StronglySorted_weaken (fun a b => sgn (snd b - snd a) <> Gt)).
    + intros a b. unfold sgn. rewrite Z.compare_gt_iff. lia.
    + apply sort_Sorted; [exact count_order_trans | exact count_order_total].
  - intros w. rewrite !in_map_iff. split.
    + intros ([w' c] & E & H). cbn [fst] in E. subst w'.
      apply Hrow in H as [H Hc].
      apply overall_row in H as (Hin & -> & _).
      destruct (matrix_row_exists entries w Hin) as [arr G].
      exists (w, sliceFrom 1 arr). split; [reflexivity|].
      apply wordsGte10_In. exists arr.
      destruct (matrix_row_sum entries w arr G) as (_ & S & _).
      split; [exact G|]. split; [lia | reflexivity].
    + intros ([w' s] & E & H). cbn [fst] in E. subst w'.
      apply wordsGte10_In in H as (arr & G & H & _).
      destruct (matrix_row_sum entries w arr G) as (_ & S & Hin).
      exists (w, sum arr). split; [reflexivity|].
      apply Hrow. split; [|exact H].
      apply overall_row. rewrite S. split; [exact Hin|].
      split; [reflexivity|]. lia.
Qed.

(** ** More on the trend ranker *)

Lemma In_firstn {A} (n : nat) (l : list A) (x : A) :
  In x (firstn n l) -> In x l.
Proof. intros H. rewrite <- (firstn_skipn n l). apply in_or_app. auto. Qed.

Lemma In_skipn {A} (n : nat) (l : list A) (x : A) :
  In x (skipn n l) -> In x l.
Proof. intros H. rewrite <- (firstn_skipn n l). apply in_or_app. auto. Qed.

Lemma sum_nonneg (l : list Z) :
  (forall v, In v l -> (0 <= v)%Z) -> (0 <= sum l)%Z.
Proof.
  induction l as [|x l IH]; intros H; [unfold sum; simpl; lia|].
  rewrite sum_cons. pose proof (H x (or_introl eq_refl)).
  assert (0 <= sum l)%Z by (apply IH; intros v Hv; apply H; now right). lia.
Qed.

Lemma matrix_row_nonneg (entries : list Entry) (w : jsstring) (arr : list Z) :
  Map_get Js.eqb (perWordMonthCounts entries) w = Some arr ->
  forall v, In v arr -> (0 <= v)%Z.
Proof.
  intros G v Hv. apply (In_nth _ _ 0%Z) in Hv as (i & Hi & <-).
  destruct (matrix_row_sum entries w arr G) as (L & _ & _).
  destruct (nth_error (monthlyOrder entries) i) as [k|] eqn:E.
  - rewrite (matrix_cells_fold entries (monthTokens entries) []
               (monthTokens_in_range entries)
               ltac:(discriminate) w arr i k); [| |exact E].
    + cbn [Map_get seriesOf]. rewrite nth_repeat, tally_monthTokens.
      unfold occurrences. lia.
    + rewrite <- perWordMonthCountsOf_flat. exact G.
  - apply nth_error_None in E. lia.
Qed.

Lemma NoDup_map_filter {A K} (f : A -> K) (p : A -> bool) (l : list A) :
  NoDup (map f l) -> NoDup (map f (filter p l)).
Proof.
  induction l as [|x l IH]; simpl; intros ND; [constructor|].
  inversion ND as [|? ? Hn ND']; subst. destruct (p x); [|auto].
  simpl. constructor; [|auto].
  intros H. apply Hn. apply in_map_iff in H as (y & E & Hy).
  apply filter_In in Hy. apply in_map_iff. exists y. tauto.
Qed.

Lemma NoDup_firstn {A} (n : nat) (l : list A) : NoDup l -> NoDup (firstn n l).
Proof.
  intros ND. rewrite <- (firstn_skipn n l) in ND.
  now apply NoDup_app_remove_r in ND.
Qed.

Lemma wordsGte10_NoDup (entries : list Entry) :
  NoDup (map fst (wordsGte10 entries)).
Proof.
  unfold wordsGte10, wordsGte10Unsorted.
  eapply Permutation_NoDup;
    [apply Permutation_map, Permutation_sym, sort_Permutation|].
  rewrite map_map. cbn [fst].
  apply (NoDup_map_filter fst), perWordMonthCounts_NoDup.
Qed.

Lemma candidate_series (entries : list Entry) (w : jsstring) (s : list Z) :
  In (w, s) (wordsGte10 entries) ->
  length s = (length (monthlyOrder entries) - 1)%nat
  /\ (forall v, In v s -> (0 <= v)%Z)
  /\ exists first,
       (0 <= first)%Z
       /\ (first + sum s)%Z = occurrences w (allTokens entries)
       /\ (10 <= first + sum s)%Z.
Proof.
  intros H. apply wordsGte10_In in H as (arr & G & H10 & ->).
  destruct (matrix_row_sum entries w arr G) as (L & S & _).
  pose proof (matrix_row_nonneg entries w arr G) as P.
  rewrite sliceFrom_1. destruct arr as [|a arr]; cbn [tl length] in *.
  - split; [lia|]. split; [intros v []|]. exists 0%Z. unfold sum in *. simpl in *. lia.
  - split; [lia|]. split; [intros v Hv; apply P; now right|].
    exists a. rewrite sum_cons in S, H10.
    split; [apply P; now left | split; lia].
Qed.

Lemma filter_none {A} (f : A -> bool) (l : list A) :
  (forall x, In x l -> f x = false) -> filter f l = [].
Proof.
  induction l as [|x l IH]; intros H; simpl; [reflexivity|].
  rewrite (H x (or_introl eq_refl)). apply IH. intros y Hy. apply H. now right.
Qed.



Lemma hottest_unfold (entries : list Entry) :
  hottest entries
  = firstn 50
      (sort (fun a b => sgn (delta b - delta a))
         (filter (fun x => (delta x >? 0)%Z)
            (map (hotOf entries) (wordsGte10 entries)))).
Proof. unfold hottest. now rewrite slice_prefix by lia. Qed.

Lemma lastN_In {A} (n : Z) (l : list A) (x : A) : In x (lastN n l) -> In x l.
Proof. apply In_skipn. Qed.

Lemma dropLastN_In {A} (n : Z) (l : list A) (x : A) :
  In x (dropLastN n l) -> In x l.
Proof. apply In_firstn. Qed.

(** X9.  The hottest list names every word at most once; each of its
    entries has [prev >= 0] and [0 < delta <= recent]; and when the Month
    Index has a single month or none the list is empty. *)
Theorem hottest_words (entries : list Entry) :
  NoDup (map word (hottest entries))
  /\ (forall h, In h (hottest entries) ->
                (0 <= prev h)%Z /\ (0 < delta h <= recent h)%Z)
  /\ ((length (monthlyOrder entries) <= 1)%nat -> hottest entries = []).
Proof.
  rewrite hottest_unfold.
  set (cmp := fun a b : Hot => sgn (delta b - delta a)).
  set (cands := map (hotOf entries) (wordsGte10 entries)).
  assert (Hc : forall h, In h (firstn 50 (sort cmp (filter (fun x => (delta x >? 0)%Z) cands))) ->
                         In h cands /\ (delta h > 0)%Z).
  { intros h Hh. apply In_firstn, sort_In, filter_In in Hh.
    rewrite Z.gtb_gt in Hh. exact Hh. }
  assert (Hnn : forall h, In h cands ->
                 length (series h) = (length (monthlyOrder entries) - 1)%nat
                 /\ forall v, In v (series h) -> (0 <= v)%Z).
  { intros h Hh. apply in_map_iff in Hh as ([w s] & <- & Hws).
    destruct (hotOf_word entries (w, s)) as [_ ->]. cbn [snd].
    destruct (candidate_series entries w s Hws) as (L & P & _). auto. }
  split; [|split].
  - rewrite <- firstn_map. apply NoDup_firstn.
    eapply Permutation_NoDup;
      [apply Permutation_map, Permutation_sym, sort_Permutation|].
    apply NoDup_map_filter. unfold cands. rewrite map_map.
    rewrite (map_ext (fun x => word (hotOf entries x)) fst)
      by (intros x; apply hotOf_word).
    apply wordsGte10_NoDup.
  - intros h Hh. destruct (Hc h Hh) as [Hin Hd].
    destruct (Hnn h Hin) as [_ P].
    apply in_map_iff in Hin as (ws & <- & _).
    destruct (hotOf_fields entries ws) as (R & Pv & D).
    assert (0 <= prev (hotOf entries ws))%Z.
    { rewrite Pv. destruct (_ <=? _)%Z; [|lia].
      apply sum_nonneg. intros v Hv. apply P.
      eapply dropLastN_In, lastN_In, Hv. }
    lia.
  - intros Hm.
    assert (E : filter (fun x => (delta x >? 0)%Z) cands = []).
    { apply filter_none. intros h Hh. destruct (Hnn h Hh) as [L _].
      apply in_map_iff in Hh as (ws & <- & _).
      destruct (hotOf_fields entries ws) as (R & Pv & D).
      destruct (series (hotOf entries ws)) as [|v s]; [|simpl in L; lia].
      assert (R0 : recent (hotOf entries ws) = 0%Z)
        by (rewrite R; unfold lastN; now rewrite skipn_nil).
      assert (P0 : prev (hotOf entries ws) = 0%Z).
      { rewrite Pv. destruct (_ <=? _)%Z; [|reflexivity].
        unfold lastN, dropLastN. now rewrite firstn_nil, skipn_nil. }
      rewrite Z.gtb_ltb. apply Z.ltb_ge. lia. }
    rewrite E. reflexivity.
Qed.
(** ** htmlEscape *)

Lemma replaceAllChar_app (c : char) (rep a b : jsstring) :
  replaceAllChar c rep (a ++ b)
  = replaceAllChar c rep a ++ replaceAllChar c rep b.
Proof. unfold replaceAllChar. apply flat_map_app. Qed.

Lemma htmlEscape_app (a b : jsstring) :
  htmlEscape (a ++ b) = htmlEscape a ++ htmlEscape b.
Proof. unfold htmlEscape. now rewrite !replaceAllChar_app. Qed.

Lemma htmlEscape_one (c : char) : htmlEscape [c] = escapeChar c.
Proof.
  unfold htmlEscape, escapeChar, replaceAllChar.
  destruct (N.eqb_spec c 38) as [->|N1]; [reflexivity|].
  destruct (N.eqb_spec c 60) as [->|N2]; [reflexivity|].
  destruct (N.eqb_spec c 62) as [->|N3]; [reflexivity|].
  destruct (N.eqb_spec c 34) as [->|N4]; [reflexivity|].
  destruct (N.eqb_spec c 39) as [->|N5]; [reflexivity|].
  cbn [flat_map app].
  apply N.eqb_neq in N1, N2, N3, N4, N5.
  rewrite N1. cbn [flat_map app]. rewrite N2. cbn [flat_map app].
  rewrite N3. cbn [flat_map app]. rewrite N4. cbn [flat_map app].
  now rewrite N5.
Qed.

Lemma htmlEscape_flat (s : jsstring) : htmlEscape s = flat_map escapeChar s.
Proof.
  induction s as [|c t IH]; [reflexivity|].
  change (c :: t) with ([c] ++ t).
  rewrite htmlEscape_app, htmlEscape_one, IH. reflexivity.
Qed.

Lemma escapeChar_cases (c : char) :
  (c = 38 /\ escapeChar c = str "&amp;")
  \/ (c = 60 /\ escapeChar c = str "&lt;")
  \/ (c = 62 /\ escapeChar c = str "&gt;")
  \/ (c = 34 /\ escapeChar c = str "&quot;")
  \/ (c = 39 /\ escapeChar c = str "&#39;")
  \/ (c <> 38 /\ c <> 60 /\ c <> 62 /\ c <> 34 /\ c <> 39
      /\ escapeChar c = [c]).
Proof.
  unfold escapeChar.
  destruct (N.eqb_spec c 38) as [->|N1]; [left; now split|].
  destruct (N.eqb_spec c 60) as [->|N2]; [right; left; now split|].
  destruct (N.eqb_spec c 62) as [->|N3]; [do 2 right; left; now split|].
  destruct (N.eqb_spec c 34) as [->|N4]; [do 3 right; left; now split|].
  destruct (N.eqb_spec c 39) as [->|N5]; [do 4 right; left; now split|].
  do 5 right. repeat split; assumption.
Qed.

Lemma escapeChar_inj (c d : char) (s t : jsstring) :
  escapeChar c ++ s = escapeChar d ++ t -> c = d /\ s = t.
Proof.
  destruct (escapeChar_cases c) as [[-> ->]|[[-> ->]|[[-> ->]|[[-> ->]|[[-> ->]|
    (C1 & C2 & C3 & C4 & C5 & ->)]]]]];
  destruct (escapeChar_cases d) as [[-> ->]|[[-> ->]|[[-> ->]|[[-> ->]|[[-> ->]|
    (D1 & D2 & D3 & D4 & D5 & ->)]]]]];
  cbn [str map list_ascii_of_string N_of_ascii N_of_digits app];
  intros H; try discriminate H;
  try (injection H as H; subst; split; [reflexivity | assumption || reflexivity]);
  try (injection H as H; congruence).
Qed.

(** X10.  [htmlEscape] works character by character: [&], [<], [>], the
    double quote and the apostrophe become their entities and every other
    character stays.  The result holds none of [<], [>], the double quote
    and the apostrophe, and two different strings never escape to the same
    text. *)
Theorem htmlEscape_entities :
  (forall s, htmlEscape s = flat_map escapeChar s)
  /\ (forall s c, In c (htmlEscape s) ->
                  c <> 60 /\ c <> 62 /\ c <> 34 /\ c <> 39)
  /\ (forall s t, htmlEscape s = htmlEscape t -> s = t)
  /\ htmlEscape (str "a<b & 'c'")
     = str "a&lt;b &amp; &#39;c&#39;".
Proof.
  split; [exact htmlEscape_flat|]. split; [|split].
  - intros s c. rewrite htmlEscape_flat. intros H.
    apply in_flat_map in H as (d & _ & H).
    destruct (escapeChar_cases d) as [[-> E]|[[-> E]|[[-> E]|[[-> E]|[[-> E]|
      (D1 & D2 & D3 & D4 & D5 & E)]]]]]; rewrite E in H.
    1-5: cbn in H;
      repeat (destruct H as [<-|H]; [repeat split; discriminate|]);
      destruct H.
    destruct H as [<-|[]]. auto.
  - intros s. rewrite htmlEscape_flat.
    induction s as [|c s IH]; intros t; rewrite htmlEscape_flat.
    + destruct t as [|d t]; [reflexivity|]. cbn [flat_map].
      destruct (escapeChar_cases d) as [[-> E]|[[-> E]|[[-> E]|[[-> E]|[[-> E]|
        (_ & _ & _ & _ & _ & E)]]]]]; rewrite E; discriminate.
    + destruct t as [|d t]; cbn [flat_map].
      * destruct (escapeChar_cases c) as [[-> E]|[[-> E]|[[-> E]|[[-> E]|[[-> E]|
          (_ & _ & _ & _ & _ & E)]]]]]; rewrite E; discriminate.
      * intros H. apply escapeChar_inj in H as [-> H]. f_equal.
        apply IH. now rewrite htmlEscape_flat.
  - vm_compute. reflexivity.
Qed.
(** ** The two loops of the normalizer *)

Lemma skipList_spec (items rest : list jsstring) (j : nat) :
  Forall (fun l => isListOrBlank l = true) items ->
  (rest = [] \/ isListOrBlank (hd [] rest) = false) ->
  skipList (items ++ rest) j = (j + length items)%nat.
Proof.
  intros Hi Hr. revert j. induction Hi as [|l items Hl Hi IH]; intros j.
  - cbn [app length]. rewrite Nat.add_0_r.
    destruct Hr as [->|Hr]; [reflexivity|].
    destruct rest as [|r rest]; [reflexivity|]. cbn [hd] in Hr.
    cbn [skipList]. now rewrite Hr.
  - cbn [app skipList length]. rewrite Hl, IH. lia.
Qed.

Lemma findStart_spec (pre items rest : list jsstring) (m : jsstring) (i : nat) :
  Forall (fun l => test true re_mustDos l = false) pre ->
  test true re_mustDos m = true ->
  Forall (fun l => isListOrBlank l = true) items ->
  (rest = [] \/ isListOrBlank (hd [] rest) = false) ->
  findStart (pre ++ m :: items ++ rest) i
  = (i + length pre + 1 + length items)%nat.
Proof.
  intros Hp Hm Hi Hr. revert i. induction Hp as [|l pre Hl Hp IH]; intros i.
  - cbn [app findStart length]. rewrite Hm, (skipList_spec items rest _ Hi Hr). lia.
  - cbn [app findStart length]. rewrite Hl, IH. lia.
Qed.

Lemma findEnd_hit (ls : list jsstring) (i e : nat) :
  findEnd ls i = Some e ->
  (e - i < length ls)%nat /\ isFooter (nth (e - i) ls []) = true.
Proof.
  revert i; induction ls as [|l ls IH]; intros i; [discriminate|].
  cbn [findEnd]. destruct (isFooter l) eqn:F.
  - intros [= <-]. rewrite Nat.sub_diag. cbn [length nth]. split; [lia | exact F].
  - intros H. pose proof (findEnd_ge ls (S i) e H) as G.
    destruct (IH (S i) H) as [L N].
    replace (e - i)%nat with (S (e - S i)) by lia. cbn [length nth].
    split; [lia | exact N].
Qed.

Lemma nth_in_firstn {A} (n i : nat) (l : list A) (d : A) :
  (i < n)%nat -> (i < length l)%nat -> In (nth i l d) (firstn n l).
Proof.
  revert i l; induction n as [|n IH]; intros i l Hn Hl; [lia|].
  destruct l as [|x l]; [cbn [length] in Hl; lia|].
  destruct i as [|i]; cbn [nth firstn]; [now left|].
  right. apply IH; [lia | cbn [length] in Hl; lia].
Qed.

(** X11.  The header block.  When the first Must Do's heading is line
    number [length pre] and the lines after it are list items, numbered
    items, checkboxes or blank lines up to a line that is none of these (or
    up to the end), the body starts after them; everything before the
    heading is dropped with it.  Without a heading the body starts at line
    0. *)
Theorem header_block (pre items rest : list jsstring) (m : jsstring) :
  Forall (fun l => test true re_mustDos l = false) pre ->
  test true re_mustDos m = true ->
  Forall (fun l => isListOrBlank l = true) items ->
  (rest = [] \/ isListOrBlank (hd [] rest) = false) ->
  startIdx (pre ++ m :: items ++ rest) = (length pre + 1 + length items)%nat
  /\ skipn (startIdx (pre ++ m :: items ++ rest)) (pre ++ m :: items ++ rest)
     = rest
  /\ startIdx pre = 0%nat.
Proof.
  intros Hp Hm Hi Hr.
  assert (E : startIdx (pre ++ m :: items ++ rest)
              = (length pre + 1 + length items)%nat).
  { unfold startIdx. now rewrite (findStart_spec pre items rest m 0 Hp Hm Hi Hr). }
  split; [exact E|]. split; [|now apply findStart_none].
  rewrite E.
  replace (pre ++ m :: items ++ rest) with ((pre ++ m :: items) ++ rest)
    by (rewrite <- app_assoc; reflexivity).
  rewrite skipn_app.
  replace (length pre + 1 + length items)%nat with (length (pre ++ m :: items))
    by (rewrite length_app; cbn [length]; lia).
  rewrite skipn_all, Nat.sub_diag. reflexivity.
Qed.

Lemma header_block_witness :
  startIdx ([str "intro"] ++ str "# must dos" :: [str "- a"; str "1. b"; []]
            ++ [str "body"; str "- kept"])
  = (length [str "intro"] + 1 + length [str "- a"; str "1. b"; []])%nat
  /\ skipn (startIdx ([str "intro"] ++ str "# must dos"
                      :: [str "- a"; str "1. b"; []]
                      ++ [str "body"; str "- kept"]))
       ([str "intro"] ++ str "# must dos" :: [str "- a"; str "1. b"; []]
        ++ [str "body"; str "- kept"])
     = [str "body"; str "- kept"]
  /\ startIdx [str "intro"] = 0%nat.
Proof.
  apply (header_block [str "intro"] [str "- a"; str "1. b"; []]
           [str "body"; str "- kept"] (str "# must dos")).
  - repeat constructor.
  - vm_compute. reflexivity.
  - repeat constructor.
  - right. vm_compute. reflexivity.
Defined.

(** X12.  The footer.  The body ends at the first line at or after its
    start that opens the footer (a [[link to]] link, a "link to" or "are
    we closer" heading, or "100 days"), and at the end of the text when
    there is none: the end is within the text, the line at the end opens
    the footer, and no kept line does. *)
Theorem footer_cut (lines : list jsstring) :
  (endIdx lines <= length lines)%nat
  /\ ((endIdx lines < length lines)%nat ->
      (startIdx lines <= endIdx lines)%nat
      /\ isFooter (nth (endIdx lines) lines []) = true)
  /\ (forall i, (startIdx lines <= i < endIdx lines)%nat ->
                isFooter (nth i lines []) = false)
  /\ Forall (fun l => isFooter l = false)
       (slice (Z.of_nat (startIdx lines)) (Z.of_nat (endIdx lines)) lines).
Proof.
  pose proof (findEnd_prefix (skipn (startIdx lines) lines) (startIdx lines)) as P.
  pose proof (findEnd_hit (skipn (startIdx lines) lines) (startIdx lines)) as Hh.
  pose proof (findEnd_ge (skipn (startIdx lines) lines) (startIdx lines)) as G.
  pose proof (kept_lines_no_footer lines) as K.
  unfold endIdx in *.
  destruct (findEnd (skipn (startIdx lines) lines) (startIdx lines)) as [e|].
  - specialize (G e eq_refl). destruct (Hh e eq_refl) as [L N].
    rewrite length_skipn in L. rewrite nth_skipn in N.
    replace (startIdx lines + (e - startIdx lines))%nat with e in N by lia.
    split; [lia|]. split; [intros _; split; [exact G | exact N]|].
    split; [|exact K].
    intros i Hi. rewrite Forall_forall in P.
    replace i with (startIdx lines + (i - startIdx lines))%nat by lia.
    rewrite <- nth_skipn. apply P.
    apply nth_in_firstn; [lia | rewrite length_skipn; lia].
  - split; [lia|]. split; [lia|]. split; [|exact K].
    intros i Hi. rewrite Forall_forall in P.
    replace i with (startIdx lines + (i - startIdx lines))%nat by lia.
    rewrite <- nth_skipn. apply P. rewrite firstn_all.
    apply nth_In. rewrite length_skipn. lia.
Qed.

(** X13.  A normalized text never holds a line that opens the footer, and
    its newline runs are at most two long; lines that hold white space are
    no newline run, so blank lines with spaces in them are kept. *)
Theorem normalized_text (text : jsstring) :
  (forall l, In l (split LF (cleanJournalMarkdown text)) -> isFooter l = false)
  /\ short 0 (cleanJournalMarkdown text) = true
  /\ collapseBlankLines (cleanJournalMarkdown text) = cleanJournalMarkdown text
  /\ cleanJournalMarkdown (str "a" ++ [LF; SP; LF; SP; LF; SP; LF] ++ str "b")
     = str "a" ++ [LF; SP; LF; SP; LF; SP; LF] ++ str "b" ++ [LF].
Proof.
  assert (S : short 0 (cleanJournalMarkdown text) = true).
  { destruct (normalizer_shape text) as (l & body & r & E & Fl & Fr & S).
    pose proof (squeeze_short 0 (join [LF]
       (slice (Z.of_nat (startIdx (split LF text)))
              (Z.of_nat (endIdx (split LF text))) (split LF text)))) as Sq.
    rewrite E in Sq. cbn [Nat.min] in Sq.
    apply short_app in Sq as [_ Sq]. apply short_app in Sq as [Sq _].
    destruct S as [[_ ->]|(Hne & _ & Hl & ->)]; [reflexivity|].
    apply short_snoc; [exact Hne| |exact Sq].
    intros X. rewrite X in Hl. discriminate Hl. }
  split; [intros l; apply cleaned_lines_no_footer|].
  split; [exact S|]. split; [|vm_compute; reflexivity].
  rewrite collapseBlankLines_squeeze. now apply short_fix.
Qed.

(** ** The text of a path *)

(** X14.  The coordinates are printed from the binary64 values.  With 161
    equal values at 280 by 60 the second point is at 6 + 268/160, which is
    7.675 exactly and a little less as a binary64 number: the text is
    [7.67].  A plain three-point example is added, and what is printed for
    [NaN], an infinity and a number from 10^21 on. *)
Theorem path_text_examples :
  nth 1 (pathCommands (repeat 4%Z 161) 280 60) [] = str "L7.67,54.00"
  /\ fixed2 (inject_Z 6 + inject_Z 268 / inject_Z 160) = str "7.68"
  /\ pathCommands [1; 3; 2]%Z 280 60
     = [str "M6.00,54.00"; str "L140.00,6.00"; str "L274.00,30.00"]
  /\ toFixed2 (0 / 0)%float = str "NaN"
  /\ toFixed2 (1 / 0)%float = str "Infinity"
  /\ toFixed2 (ofZ (10 ^ 21 - 1)) = str "1e+21"
  /\ toFixed2 (ofZ (- 2 ^ 70)) = str "-1.1805916207174113e+21".
Proof. repeat split; vm_compute; reflexivity. Qed.
